(** * CPU predictor of a gradient-boosted tree ensemble

    A shallow embedding of [src/predictor/cpu_predictor.cc] and the
    properties of its batch kernel, its entry points and its
    contribution composition.

    Conventions of the embedding.
    - Machine integers are [Z]; every narrowing the C++ performs is written
      out: [wrap32] for [unsigned], [uint32_t] and [bst_omp_uint], [wrap64]
      for [size_t], [to_int32] for [int] and [int32_t].  A [size_t]
      expression built from [+] and [*] only is wrapped once, at its root
      (reduction modulo 2^64 commutes with both).
    - [bst_float] is IEEE binary32, through the Standard Library's
      [SpecFloat] with precision 24 and maximal exponent 128.
    - A [std::vector] is a [list]; reading or writing outside its bounds is
      undefined in C++ and is the error [OutOfBounds] here.  A failed
      [CHECK] is the error [CheckFailed].
    - A parallel loop runs its tasks one after the other, in the order and
      on the worker threads a schedule gives. *)

From Stdlib Require Import ZArith Lia Floats.SpecFloat.
From stdpp Require Import base tactics option list strings.

#[local] Open Scope Z_scope.

(** ** Machine integers *)

Definition wrap32 (z : Z) : Z := z mod 2 ^ 32.
Definition wrap64 (z : Z) : Z := z mod 2 ^ 64.
Definition to_int32 (z : Z) : Z := (z + 2 ^ 31) mod 2 ^ 32 - 2 ^ 31.

(** [v.size()] *)
Definition vsize {A} (v : list A) : Z := Z.of_nat (length v).

(** ** Single-precision floats *)

Definition bst_float : Type := spec_float.

Definition fzero : bst_float := S754_zero false.
Definition fone : bst_float := binary_normalize 24 128 1 0 false.
Definition fadd : bst_float → bst_float → bst_float := SFadd 24 128.
Definition fsub : bst_float → bst_float → bst_float := SFsub 24 128.
Definition fmul : bst_float → bst_float → bst_float := SFmul 24 128.

(** [static_cast<bst_float>(int)] *)
Definition float_of_int (z : Z) : bst_float := binary_normalize 24 128 z 0 false.

(** Widening to [double] and narrowing back, for [x / 2.0]: the quotient is
    taken in binary64 and rounded to binary32 by the store. *)
Definition float_to_double (x : bst_float) : spec_float :=
  match x with
  | S754_finite s m e => binary_normalize 53 1024 (cond_Zopp s (Zpos m)) e s
  | _ => x
  end.

Definition double_to_float (x : spec_float) : bst_float :=
  match x with
  | S754_finite s m e => binary_normalize 24 128 (cond_Zopp s (Zpos m)) e s
  | _ => x
  end.

Definition fhalf (x : bst_float) : bst_float :=
  double_to_float
    (SFdiv 53 1024 (float_to_double x) (binary_normalize 53 1024 2 0 false)).

(** [common::CheckNAN] *)
Definition CheckNAN (x : bst_float) : bool :=
  match x with S754_nan => true | _ => false end.

(** The exact value of a finite binary32 number, counted in units of
    2^-149 (the smallest positive subnormal): every finite binary32 value
    is an integer number of such units. *)
Definition units (x : bst_float) : Z :=
  match x with
  | S754_finite s m e => cond_Zopp s (Zpos m * 2 ^ (e + 149))
  | _ => 0
  end.

Definition is_finite (x : bst_float) : bool :=
  match x with
  | S754_zero _ | S754_finite _ _ _ => true
  | _ => false
  end.

(** ** Errors *)

Inductive error : Type :=
  | CheckFailed (msg : string)
  | OutOfBounds.

Inductive result (A : Type) : Type :=
  | Ok (a : A)
  | Err (e : error).
Arguments Ok {A} a.
Arguments Err {A} e.

#[global] Instance result_ret : MRet result := λ A a, Ok a.
#[global] Instance result_bind : MBind result :=
  λ A B f m, match m with Ok a => f a | Err e => Err e end.

Definition CHECK (b : bool) (msg : string) : result unit :=
  if b then Ok tt else Err (CheckFailed msg).

(** ** Vectors and loops *)

Definition vec_get {A} (v : list A) (i : Z) : result A :=
  if decide (0 ≤ i) then
    match v !! Z.to_nat i with
    | Some x => Ok x
    | None => Err OutOfBounds
    end
  else Err OutOfBounds.

Definition vec_set {A} (v : list A) (i : Z) (x : A) : result (list A) :=
  if decide (0 ≤ i < vsize v) then Ok (<[Z.to_nat i := x]> v)
  else Err OutOfBounds.

(** [v[i] = f(v[i])], as [+=] and [-=] do. *)
Definition vec_upd {A} (v : list A) (i : Z) (f : A → A) : result (list A) :=
  x ← vec_get v i; vec_set v i (f x).

Fixpoint foldM {A S} (body : A → S → result S) (l : list A) (s : S) : result S :=
  match l with
  | [] => Ok s
  | a :: l' => s' ← body a s; foldM body l' s'
  end.

(** [for (i = lo; i < hi; ++i) body] *)
Definition for_range {S} (lo hi : Z) (body : Z → S → result S) (s : S) : result S :=
  foldM body (seqZ lo (hi - lo)) s.

(** ** Rows and feature vectors *)

Record Entry : Type := { index : Z; fvalue : bst_float }.

(** [SparsePage::Inst] *)
Abbreviation Inst := (list Entry).

(** Modelled from the spec: [RegTree::FVec], declared in
    [xgboost/tree_model.h].  A dense array of feature values in which a
    missing value is a sentinel ([None]); [Init] sizes it with every entry
    missing, [Fill] overlays the (index, value) pairs of a row and [Drop]
    resets exactly the entries the row touched.  An index outside the
    array is skipped.  The missing-flag is read off the array. *)
Module FVec.

Abbreviation t := (list (option bst_float)).

Definition Size (fv : t) : Z := vsize fv.

Definition Init (size : Z) : t := replicate (Z.to_nat size) None.

Definition put (v : option bst_float) (fv : t) (e : Entry) : t :=
  if decide (0 ≤ index e < Size fv) then <[Z.to_nat (index e) := v]> fv
  else fv.

Definition Fill (inst : Inst) (fv : t) : t :=
  foldl (λ d e, put (Some (fvalue e)) d e) fv inst.

Definition Drop (inst : Inst) (fv : t) : t :=
  foldl (λ d e, put None d e) fv inst.

Definition HasMissing (fv : t) : bool :=
  existsb (λ x, match x with None => true | Some _ => false end) fv.

(** The state of a pooled vector between two rows: every entry missing. *)
Definition clean (fv : t) : Prop := Forall (λ x, x = None) fv.

End FVec.

(** ** Row sources *)

(** The interface the kernel's [DataView] template parameter must offer:
    [Size()], [base_rowid] and [operator[]].  [operator[]] is not a [const]
    member: a call may change the view, and so returns the view next to
    the row; and it may ask which worker thread it runs on
    ([omp_get_thread_num()]), which [view_at view tid i] is told. *)
Class DataView (V : Type) : Type := {
  view_Size : V → Z;
  view_base_rowid : V → Z;
  view_at : V → Z → Z → result (Inst * V)
}.

(** Modelled from the spec: [SparsePage] ([xgboost/data.h]), a batch of
    sparse rows with the row index of its first row. *)
Record SparsePage : Type := { base_rowid : Z; page_rows : list Inst }.

(** [SparsePageView]: a row is read off the page, which stays as it is. *)
#[global] Instance SparsePageView : DataView SparsePage := {|
  view_Size p := vsize (page_rows p);
  view_base_rowid p := base_rowid p;
  view_at p _ i := inst ← vec_get (page_rows p) i; Ok (inst, p)
|}.

(** Modelled from the spec: an in-place input adapter ([data/adapter.h]),
    exposing its row count, its column count and, per row, the elements
    (column, value) it stores, missing ones included. *)
Record COOTuple : Type := { column_idx : Z; value : bst_float }.

Record Adapter : Type := {
  NumRows : Z;
  NumColumns : Z;
  GetLine : list (list COOTuple)
}.

(** The members of an [AdapterView] that never change: the adapter and
    the value that stands for a missing one. *)
Record AdapterView : Type := { adapter_ : Adapter; missing_ : bst_float }.

(** The members of an [AdapterView] that [operator[]] writes: the
    workspace the threads share, and for each thread the slot its next row
    goes to. *)
Record AdapterScratch : Type := {
  workspace_ : list Entry;
  current_unroll_ : list Z
}.

(** A window of the workspace, as [Span::subspan] returns it, and what
    reading it gives. *)
Record Span : Type := { span_offset : Z; span_count : Z }.

Definition subspan (ws : list Entry) (offset count : Z) : result Span :=
  if decide (offset + count ≤ vsize ws)
  then Ok {| span_offset := offset; span_count := count |}
  else Err OutOfBounds.

Definition span_read (ws : list Entry) (s : Span) : Inst :=
  take (Z.to_nat (span_count s)) (drop (Z.to_nat (span_offset s)) ws).

(** The constructor of [AdapterView]: one counter for each thread. *)
Definition AdapterView_new (max_threads : Z) (workplace : list Entry)
    : AdapterScratch :=
  {| workspace_ := workplace;
     current_unroll_ :=
       replicate (Z.to_nat (if decide (max_threads > 0) then max_threads else 1)) 0 |}.

(** [AdapterView::operator[]] on thread [t]: the elements of row [i] that
    are neither the missing sentinel nor NaN are written one after the
    other from the start of the slot, each write checked against the bounds
    of the workspace; the window that holds them is returned and the
    counter of the thread moves to the next of its [kUnroll] slots. *)
Definition AdapterView_index (kUnroll : Z) (v : AdapterView) (t i : Z)
    (st : AdapterScratch) : result (Span * AdapterScratch) :=
  let columns := wrap32 (NumColumns (adapter_ v)) in
  row ← vec_get (GetLine (adapter_ v)) i;
  cu ← vec_get (current_unroll_ st) t;
  let beg := wrap64 (columns * kUnroll * t + cu * columns) in
  filled ← foldM (λ (e : COOTuple) (acc : list Entry * Z),
    if negb (SFeqb (missing_ v) (value e)) && negb (CheckNAN (value e)) then
      ws ← vec_set acc.1 acc.2
             {| index := wrap32 (column_idx e); fvalue := value e |};
      Ok (ws, wrap64 (acc.2 + 1))
    else Ok acc) row (workspace_ st, beg);
  ret ← subspan filled.1 beg (wrap64 (filled.2 - beg));
  let next := wrap64 (cu + 1) in
  unroll ← vec_set (current_unroll_ st) t
             (if decide (next = kUnroll) then 0 else next);
  Ok (ret, {| workspace_ := filled.1; current_unroll_ := unroll |}).

(** The depth of the workspace of a view: the default [kUnrollLen]. *)
Definition kUnrollLen : Z := 8.

(** The view as a row source: the object is the pair of its fixed and of
    its written members; the row handed to the caller is what the window
    holds when [operator[]] returns. *)
#[global] Instance AdapterView_DataView
    : DataView (AdapterView * AdapterScratch) := {|
  view_Size v := NumRows (adapter_ v.1);
  view_base_rowid _ := 0;
  view_at v t i :=
    r ← AdapterView_index kUnrollLen v.1 t i v.2;
    Ok (span_read (workspace_ r.2) r.1, (v.1, r.2))
|}.

(** What [operator[]] makes of row [i] when its writes stay inside the
    workspace: the elements of the row that are neither the missing
    sentinel nor NaN, in order. *)
Definition AdapterView_at (v : AdapterView) (i : Z) : result Inst :=
  row ← vec_get (GetLine (adapter_ v)) i;
  Ok (omap (M := list) (λ e : COOTuple,
        if negb (SFeqb (missing_ v) (value e)) && negb (CheckNAN (value e))
        then Some {| index := wrap32 (column_idx e); fvalue := value e |}
        else None) row).

(** Modelled from the spec: [MetaInfo] and [DMatrix] ([xgboost/data.h]),
    the row count, the optional base margin and the row batches. *)
Record MetaInfo : Type := { num_row_ : Z; base_margin_ : list bst_float }.

Record DMatrix : Type := { Info : MetaInfo; GetBatches : list SparsePage }.

(** ** Trees and the model *)

(** The tree-level routines the predictor calls ([xgboost/tree_model.h]).
    [GetLeafIndex b] is the template instance [GetLeafIndex<b>], whose
    default is [b = true]; [CalculateContributions] and
    [CalculateContributionsApprox] give, for a slot, what the routine
    leaves there in a zeroed output buffer.  [FillNodeMeanValues] only
    caches values inside a tree and has no counterpart here. *)
Class TreeOps (RegTree : Type) : Type := {
  GetLeafIndex : bool → RegTree → FVec.t → Z;
  LeafValue : RegTree → Z → bst_float;
  CalculateContributions :
    RegTree → FVec.t → option (list Z) → Z → Z → Z → Z → bst_float;
  CalculateContributionsApprox : RegTree → FVec.t → Z → bst_float
}.

(** Modelled from the spec: the learner parameters ([xgboost/learner.h]),
    feature count, output-group count and base score. *)
Record LearnerModelParam : Type := {
  base_score : bst_float;
  num_feature : Z;
  num_output_group : Z
}.

(** Modelled from the spec: the ensemble ([gbm/gbtree_model.h]), an ordered
    tree list, the parallel array from tree index to output group, and the
    auxiliary leaf-vector length. *)
Record GBTreeModel (RegTree : Type) : Type := {
  learner_model_param : LearnerModelParam;
  size_leaf_vector : Z;
  trees : list RegTree;
  tree_info : list Z
}.
Arguments learner_model_param {RegTree} _.
Arguments size_leaf_vector {RegTree} _.
Arguments trees {RegTree} _.
Arguments tree_info {RegTree} _.

(** Modelled from the spec: [common::ParallelFor]
    ([common/threading_utils.h]), a fork-join loop over [0, size) whose
    tasks are independent and may run in any order and on any thread.  A
    schedule gives, for a loop over [0, size), its tasks in the order in
    which they run: the index, and the worker ([omp_get_thread_num()]) that
    takes it. *)
Abbreviation schedule := (Z → list (Z * Z)).

Definition ParallelFor {S} (size : Z) (sched : schedule)
    (fn : Z → Z → S → result S) (s : S) : result S :=
  foldM (λ task, fn task.1 task.2) (sched size) s.

(** A warning is the sequence of pieces streamed into it. *)
Inductive log_piece : Type :=
  | LText (s : string)
  | LNum (z : Z)
  | LFloat (x : bst_float).

Abbreviation warning := (list log_piece).

(** The [dmlc::any] handed to in-place prediction: its runtime type is one
    of the four adapter pointers, or something else. *)
Inductive any : Type :=
  | AnyDenseAdapter (m : Adapter)
  | AnyCSRAdapter (m : Adapter)
  | AnyArrayAdapter (m : Adapter)
  | AnyCSRArrayAdapter (m : Adapter)
  | AnyOther (type_name : string).

(** What an in-place prediction can change: the prediction cache entry,
    the [MetaInfo] of the proxy matrix (when one is given) and the log. *)
Record InplaceState : Type := {
  predictions : list bst_float;
  p_m : option MetaInfo;
  warnings : list warning
}.

Definition kBlockOfRowsSize : Z := 64.

Section Predictor.
Context {RegTree : Type} `{TreeOps RegTree}.

(** *** Tree evaluation *)

Definition PredValue (inst : Inst) (trees : list RegTree) (tree_info : list Z)
    (bst_group : Z) (p_feats : FVec.t) (tree_begin tree_end : Z)
    : result (bst_float * FVec.t) :=
  let feats := FVec.Fill inst p_feats in
  psum ← for_range tree_begin tree_end (λ i psum,
    gi ← vec_get tree_info i;
    if decide (gi = bst_group) then
      tree ← vec_get trees i;
      let tid := GetLeafIndex true tree feats in
      Ok (fadd psum (LeafValue tree tid))
    else Ok psum) fzero;
  Ok (psum, FVec.Drop inst feats).

Definition PredValueByOneTree (p_feats : FVec.t) (tree : RegTree) : bst_float :=
  let lid := if FVec.HasMissing p_feats then GetLeafIndex true tree p_feats
             else GetLeafIndex false tree p_feats in
  LeafValue tree lid.

Definition PredictByAllTrees (model : GBTreeModel RegTree)
    (tree_begin tree_end : Z) (out_preds : list bst_float)
    (predict_offset num_group : Z) (thread_temp : list FVec.t)
    (offset block_size : Z) : result (list bst_float) :=
  for_range tree_begin tree_end (λ tree_id preds,
    gi ← vec_get (tree_info model) tree_id;
    let gid := wrap64 gi in
    for_range 0 block_size (λ i preds,
      feats ← vec_get thread_temp (wrap64 (offset + i));
      tree ← vec_get (trees model) tree_id;
      vec_upd preds (wrap64 ((predict_offset + i) * num_group + gid))
        (λ x, fadd x (PredValueByOneTree feats tree))) preds) out_preds.

(** *** The blocked batch kernel *)

(** [tid] is the worker thread the call runs on. *)
Definition FVecFill {V} `{DataView V} (tid : Z)
    (block_size batch_offset num_feature : Z)
    (batch : V) (fvec_offset : Z) (p_feats : list FVec.t)
    : result (list FVec.t * V) :=
  for_range 0 block_size (λ i (st : list FVec.t * V),
    feats ← vec_get st.1 (wrap64 (fvec_offset + i));
    let feats := if decide (FVec.Size feats = 0)
                 then FVec.Init (wrap64 num_feature) else feats in
    fetched ← view_at st.2 tid (wrap64 (batch_offset + i));
    p_feats ← vec_set st.1 (wrap64 (fvec_offset + i))
                (FVec.Fill fetched.1 feats);
    Ok (p_feats, fetched.2)) (p_feats, batch).

Definition FVecDrop {V} `{DataView V} (tid : Z) (block_size batch_offset : Z)
    (batch : V) (fvec_offset : Z) (p_feats : list FVec.t)
    : result (list FVec.t * V) :=
  for_range 0 block_size (λ i (st : list FVec.t * V),
    feats ← vec_get st.1 (wrap64 (fvec_offset + i));
    fetched ← view_at st.2 tid (wrap64 (batch_offset + i));
    p_feats ← vec_set st.1 (wrap64 (fvec_offset + i))
                (FVec.Drop fetched.1 feats);
    Ok (p_feats, fetched.2)) (p_feats, batch).

(** The number of blocks, and the first row and the length of a block. *)
Definition n_row_blocks (block_of_rows_size nsize : Z) : Z :=
  wrap32 (nsize / block_of_rows_size
          + (if decide (nsize mod block_of_rows_size = 0) then 0 else 1)).

Definition block_batch_offset (block_of_rows_size block_id : Z) : Z :=
  wrap64 (block_id * block_of_rows_size).

Definition block_block_size (block_of_rows_size nsize block_id : Z) : Z :=
  Z.min (wrap64 (nsize - block_batch_offset block_of_rows_size block_id))
        block_of_rows_size.

Definition PredictBatchByBlockOfRowsKernel {V} `{DataView V}
    (block_of_rows_size : Z) (sched : schedule) (batch : V)
    (out_preds : list bst_float) (model : GBTreeModel RegTree)
    (tree_begin tree_end : Z) (p_thread_temp : list FVec.t)
    : result (list bst_float * list FVec.t) :=
  let num_group := to_int32 (num_output_group (learner_model_param model)) in
  _ ← CHECK (bool_decide (size_leaf_vector model = 0))
        "size_leaf_vector is enforced to 0 so far";
  let nsize := wrap32 (view_Size batch) in
  let num_feature := to_int32 (num_feature (learner_model_param model)) in
  st ← ParallelFor (n_row_blocks block_of_rows_size nsize) sched
    (λ block_id tid (st : list bst_float * list FVec.t * V),
      let batch_offset := block_batch_offset block_of_rows_size block_id in
      let block_size := block_block_size block_of_rows_size nsize block_id in
      let fvec_offset := wrap64 (tid * block_of_rows_size) in
      filled ← FVecFill tid block_size batch_offset num_feature st.2
                 fvec_offset st.1.2;
      preds ← PredictByAllTrees model (wrap64 tree_begin) (wrap64 tree_end)
                st.1.1 (wrap64 (batch_offset + view_base_rowid filled.2))
                (wrap64 num_group) filled.1 fvec_offset block_size;
      dropped ← FVecDrop tid block_size batch_offset filled.2 fvec_offset
                  filled.1;
      Ok (preds, dropped.1, dropped.2))
    (out_preds, p_thread_temp, batch);
  Ok st.1.

(** *** The predictor's entry points *)

Definition InitThreadTemp (nthread num_feature : Z) (out : list FVec.t)
    : list FVec.t :=
  let prev_thread_temp_size := to_int32 (vsize out) in
  if decide (prev_thread_temp_size < nthread)
  then resize (Z.to_nat (wrap64 nthread)) [] out
  else out.

Definition base_margin_warning (model : GBTreeModel RegTree) (info : MetaInfo)
    (n : Z) : warning :=
  let lp := learner_model_param model in
  [LText "Ignoring the base margin, since it has incorrect length. ";
   LText "The base margin must be an array of length "]
  ++ (if decide (num_output_group lp > 1)
      then [LText "[num_class] * [number of data points], i.e. ";
            LNum (num_output_group lp); LText " * "; LNum (num_row_ info);
            LText " = "; LNum n; LText ". "]
      else [LText "[number of data points], i.e. "; LNum (num_row_ info);
            LText ". "])
  ++ [LText "Instead, all data points will use ";
      LText "base_score = "; LFloat (base_score lp)].

Definition InitOutPredictions (info : MetaInfo) (out_preds : list bst_float)
    (model : GBTreeModel RegTree) : result (list bst_float * list warning) :=
  let lp := learner_model_param model in
  _ ← CHECK (bool_decide (num_output_group lp ≠ 0))
        "model.learner_model_param->num_output_group != 0";
  let n := wrap64 (num_output_group lp * num_row_ info) in
  let base_margin := base_margin_ info in
  let out_preds_h := resize (Z.to_nat n) fzero out_preds in
  if decide (vsize base_margin = n) then
    _ ← CHECK (bool_decide (vsize out_preds_h = n)) "out_preds->Size() == n";
    Ok (base_margin ++ drop (length base_margin) out_preds_h, [])
  else
    let log := if decide (base_margin = [])
               then [] else [base_margin_warning model info n] in
    Ok (replicate (length out_preds_h) (base_score lp), log).

Definition DispatchedInplacePredict (threads : Z) (sched : schedule)
    (m : Adapter) (model : GBTreeModel RegTree) (missing : bst_float)
    (tree_begin tree_end : Z) (st : InplaceState)
    : InplaceState * result unit :=
  let lp := learner_model_param model in
  if decide (NumColumns m = num_feature lp) then
    let info := match p_m st with
                | Some i => {| num_row_ := NumRows m;
                               base_margin_ := base_margin_ i |}
                | None => {| num_row_ := NumRows m; base_margin_ := [] |}
                end in
    let st1 := {| predictions := predictions st;
                  p_m := match p_m st with Some _ => Some info | None => None end;
                  warnings := warnings st |} in
    match InitOutPredictions info (predictions st) model with
    | Err e => (st1, Err e)
    | Ok (preds, log) =>
      let st2 := {| predictions := preds; p_m := p_m st1;
                    warnings := warnings st ++ log |} in
      let workspace :=
        replicate (Z.to_nat (wrap64 (NumColumns m * 8 * threads)))
          {| index := 0; fvalue := fzero |} in
      let thread_temp :=
        InitThreadTemp (to_int32 (threads * kBlockOfRowsSize))
          (to_int32 (num_feature lp)) [] in
      match PredictBatchByBlockOfRowsKernel kBlockOfRowsSize sched
              ({| adapter_ := m; missing_ := missing |},
               AdapterView_new threads workspace) preds model
              (to_int32 tree_begin) (to_int32 tree_end) thread_temp with
      | Err e => (st2, Err e)
      | Ok (preds', _) =>
        ({| predictions := preds'; p_m := p_m st2; warnings := warnings st2 |},
         Ok tt)
      end
    end
  else (st, Err (CheckFailed
                   "Number of columns in data must equal to trained model.")).

Definition InplacePredict (threads : Z) (sched : schedule) (x : any)
    (model : GBTreeModel RegTree) (missing : bst_float)
    (tree_begin tree_end : Z) (st : InplaceState)
    : InplaceState * result bool :=
  let dispatched m :=
    match DispatchedInplacePredict threads sched m model missing
            tree_begin tree_end st with
    | (st', Ok _) => (st', Ok true)
    | (st', Err e) => (st', Err e)
    end in
  match x with
  | AnyDenseAdapter m => dispatched m
  | AnyCSRAdapter m => dispatched m
  | AnyArrayAdapter m => dispatched m
  | AnyCSRArrayAdapter m => dispatched m
  | AnyOther _ => (st, Ok false)
  end.

Definition PredictInstance (inst : Inst) (out_preds : list bst_float)
    (model : GBTreeModel RegTree) (ntree_limit : Z) : result (list bst_float) :=
  let lp := learner_model_param model in
  let feat_vecs := FVec.Init (num_feature lp) in
  let ntree_limit := wrap32 (ntree_limit * num_output_group lp) in
  let ntree_limit :=
    if decide (ntree_limit = 0 ∨ ntree_limit > vsize (trees model))
    then wrap32 (vsize (trees model)) else ntree_limit in
  let out_preds :=
    resize (Z.to_nat (wrap32 (num_output_group lp * (size_leaf_vector model + 1))))
           fzero out_preds in
  st ← for_range 0 (num_output_group lp) (λ gid st,
    '(v, fv) ← PredValue inst (trees model) (tree_info model) (to_int32 gid)
                 st.2 0 ntree_limit;
    out ← vec_set st.1 gid (fadd v (base_score lp));
    Ok (out, fv)) (out_preds, feat_vecs);
  Ok st.1.

(** The tree limit as [PredictLeaf] and [PredictContribution] resolve it. *)
Definition valid_trees (model : GBTreeModel RegTree) (ntree_limit : Z) : Z :=
  if decide (ntree_limit = 0 ∨ ntree_limit > vsize (trees model))
  then wrap32 (vsize (trees model)) else ntree_limit.

Definition PredictLeaf (threads : Z) (sched : schedule) (p_fmat : DMatrix)
    (out_preds : list bst_float) (model : GBTreeModel RegTree)
    (ntree_limit : Z) : result (list bst_float) :=
  let nthread := threads in
  let num_feature := to_int32 (num_feature (learner_model_param model)) in
  let feat_vecs := InitThreadTemp nthread num_feature [] in
  let info := Info p_fmat in
  let ntree_limit := valid_trees model ntree_limit in
  let preds := resize (Z.to_nat (wrap64 (num_row_ info * ntree_limit))) fzero
                 out_preds in
  st ← foldM (λ batch st,
    let nsize := wrap32 (vsize (page_rows batch)) in
    ParallelFor nsize sched (λ i tid st,
      let ridx := wrap64 (base_rowid batch + i) in
      feats ← vec_get st.2 tid;
      let feats := if decide (FVec.Size feats = 0)
                   then FVec.Init (wrap64 num_feature) else feats in
      row ← vec_get (page_rows batch) i;
      let feats := FVec.Fill row feats in
      preds ← for_range 0 ntree_limit (λ j preds,
        tree ← vec_get (trees model) j;
        let tid := GetLeafIndex true tree feats in
        vec_set preds (wrap64 (ridx * ntree_limit + j)) (float_of_int tid)) st.1;
      temp ← vec_set st.2 tid (FVec.Drop row feats);
      Ok (preds, temp)) st) (GetBatches p_fmat) (preds, feat_vecs);
  Ok st.1.

Definition PredictContribution (threads : Z) (sched : schedule)
    (p_fmat : DMatrix) (out_contribs : list bst_float)
    (model : GBTreeModel RegTree) (ntree_limit : Z)
    (tree_weights : option (list bst_float)) (approximate : bool)
    (group_indices : option (list Z)) (num_feat_group : Z)
    (condition condition_feature : Z) : result (list bst_float) :=
  let lp := learner_model_param model in
  let nthread := threads in
  let num_feature := to_int32 (num_feature lp) in
  let feat_vecs := InitThreadTemp nthread num_feature [] in
  let info := Info p_fmat in
  let ntree_limit := valid_trees model ntree_limit in
  let ngroup := to_int32 (num_output_group lp) in
  _ ← CHECK (bool_decide (ngroup ≠ 0)) "ngroup != 0";
  let ncolumns :=
    wrap64 (to_int32 ((if group_indices is None then num_feature
                       else num_feat_group) + 1)) in
  _ ← CHECK (bool_decide (ncolumns ≠ 0)) "ncolumns != 0";
  let contribs :=
    resize (Z.to_nat (wrap64 (num_row_ info * ncolumns * num_output_group lp)))
           fzero out_contribs in
  let contribs := replicate (length contribs) fzero in
  let base_margin := base_margin_ info in
  st ← foldM (λ batch st,
    let nsize := wrap32 (vsize (page_rows batch)) in
    ParallelFor nsize sched (λ i tid st,
      let row_idx := wrap64 (base_rowid batch + i) in
      feats ← vec_get st.2 tid;
      let feats := if decide (FVec.Size feats = 0)
                   then FVec.Init (wrap64 num_feature) else feats in
      row ← vec_get (page_rows batch) i;
      st' ← for_range 0 ngroup (λ gid st',
        let p_contribs := wrap64 ((row_idx * ngroup + gid) * ncolumns) in
        _ ← vec_get st'.1 p_contribs;
        let feats := FVec.Fill row st'.2 in
        contribs ← for_range 0 ntree_limit (λ j contribs,
          gi ← vec_get (tree_info model) j;
          if decide (gi ≠ gid) then Ok contribs else
          tree ← vec_get (trees model) j;
          let this_tree_contribs :=
            if approximate then CalculateContributionsApprox tree feats
            else CalculateContributions tree feats group_indices num_feat_group
                   condition condition_feature in
          for_range 0 ncolumns (λ ci contribs,
            w ← (if tree_weights is Some tw then vec_get tw j else Ok fone);
            vec_upd contribs (p_contribs + ci)
              (λ x, fadd x (fmul (this_tree_contribs ci) w))) contribs) st'.1;
        let feats := FVec.Drop row feats in
        contribs ←
          (if decide (vsize base_margin ≠ 0) then
             b ← vec_get base_margin (wrap64 (row_idx * ngroup + gid));
             vec_upd contribs (p_contribs + (ncolumns - 1)) (λ x, fadd x b)
           else
             vec_upd contribs (p_contribs + (ncolumns - 1))
               (λ x, fadd x (base_score lp)));
        Ok (contribs, feats)) (st.1, feats);
      temp ← vec_set st.2 tid st'.2;
      Ok (st'.1, temp)) st) (GetBatches p_fmat) (contribs, feat_vecs);
  Ok st.1.

(** One row of the interaction matrix: the [k] loop of
    [PredictInteractionContributions] for row [j], group [l] and
    conditioning feature [i]. *)
Definition interaction_row (ncolumns i o_offset c_offset : Z)
    (contribs_diag contribs_on contribs_off contribs : list bst_float)
    : result (list bst_float) :=
  contribs ← vec_set contribs (wrap64 (o_offset + i)) fzero;
  for_range 0 (wrap64 (ncolumns + 1)) (λ k contribs,
    if decide (k = i) then
      d ← vec_get contribs_diag (wrap64 (c_offset + k));
      vec_upd contribs (wrap64 (o_offset + i)) (λ x, fadd x d)
    else
      on ← vec_get contribs_on (wrap64 (c_offset + k));
      off ← vec_get contribs_off (wrap64 (c_offset + k));
      contribs ← vec_set contribs (wrap64 (o_offset + k)) (fhalf (fsub on off));
      x ← vec_get contribs (wrap64 (o_offset + k));
      vec_upd contribs (wrap64 (o_offset + i)) (λ y, fsub y x)) contribs.

Definition PredictInteractionContributions (threads : Z) (sched : schedule)
    (p_fmat : DMatrix) (out_contribs : list bst_float)
    (model : GBTreeModel RegTree) (ntree_limit : Z)
    (tree_weights : option (list bst_float)) (approximate : bool)
    (group_indices : option (list Z)) (num_feat_group : Z)
    : result (list bst_float) :=
  let lp := learner_model_param model in
  let info := Info p_fmat in
  let ngroup := to_int32 (num_output_group lp) in
  let ncolumns := wrap64 (if group_indices is None then num_feature lp
                          else wrap32 num_feat_group) in
  let row_chunk := wrap32 (ngroup * (ncolumns + 1) * (ncolumns + 1)) in
  let mrow_chunk := wrap32 ((ncolumns + 1) * (ncolumns + 1)) in
  let crow_chunk := wrap32 (ngroup * (ncolumns + 1)) in
  let contribs :=
    resize (Z.to_nat (wrap64 (num_row_ info * ngroup * (ncolumns + 1)
                              * (ncolumns + 1)))) fzero out_contribs in
  let tmp :=
    replicate (Z.to_nat (wrap64 (num_row_ info * ngroup * (ncolumns + 1))))
              fzero in
  let predict out condition condition_feature :=
    PredictContribution threads sched p_fmat out model ntree_limit
      tree_weights approximate group_indices num_feat_group
      condition condition_feature in
  contribs_diag ← predict tmp 0 0;
  st ← for_range 0 (wrap64 (ncolumns + 1)) (λ i st,
    contribs_off ← predict st.1.2 (-1) (wrap32 i);
    contribs_on ← predict st.2 1 (wrap32 i);
    contribs ← for_range 0 (num_row_ info) (λ j contribs,
      for_range 0 ngroup (λ l contribs,
        let o_offset := wrap32 (j * row_chunk + l * mrow_chunk
                                + i * (ncolumns + 1)) in
        let c_offset := wrap32 (j * crow_chunk + l * (ncolumns + 1)) in
        interaction_row ncolumns i o_offset c_offset
          contribs_diag contribs_on contribs_off contribs) contribs) st.1.1;
    Ok (contribs, contribs_off, contribs_on)) (contribs, tmp, tmp);
  Ok st.1.1.

End Predictor.

(** ** Prediction over a data set *)

Section BatchPredictor.
Context {RegTree : Type} `{TreeOps RegTree}.

(** [PredictDMatrix]: one pool of [threads * kBlockOfRowsSize] vectors for
    the call, and the blocked kernel on every batch, after a check of the
    size of the output. *)
Definition PredictDMatrix (threads : Z) (sched : schedule) (p_fmat : DMatrix)
    (out_preds : list bst_float) (model : GBTreeModel RegTree)
    (tree_begin tree_end : Z) : result (list bst_float) :=
  let lp := learner_model_param model in
  let feat_vecs :=
    InitThreadTemp (to_int32 (threads * kBlockOfRowsSize))
      (to_int32 (num_feature lp)) [] in
  st ← foldM (λ (batch : SparsePage) (st : list bst_float * list FVec.t),
    _ ← CHECK (bool_decide
                 (vsize st.1
                  = wrap64 (num_row_ (Info p_fmat) * num_output_group lp)))
          "out_preds->size() == num_row_ * num_output_group";
    PredictBatchByBlockOfRowsKernel kBlockOfRowsSize sched batch st.1 model
      tree_begin tree_end st.2) (GetBatches p_fmat) (out_preds, feat_vecs);
  Ok st.1.

(** [PredictBatch], on the predictions of the cache entry: a [tree_end] of
    zero stands for all the trees; the bounds, [uint32_t] here, are handed
    on as [int32_t]. *)
Definition PredictBatch (threads : Z) (sched : schedule) (dmat : DMatrix)
    (predts : list bst_float) (model : GBTreeModel RegTree)
    (tree_begin tree_end : Z) : result (list bst_float) :=
  let tree_end := if decide (tree_end = 0) then wrap32 (vsize (trees model))
                  else tree_end in
  PredictDMatrix threads sched dmat predts model
    (to_int32 tree_begin) (to_int32 tree_end).

End BatchPredictor.

(** ** Specification-side definitions *)

Section Specification.
Context {RegTree : Type} `{TreeOps RegTree}.

(** The values [eval] gives for the trees with index in [lo, hi) that are
    assigned to output group [g], in tree order. *)
Definition group_values (eval : RegTree → bst_float)
    (model : GBTreeModel RegTree) (g lo hi : Z) : list bst_float :=
  omap (M := list) (λ t : Z,
    match tree_info model !! Z.to_nat t, trees model !! Z.to_nat t with
    | Some gi, Some tree => if decide (gi = g) then Some (eval tree) else None
    | _, _ => None
    end) (seqZ lo (hi - lo)).

(** The leaf value a tree gives a row in single-row prediction. *)
Definition leaf_value_of (feats : FVec.t) (tree : RegTree) : bst_float :=
  LeafValue tree (GetLeafIndex true tree feats).

(** The leaf value a tree gives a row of [num_feature] features in batch
    prediction: the value of the leaf that [GetLeafIndex] reaches for the
    feature vector of the row, in the variant that handles missing values
    when the vector has one and in the fast one when it has none. *)
Definition row_leaf_value (num_feature : Z) (row : Inst) (tree : RegTree)
    : bst_float :=
  let feats := FVec.Fill row (FVec.Init num_feature) in
  LeafValue tree (GetLeafIndex (FVec.HasMissing feats) tree feats).

(** The trees single-row prediction uses, for a limit [n] on a model with
    [g] output groups and [t] trees. *)
Definition instance_tree_end (n g t : Z) : Z :=
  if decide (n = 0) then t else Z.min (n * g) t.

(** The same when the product and the tree count are taken in the 32 bits
    of the limit: the product modulo 2^32, or the tree count (modulo 2^32)
    when that is zero or more than the tree count. *)
Definition instance_tree_end_mod (n g t : Z) : Z :=
  let limit := (n * g) mod 2 ^ 32 in
  if decide (limit = 0 ∨ t < limit) then t mod 2 ^ 32 else limit.

End Specification.

(** Whether a row has an entry for position [n]. *)
Definition touches (inst : Inst) (n : nat) : bool :=
  existsb (λ e, bool_decide (index e = Z.of_nat n)) inst.



(** The adapter an in-place input of a supported kind holds. *)
Definition adapter_of (x : any) : option Adapter :=
  match x with
  | AnyDenseAdapter m | AnyCSRAdapter m | AnyArrayAdapter m
  | AnyCSRArrayAdapter m => Some m
  | AnyOther _ => None
  end.

(** The rows of block [block_id]: a run of consecutive row numbers. *)
Definition block_rows (block_of_rows_size nsize block_id : Z) : list Z :=
  seqZ (block_batch_offset block_of_rows_size block_id)
       (block_block_size block_of_rows_size nsize block_id).

(** A pool whose vectors are all unused or sized for the model and clean. *)
Definition pool_ok (num_feature : Z) (pool : list FVec.t) : Prop :=
  Forall (λ fv, fv = [] ∨ fv = FVec.Init num_feature) pool.

(** A schedule that takes every index of a loop once, on a worker below
    [threads]. *)
Definition schedule_ok (threads : Z) (sched : schedule) : Prop :=
  ∀ size, (sched size).*1 ≡ₚ seqZ 0 size
          ∧ Forall (λ task, 0 ≤ task.2 < threads) (sched size).

(** The schedule of a single worker that takes the indices in order. *)
Definition in_order : schedule := λ size, (λ i, (i, 0)) <$> seqZ 0 size.

(** A row source that delivers [rows i] as its row [i] to each of
    [threads] workers, whatever has been fetched from it before: there is a
    property of the source that holds at the start, that every fetch keeps
    and under which a fetch returns the row; and no fetch moves the index
    of the first row. *)
Definition delivers {V : Type} `{DataView V} (threads : Z) (batch : V)
    (rows : Z → Inst) : Prop :=
  ∃ inv : V → Prop,
    inv batch
    ∧ ∀ v t i, inv v → 0 ≤ t < threads → 0 ≤ i < view_Size batch →
        ∃ v', view_at v t i = Ok (rows i, v') ∧ inv v'
              ∧ view_base_rowid v' = view_base_rowid v.

(** What the batch kernel expects of its inputs: a model the kernel
    supports, whose trees in the range have a group below the group count;
    a row source of fewer than 2^32 rows that delivers [rows i] as its
    row [i]; a schedule of the blocks on [threads] workers; a pool of at least
    [threads] blocks of vectors, each unused or clean; and an output buffer
    that has the cells of all the rows. *)
Record kernel_ready {RegTree V : Type} `{DataView V} (batch : V)
    (model : GBTreeModel RegTree) (rows : Z → Inst) (sched : schedule)
    (threads tree_begin tree_end : Z) (out : list bst_float)
    (pool : list FVec.t) : Prop := {
  ready_leaf_vector : size_leaf_vector model = 0;
  ready_groups : 0 < num_output_group (learner_model_param model) < 2 ^ 31;
  ready_features : 0 ≤ num_feature (learner_model_param model) < 2 ^ 31;
  ready_size : 0 ≤ view_Size batch < 2 ^ 32;
  ready_base : 0 ≤ view_base_rowid batch;
  ready_rows : delivers threads batch rows;
  ready_range : 0 ≤ tree_begin ≤ tree_end ∧ tree_end < 2 ^ 31;
  ready_trees : tree_end ≤ vsize (trees model)
                ∧ tree_end ≤ vsize (tree_info model);
  ready_info : ∀ t gi, tree_begin ≤ t < tree_end →
                 tree_info model !! Z.to_nat t = Some gi →
                 0 ≤ gi < num_output_group (learner_model_param model);
  ready_threads : schedule_ok threads sched;
  ready_pool : threads * 64 ≤ vsize pool ∧ vsize pool < 2 ^ 64
               ∧ pool_ok (num_feature (learner_model_param model)) pool;
  ready_out : (view_base_rowid batch + view_Size batch)
                * num_output_group (learner_model_param model) ≤ vsize out
              ∧ vsize out < 2 ^ 64
}.

(** A batch whose rows are rows of a data set of [num_row] rows. *)
Definition batch_in_range (num_row : Z) (p : SparsePage) : Prop :=
  0 ≤ base_rowid p
  ∧ base_rowid p + vsize (page_rows p) ≤ num_row
  ∧ vsize (page_rows p) < 2 ^ 32.

(** What the row-parallel entry points expect: a positive number of
    workers and a schedule on them, a feature count that fits
    an [int], and batches within the data set. *)
Record predict_ready {RegTree : Type} (threads : Z) (sched : schedule)
    (p_fmat : DMatrix) (model : GBTreeModel RegTree) : Prop := {
  pr_threads : 0 < threads < 2 ^ 31;
  pr_sched : schedule_ok threads sched;
  pr_features : 0 ≤ num_feature (learner_model_param model) < 2 ^ 31;
  pr_rows : 0 ≤ num_row_ (Info p_fmat) < 2 ^ 64;
  pr_batches : Forall (batch_in_range (num_row_ (Info p_fmat))) (GetBatches p_fmat)
}.

(** The number of attributed features: all of them, or the number of
    feature groups when groups are given. *)
Definition selected_features {RegTree : Type} (model : GBTreeModel RegTree)
    (group_indices : option (list Z)) (num_feat_group : Z) : Z :=
  if group_indices is None then num_feature (learner_model_param model)
  else num_feat_group.

(** What contribution prediction expects on top of [predict_ready]: a
    positive group count and a column count that fit an [int], a group for
    every tree, a weight for every tree used when weights are given, a base
    margin that is absent or covers every (row, group), and an output that
    fits [size_t]. *)
Record contribution_ready {RegTree : Type} (threads : Z) (sched : schedule)
    (p_fmat : DMatrix) (model : GBTreeModel RegTree) (ntree_limit : Z)
    (tree_weights : option (list bst_float)) (group_indices : option (list Z))
    (num_feat_group : Z) : Prop := {
  cr_predict : predict_ready threads sched p_fmat model;
  cr_limit : 0 ≤ ntree_limit < 2 ^ 32;
  cr_groups : 0 < num_output_group (learner_model_param model) < 2 ^ 31;
  cr_columns : 0 ≤ selected_features model group_indices num_feat_group
               ∧ selected_features model group_indices num_feat_group + 1 < 2 ^ 31;
  cr_trees : vsize (trees model) < 2 ^ 32
             ∧ vsize (trees model) ≤ vsize (tree_info model);
  cr_weights : ∀ tw, tree_weights = Some tw →
                 valid_trees model ntree_limit ≤ vsize tw;
  cr_margin : base_margin_ (Info p_fmat) = []
              ∨ num_row_ (Info p_fmat)
                  * num_output_group (learner_model_param model)
                ≤ vsize (base_margin_ (Info p_fmat));
  cr_size : num_row_ (Info p_fmat)
              * (selected_features model group_indices num_feat_group + 1)
              * num_output_group (learner_model_param model) < 2 ^ 64
}.

(** [v[z]], or zero outside [v]. *)
Definition vec_at (v : list bst_float) (z : Z) : bst_float :=
  default fzero (v !! Z.to_nat z).

(** Where the interaction value of row [j], group [l], conditioning feature
    [i] and feature [k] is stored, for [G] groups and [N] slots. *)
Definition matrix_cell (G N j l i k : Z) : Z :=
  ((j * G + l) * N + i) * N + k.

(** The off-diagonal interaction value for slot [k], from the attribution
    vectors with the conditioning feature on and off; [c] is where the
    (row, group) starts in them. *)
Definition interaction_value (on off : list bst_float) (c k : Z) : bst_float :=
  fhalf (fsub (vec_at on (c + k)) (vec_at off (c + k))).

(** The diagonal value of row [i] of the matrix: going through the slots
    in index order from zero, the baseline [d] is added at slot [i] and the
    off-diagonal value of every other slot is subtracted. *)
Definition diagonal_step (d : bst_float) (inter : Z → bst_float) (i : Z)
    (acc : bst_float) (k : Z) : bst_float :=
  if decide (k = i) then fadd acc d else fsub acc (inter k).

Definition diagonal_value (d : bst_float) (inter : Z → bst_float) (i N : Z)
    : bst_float :=
  foldl (diagonal_step d inter i) fzero (seqZ 0 N).

(** The accumulation of the diagonal is exact when no step of it rounds:
    every partial result is finite and its exact value is the exact sum or
    difference of the operands. *)
Fixpoint exact_steps (d : bst_float) (inter : Z → bst_float) (i : Z)
    (ks : list Z) (acc : bst_float) : Prop :=
  match ks with
  | [] => True
  | k :: ks' =>
    let acc' := diagonal_step d inter i acc k in
    is_finite acc' = true
    ∧ units acc' = (if decide (k = i) then units acc + units d
                    else units acc - units (inter k))
    ∧ exact_steps d inter i ks' acc'
  end.

Definition exact_diagonal (d : bst_float) (inter : Z → bst_float) (i N : Z)
    : Prop :=
  exact_steps d inter i (seqZ 0 N) fzero.

(** The results the accumulation of a diagonal cell goes through, one for
    each slot of [ks], from the value [acc]. *)
Fixpoint partial_results (d : bst_float) (inter : Z → bst_float) (i : Z)
    (ks : list Z) (acc : bst_float) : list bst_float :=
  match ks with
  | [] => []
  | k :: ks' =>
    let acc' := diagonal_step d inter i acc k in
    acc' :: partial_results d inter i ks' acc'
  end.

Definition diagonal_partials (d : bst_float) (inter : Z → bst_float) (i N : Z)
    : list bst_float :=
  partial_results d inter i (seqZ 0 N) fzero.

(** The sum of the magnitudes of a list of numbers, in units of 2^-149. *)
Definition magnitude (xs : list bst_float) : Z :=
  foldr Z.add 0 ((λ x, Z.abs (units x)) <$> xs).

(** A number whose exponent, when it is finite, is one of binary32: at
    least -149, so that [units] is its exact value. *)
Definition in_range (x : bst_float) : Prop :=
  match x with
  | S754_finite _ _ e => -149 ≤ e
  | _ => True
  end.

(** What [k] shifts to the right leave of a mantissa [M]: the quotient,
    and two bits that tell where the remainder lies. *)
Definition shifted (M k : Z) (r : shr_record) : Prop :=
  let rem := M - shr_m r * 2 ^ k in
  0 ≤ shr_m r ∧ 0 ≤ rem < 2 ^ k
  ∧ (shr_r r = false → 2 * rem < 2 ^ k)
  ∧ (shr_r r = true → 2 ^ k ≤ 2 * rem)
  ∧ (shr_s r = false → shr_r r = false → rem = 0)
  ∧ (shr_s r = false → shr_r r = true → 2 * rem = 2 ^ k).

(** How often [i] occurs in a list of slots, and the exact sum of the
    off-diagonal values of the other slots. *)
Definition occurrences (i : Z) (ks : list Z) : Z :=
  foldr Z.add 0 ((λ k, if decide (k = i) then 1 else 0) <$> ks).

Definition others_units (inter : Z → bst_float) (i : Z) (ks : list Z) : Z :=
  foldr Z.add 0 ((λ k, if decide (k = i) then 0 else units (inter k)) <$> ks).

(** The sum of [f k] for [k] in [0, N). *)
Definition sum_over (f : Z → Z) (N : Z) : Z :=
  foldr Z.add 0 (f <$> seqZ 0 N).

(** The exact sum of the [N] cells of [v] from [o] on, in units of 2^-149. *)
Definition sum_units (v : list bst_float) (o N : Z) : Z :=
  sum_over (λ k, units (vec_at v (o + k))) N.

Section ContributionPasses.
Context {RegTree : Type} `{TreeOps RegTree}.

(** What a contribution pass returns (nothing if it fails). *)
Definition contribution_pass (threads : Z) (sched : schedule)
    (p_fmat : DMatrix) (model : GBTreeModel RegTree) (ntree_limit : Z)
    (tree_weights : option (list bst_float)) (approximate : bool)
    (group_indices : option (list Z)) (num_feat_group : Z)
    (condition condition_feature : Z) : list bst_float :=
  match PredictContribution threads sched p_fmat [] model ntree_limit
          tree_weights approximate group_indices num_feat_group
          condition condition_feature with
  | Ok contribs => contribs
  | Err _ => []
  end.

End ContributionPasses.

(** What interaction prediction expects: inputs fit for the contribution
    passes, and an interaction matrix whose cells can be counted in the 32
    bits of the offsets. *)
Record interaction_ready {RegTree : Type} (threads : Z) (sched : schedule)
    (p_fmat : DMatrix) (model : GBTreeModel RegTree) (ntree_limit : Z)
    (tree_weights : option (list bst_float)) (group_indices : option (list Z))
    (num_feat_group : Z) : Prop := {
  ir_contribution :
    contribution_ready threads sched p_fmat model ntree_limit tree_weights
      group_indices num_feat_group;
  ir_offsets :
    num_row_ (Info p_fmat) * num_output_group (learner_model_param model)
      * (selected_features model group_indices num_feat_group + 1)
      * (selected_features model group_indices num_feat_group + 1) < 2 ^ 32
}.
(** ** Specification-side definitions for prediction over a data set *)

(** Row [i] of a batch (the empty row outside the batch). *)
Definition page_row (p : SparsePage) (i : Z) : Inst :=
  default [] (page_rows p !! Z.to_nat i).

(** The output cells of the rows of a batch, for [G] output groups. *)
Definition batch_cells (G : Z) (p : SparsePage) (k : Z) : Prop :=
  base_rowid p * G ≤ k < (base_rowid p + vsize (page_rows p)) * G.

#[global] Instance batch_cells_dec G p k : Decision (batch_cells G p k).
Proof. unfold batch_cells. apply _. Defined.

(** Batches no two of which share a row. *)
Definition batches_disjoint (batches : list SparsePage) : Prop :=
  ∀ (a b : nat) pa pb,
    batches !! a = Some pa → batches !! b = Some pb → a ≠ b →
    base_rowid pa + vsize (page_rows pa) ≤ base_rowid pb
    ∨ base_rowid pb + vsize (page_rows pb) ≤ base_rowid pa.

Section BatchSpecification.
Context {RegTree : Type} `{TreeOps RegTree}.

(** What the trees of [tree_begin, tree_end) assigned to group [g] make of
    a cell that held [x], for a row: their leaf values for the row added to
    [x] one after the other in tree order. *)
Definition margin_sum (model : GBTreeModel RegTree) (g tree_begin tree_end : Z)
    (row : Inst) (x : bst_float) : bst_float :=
  foldl fadd x
    (group_values
       (row_leaf_value (num_feature (learner_model_param model)) row)
       model g tree_begin tree_end).

(** The end of the tree range [PredictBatch] uses. *)
Definition batch_tree_end (model : GBTreeModel RegTree) (tree_end : Z) : Z :=
  if decide (tree_end = 0) then vsize (trees model) else tree_end.

End BatchSpecification.

(** What prediction over a data set expects: workers whose pool of
    [threads * 64] vectors can be counted in an [int], a schedule on them,
    a model the kernel supports, an output buffer of one cell for each row
    and group, batches of disjoint rows within the data set, and a tree
    range within the model whose trees have a group below the group
    count. *)
Record batch_ready {RegTree : Type} (threads : Z) (sched : schedule)
    (p_fmat : DMatrix) (model : GBTreeModel RegTree) (tree_begin tree_end : Z)
    (out : list bst_float) : Prop := {
  br_threads : 0 < threads ∧ threads * 64 < 2 ^ 31;
  br_sched : schedule_ok threads sched;
  br_leaf_vector : size_leaf_vector model = 0;
  br_groups : 0 < num_output_group (learner_model_param model) < 2 ^ 31;
  br_features : 0 ≤ num_feature (learner_model_param model) < 2 ^ 31;
  br_rows : 0 ≤ num_row_ (Info p_fmat)
            ∧ num_row_ (Info p_fmat)
                * num_output_group (learner_model_param model) < 2 ^ 64;
  br_out : vsize out
           = num_row_ (Info p_fmat) * num_output_group (learner_model_param model);
  br_batches : Forall (batch_in_range (num_row_ (Info p_fmat))) (GetBatches p_fmat);
  br_disjoint : batches_disjoint (GetBatches p_fmat);
  br_range : 0 ≤ tree_begin ≤ tree_end ∧ tree_end < 2 ^ 31;
  br_trees : tree_end ≤ vsize (trees model) ∧ tree_end ≤ vsize (tree_info model);
  br_info : ∀ t gi, tree_begin ≤ t < tree_end →
              tree_info model !! Z.to_nat t = Some gi →
              0 ≤ gi < num_output_group (learner_model_param model)
}.

(** ** Specification-side definitions for the adapter's workspace *)

(** What [AdapterView::operator[]] makes of an element of a row: nothing
    when its value is the missing sentinel or NaN. *)
Definition adapter_entry (missing : bst_float) (e : COOTuple) : option Entry :=
  if negb (SFeqb missing (value e)) && negb (CheckNAN (value e))
  then Some {| index := wrap32 (column_idx e); fvalue := value e |}
  else None.

(** The entries of a row that the view keeps. *)
Definition adapter_row (v : AdapterView) (row : list COOTuple) : Inst :=
  omap (M := list) (adapter_entry (missing_ v)) row.

(** The slot the counter of a thread moves to after [cu]. *)
Definition next_unroll (kUnroll cu : Z) : Z :=
  if decide (cu + 1 = kUnroll) then 0 else cu + 1.

(** A workspace of [kUnroll] slots of [columns] entries for each of
    [threads] threads, with a counter below [kUnroll] for each thread. *)
Definition scratch_ok (kUnroll columns threads : Z) (st : AdapterScratch)
    : Prop :=
  vsize (current_unroll_ st) = threads
  ∧ Forall (λ cu, 0 ≤ cu < kUnroll) (current_unroll_ st)
  ∧ vsize (workspace_ st) = columns * kUnroll * threads.

(** An adapter none of whose rows keeps more entries than it has
    columns. *)
Definition rows_fit (v : AdapterView) : Prop :=
  Forall (λ row, vsize (adapter_row v row) ≤ NumColumns (adapter_ v))
    (GetLine (adapter_ v)).

(** Rows fetched one after the other, each by a thread: the pairs are
    (thread, row). *)
Definition fetch_rows (kUnroll : Z) (v : AdapterView) (calls : list (Z * Z))
    (st : AdapterScratch) : result AdapterScratch :=
  foldM (λ (call : Z * Z) st,
    r ← AdapterView_index kUnroll v call.1 call.2 st; Ok r.2) calls st.

(** How many of the fetches thread [t] makes. *)
Definition fetches_of (t : Z) (calls : list (Z * Z)) : Z :=
  vsize (filter (λ call : Z * Z, call.1 = t) calls).

(** How many slots the counter [c] is ahead of the slot [cu], going round
    the [kUnroll] slots of a thread: between 1 and [kUnroll]. *)
Definition slots_ahead (kUnroll cu c : Z) : Z :=
  if decide (cu < c) then c - cu else c - cu + kUnroll.

(** A fetch by a thread of the view, of a row of the adapter. *)
Definition fetch_ok (threads : Z) (v : AdapterView) (call : Z * Z) : Prop :=
  0 ≤ call.1 < threads ∧ 0 ≤ call.2 < vsize (GetLine (adapter_ v)).

(** ** Specification-side definitions for the entry points *)

Section EntrySpecification.
Context {RegTree : Type} `{TreeOps RegTree}.

(** The predictions before any tree is added, and the warning logged with
    them: the base margin when it has one entry for each row and group,
    the base score everywhere otherwise. *)
Definition initial_predictions (model : GBTreeModel RegTree) (info : MetaInfo)
    : list bst_float * list warning :=
  let lp := learner_model_param model in
  let n := wrap64 (num_output_group lp * num_row_ info) in
  if decide (vsize (base_margin_ info) = n) then (base_margin_ info, [])
  else (replicate (Z.to_nat n) (base_score lp),
        if decide (base_margin_ info = []) then []
        else [base_margin_warning model info n]).

End EntrySpecification.

(** The view in-place prediction hands to the kernel: a fresh workspace of
    eight slots of [NumColumns] entries for each thread. *)
Definition inplace_view (threads : Z) (m : Adapter) (missing : bst_float)
    : AdapterView * AdapterScratch :=
  ({| adapter_ := m; missing_ := missing |},
   AdapterView_new threads
     (replicate (Z.to_nat (wrap64 (NumColumns m * 8 * threads)))
        {| index := 0; fvalue := fzero |})).

(** The [MetaInfo] in-place prediction works with: the rows of the adapter,
    and the base margin of the proxy matrix when there is one. *)
Definition inplace_info (m : Adapter) (proxy : option MetaInfo) : MetaInfo :=
  {| num_row_ := NumRows m;
     base_margin_ := if proxy is Some i then base_margin_ i else [] |}.

(** What in-place prediction expects on top of matching columns: workers
    whose pool can be counted in an [int] and a schedule on them, a model
    the kernel supports, an adapter of fewer than 2^32 rows that holds
    them all, none of which keeps more entries than the adapter has
    columns, and a tree range within the model whose trees have a group
    below the group count. *)
Record inplace_ready {RegTree : Type} (threads : Z) (sched : schedule)
    (m : Adapter) (missing : bst_float) (model : GBTreeModel RegTree)
    (tree_begin tree_end : Z) : Prop := {
  ip_columns : NumColumns m = num_feature (learner_model_param model);
  ip_fit : rows_fit {| adapter_ := m; missing_ := missing |};
  ip_threads : 0 < threads ∧ threads * 64 < 2 ^ 31;
  ip_sched : schedule_ok threads sched;
  ip_leaf_vector : size_leaf_vector model = 0;
  ip_groups : 0 < num_output_group (learner_model_param model) < 2 ^ 31;
  ip_features : 0 ≤ num_feature (learner_model_param model) < 2 ^ 31;
  ip_rows : 0 ≤ NumRows m < 2 ^ 32 ∧ NumRows m ≤ vsize (GetLine m);
  ip_range : 0 ≤ tree_begin ≤ tree_end ∧ tree_end < 2 ^ 31;
  ip_trees : tree_end ≤ vsize (trees model) ∧ tree_end ≤ vsize (tree_info model);
  ip_info : ∀ t gi, tree_begin ≤ t < tree_end →
              tree_info model !! Z.to_nat t = Some gi →
              0 ≤ gi < num_output_group (learner_model_param model)
}.

(** ** Specification-side definitions for leaf and contribution prediction *)

Section RowSpecification.
Context {RegTree : Type} `{TreeOps RegTree}.

(** What leaf-index prediction writes for a row and tree [j]: the index of
    the leaf the row reaches in the tree, as a float. *)
Definition leaf_cell (model : GBTreeModel RegTree) (row : Inst) (j : Z)
    : bst_float :=
  match trees model !! Z.to_nat j with
  | Some tree =>
    float_of_int
      (GetLeafIndex true tree
         (FVec.Fill row (FVec.Init (num_feature (learner_model_param model)))))
  | None => fzero
  end.

(** The attribution a tree gives slot [ci] for a filled feature vector,
    exact or approximate. *)
Definition tree_contribution (approximate : bool)
    (group_indices : option (list Z)) (num_feat_group : Z)
    (condition condition_feature : Z) (feats : FVec.t) (tree : RegTree)
    (ci : Z) : bst_float :=
  if approximate then CalculateContributionsApprox tree feats ci
  else CalculateContributions tree feats group_indices num_feat_group
         condition condition_feature ci.

(** The weight of tree [j]: one when no weights are given. *)
Definition tree_weight (tree_weights : option (list bst_float)) (j : Z)
    : bst_float :=
  if tree_weights is Some tw then default fone (tw !! Z.to_nat j) else fone.

(** What tree [j] adds to a slot of group [g]: its weighted attribution
    when it is assigned to [g], nothing otherwise. *)
Definition contribution_step (model : GBTreeModel RegTree)
    (contrib : RegTree → bst_float) (weight : Z → bst_float) (g : Z)
    (acc : bst_float) (j : Z) : bst_float :=
  match tree_info model !! Z.to_nat j, trees model !! Z.to_nat j with
  | Some gi, Some tree =>
    if decide (gi = g) then fadd acc (fmul (contrib tree) (weight j)) else acc
  | _, _ => acc
  end.

(** The trees below [L] added to a slot that held [x], in tree order. *)
Definition contribution_sum (model : GBTreeModel RegTree)
    (contrib : RegTree → bst_float) (weight : Z → bst_float) (g L : Z)
    (x : bst_float) : bst_float :=
  foldl (contribution_step model contrib weight g) x (seqZ 0 L).

(** What is added to the bias slot of row [r] and group [g]: the entry of
    the base margin whenever the margin is not empty, the base score
    otherwise. *)
Definition bias_term (model : GBTreeModel RegTree) (info : MetaInfo)
    (r g : Z) : bst_float :=
  if decide (vsize (base_margin_ info) ≠ 0)
  then default fzero
         (base_margin_ info
            !! Z.to_nat (r * num_output_group (learner_model_param model) + g))
  else base_score (learner_model_param model).

(** The attribution of slot [k] of group [g] for row [r] of the data set,
    from a slot that held [x]. *)
Definition contribution_cell (model : GBTreeModel RegTree) (info : MetaInfo)
    (ntree_limit : Z) (tree_weights : option (list bst_float))
    (approximate : bool) (group_indices : option (list Z))
    (num_feat_group condition condition_feature : Z) (row : Inst)
    (r g k : Z) (x : bst_float) : bst_float :=
  let feats :=
    FVec.Fill row (FVec.Init (num_feature (learner_model_param model))) in
  let acc :=
    contribution_sum model
      (λ tree, tree_contribution approximate group_indices num_feat_group
                 condition condition_feature feats tree k)
      (tree_weight tree_weights) g (valid_trees model ntree_limit) x in
  if decide (k = selected_features model group_indices num_feat_group)
  then fadd acc (bias_term model info r g) else acc.

End RowSpecification.


(** ** Concrete inputs *)

(** The binary32 number nearest to [m * 2^e]. *)
Definition f32 (m e : Z) : bst_float := binary_normalize 24 128 m e false.

(** A tree that is a single leaf: every row reaches node 0.  Its
    attributions are given as a table, by condition, conditioning feature
    and slot. *)
Record Stump : Type := {
  stump_value : bst_float;
  stump_contribs : Z → Z → Z → bst_float
}.

#[global] Instance Stump_TreeOps : TreeOps Stump := {|
  GetLeafIndex _ _ _ := 0;
  LeafValue t _ := stump_value t;
  CalculateContributions t _ _ _ condition condition_feature ci :=
    stump_contribs t condition condition_feature ci;
  CalculateContributionsApprox t _ ci := stump_contribs t 0 0 ci
|}.

Definition stump (v : bst_float) : Stump :=
  {| stump_value := v; stump_contribs := λ _ _ _, fzero |}.

(** Three trees of one output group over two features; base score 0.5. *)
Definition ex_model : GBTreeModel Stump := {|
  learner_model_param :=
    {| base_score := f32 1 (-1); num_feature := 2; num_output_group := 1 |};
  size_leaf_vector := 0;
  trees := [stump (f32 3 (-1)); stump (f32 (-1) (-1)); stump (f32 2 0)];
  tree_info := [0; 0; 0]
|}.

Definition ex_row : Inst := [{| index := 0; fvalue := f32 3 0 |}].

(** Four trees in two output groups, assigned in turn: leaf values 1.5 and
    2 in group 0, -0.5 and 4 in group 1; base score 0.5. *)
Definition ex_two_groups : GBTreeModel Stump := {|
  learner_model_param :=
    {| base_score := f32 1 (-1); num_feature := 2; num_output_group := 2 |};
  size_leaf_vector := 0;
  trees := [stump (f32 3 (-1)); stump (f32 (-1) (-1)); stump (f32 2 0);
            stump (f32 4 0)];
  tree_info := [0; 1; 0; 1]
|}.

(** A dense input of two rows and [columns] columns. *)
Definition ex_adapter (columns : Z) : Adapter := {|
  NumRows := 2;
  NumColumns := columns;
  GetLine := [[{| column_idx := 0; value := f32 1 0 |};
               {| column_idx := 1; value := S754_nan |}];
              [{| column_idx := 0; value := f32 5 0 |};
               {| column_idx := 1; value := f32 7 0 |}]]
|}.

Definition ex_state : InplaceState :=
  {| predictions := []; p_m := None; warnings := [] |}.

(** Three rows and a base margin one entry short. *)
Definition ex_info : MetaInfo :=
  {| num_row_ := 3; base_margin_ := [f32 1 0; f32 2 0] |}.

(** A batch of three rows, the first of the data set. *)
Definition ex_page : SparsePage := {|
  base_rowid := 0;
  page_rows := [ex_row; []; [{| index := 1; fvalue := f32 1 0 |}]]
|}.

Definition ex_rows (i : Z) : Inst := nth (Z.to_nat i) (page_rows ex_page) [].

(** The pool of one worker, as [InitThreadTemp] makes it. *)
Definition ex_pool : list FVec.t := InitThreadTemp 64 2 [].

(** An output buffer of three cells, initialised to the base score. *)
Definition ex_out : list bst_float := replicate 3 (f32 1 (-1)).

(** The data set of the three rows of [ex_page], without base margin. *)
Definition ex_dmat : DMatrix := {|
  Info := {| num_row_ := 3; base_margin_ := [] |};
  GetBatches := [ex_page]
|}.

(** A tree whose attributions are small integers: 3, 1 and 2 without
    conditioning, 4 in every slot with the conditioning feature on and 2
    with it off. *)
Definition ex_integer_tree : Stump := {|
  stump_value := f32 1 0;
  stump_contribs condition _ ci :=
    if decide (condition = 0)
    then (if decide (ci = 0) then f32 3 0
          else if decide (ci = 1) then f32 1 0 else f32 2 0)
    else if decide (condition = 1) then f32 4 0 else f32 2 0
|}.

Definition ex_integer_model : GBTreeModel Stump := {|
  learner_model_param :=
    {| base_score := f32 1 (-1); num_feature := 2; num_output_group := 1 |};
  size_leaf_vector := 0;
  trees := [ex_integer_tree];
  tree_info := [0]
|}.

(** A tree over one feature that attributes 0.1 (the nearest binary32
    number, 13421773 * 2^-27) to it; conditioning on the feature moves
    the bias by 2 when on and by 0 when off. *)
Definition ex_rounding_tree : Stump := {|
  stump_value := f32 1 0;
  stump_contribs condition _ ci :=
    if decide (condition = 0)
    then (if decide (ci = 0) then f32 13421773 (-27) else fzero)
    else if decide (condition = 1 ∧ ci = 1) then f32 2 0 else fzero
|}.

Definition ex_rounding_model : GBTreeModel Stump := {|
  learner_model_param :=
    {| base_score := f32 1 (-1); num_feature := 1; num_output_group := 1 |};
  size_leaf_vector := 0;
  trees := [ex_rounding_tree];
  tree_info := [0]
|}.

(** A tree over two features that attributes 1 to the first; with the
    first feature on, it moves 2^31 from the bias to the second. *)
Definition ex_cancelling_tree : Stump := {|
  stump_value := f32 1 0;
  stump_contribs condition condition_feature ci :=
    if decide (condition = 0)
    then (if decide (ci = 0) then f32 1 0 else fzero)
    else if decide (condition = 1 ∧ condition_feature = 0)
         then (if decide (ci = 1) then f32 1 31
               else if decide (ci = 2) then f32 (-1) 31 else fzero)
         else fzero
|}.

Definition ex_cancelling_model : GBTreeModel Stump := {|
  learner_model_param :=
    {| base_score := f32 1 (-1); num_feature := 2; num_output_group := 1 |};
  size_leaf_vector := 0;
  trees := [ex_cancelling_tree];
  tree_info := [0]
|}.

(** One row, the first feature present. *)
Definition ex_one_row : DMatrix := {|
  Info := {| num_row_ := 1; base_margin_ := [] |};
  GetBatches := [{| base_rowid := 0; page_rows := [ex_row] |}]
|}.

(** One row with a base margin of two entries, and two rows with a base
    margin of one entry. *)
Definition ex_long_margin : DMatrix := {|
  Info := {| num_row_ := 1; base_margin_ := [f32 5 0; f32 7 0] |};
  GetBatches := [{| base_rowid := 0; page_rows := [ex_row] |}]
|}.

Definition ex_short_margin : DMatrix := {|
  Info := {| num_row_ := 2; base_margin_ := [f32 5 0] |};
  GetBatches := [{| base_rowid := 0; page_rows := [ex_row; ex_row] |}]
|}.
(** The three rows of [ex_page] in two batches. *)
Definition ex_split : DMatrix := {|
  Info := {| num_row_ := 3; base_margin_ := [] |};
  GetBatches :=
    [{| base_rowid := 0; page_rows := [ex_row; []] |};
     {| base_rowid := 2;
        page_rows := [[{| index := 1; fvalue := f32 1 0 |}]] |}]
|}.

(** The schedule of two workers in which the second one takes every task,
    the last task first. *)
Definition ex_backwards : schedule :=
  λ size, (λ i, (i, 1)) <$> reverse (seqZ 0 size).

(** The view of the dense input of two columns with NaN for missing, and a
    workspace of eight slots of two entries for one thread. *)
Definition ex_view : AdapterView :=
  {| adapter_ := ex_adapter 2; missing_ := S754_nan |}.

Definition ex_scratch : AdapterScratch :=
  AdapterView_new 1 (replicate 16 {| index := 0; fvalue := fzero |}).

(** The example model with a leaf vector, which the kernel refuses. *)
Definition ex_leaf_vector_model : GBTreeModel Stump := {|
  learner_model_param := learner_model_param ex_model;
  size_leaf_vector := 1;
  trees := trees ex_model;
  tree_info := tree_info ex_model
|}.

(** A model of 65535 features without trees, and two rows for it: an
    interaction matrix of 2^33 cells. *)
Definition ex_wide_model : GBTreeModel Stump := {|
  learner_model_param :=
    {| base_score := f32 1 (-1); num_feature := 65535; num_output_group := 1 |};
  size_leaf_vector := 0;
  trees := [];
  tree_info := []
|}.

Definition ex_two_rows : DMatrix := {|
  Info := {| num_row_ := 2; base_margin_ := [] |};
  GetBatches := [{| base_rowid := 0; page_rows := [ex_row; []] |}]
|}.

(** A buffer of 2^33 cells that hold 7, left by an earlier call. *)
Definition ex_stale : list bst_float := replicate (Z.to_nat (2 ^ 33)) (f32 7 0).

(** The workspace with the counter of its thread on the last slot, and a
    dense input of two columns whose row holds three elements. *)
Definition ex_last_slot : AdapterScratch :=
  {| workspace_ := replicate 16 {| index := 0; fvalue := fzero |};
     current_unroll_ := [7] |}.

Definition ex_wide_view : AdapterView := {|
  adapter_ := {| NumRows := 1; NumColumns := 2;
                 GetLine := [[{| column_idx := 0; value := f32 1 0 |};
                              {| column_idx := 1; value := f32 2 0 |};
                              {| column_idx := 1; value := f32 3 0 |}]] |};
  missing_ := S754_nan
|}.

(** ** Basic facts *)

Lemma wrap32_small z : 0 ≤ z < 2 ^ 32 → wrap32 z = z.
Proof. intros. unfold wrap32. by apply Z.mod_small. Qed.

Lemma wrap64_small z : 0 ≤ z < 2 ^ 64 → wrap64 z = z.
Proof. intros. unfold wrap64. by apply Z.mod_small. Qed.

Lemma to_int32_small z : - 2 ^ 31 ≤ z < 2 ^ 31 → to_int32 z = z.
Proof. intros. unfold to_int32. rewrite Z.mod_small; lia. Qed.

Lemma wrap32_range z : 0 ≤ wrap32 z < 2 ^ 32.
Proof. unfold wrap32. apply Z.mod_pos_bound. lia. Qed.

Lemma wrap64_range z : 0 ≤ wrap64 z < 2 ^ 64.
Proof. unfold wrap64. apply Z.mod_pos_bound. lia. Qed.

Lemma bind_Ok {A B} (a : A) (f : A → result B) : (Ok a ≫= f) = f a.
Proof. reflexivity. Qed.

Lemma bind_Err {A B} (e : error) (f : A → result B) : (Err e ≫= f) = Err e.
Proof. reflexivity. Qed.

Lemma bind_Ok_inv {A B} (m : result A) (f : A → result B) (b : B) :
  (m ≫= f) = Ok b → ∃ a, m = Ok a ∧ f a = Ok b.
Proof. destruct m as [a|e]; [eauto | discriminate]. Qed.

Lemma vec_get_Ok {A} (v : list A) (i : Z) (x : A) :
  0 ≤ i → v !! Z.to_nat i = Some x → vec_get v i = Ok x.
Proof. intros Hi Hx. unfold vec_get. rewrite decide_True by done. by rewrite Hx. Qed.


Lemma vec_get_in_range {A} (v : list A) (i : Z) :
  0 ≤ i < vsize v → ∃ x, vec_get v i = Ok x ∧ v !! Z.to_nat i = Some x.
Proof.
  unfold vsize. intros Hi.
  destruct (lookup_lt_is_Some_2 v (Z.to_nat i)) as [x Hx]; [lia|].
  exists x. split; [apply vec_get_Ok; [lia | done] | done].
Qed.

Lemma vec_set_Ok {A} (v : list A) (i : Z) (x : A) :
  0 ≤ i < vsize v → vec_set v i x = Ok (<[Z.to_nat i := x]> v).
Proof. intros. unfold vec_set. by rewrite decide_True. Qed.

Lemma vec_set_Ok_inv {A} (v v' : list A) (i : Z) (x : A) :
  vec_set v i x = Ok v' → 0 ≤ i < vsize v ∧ v' = <[Z.to_nat i := x]> v.
Proof. unfold vec_set. case_decide; [|discriminate]. by intros [= <-]. Qed.

Lemma vec_upd_Ok {A} (v : list A) (i : Z) (f : A → A) (x : A) :
  0 ≤ i → v !! Z.to_nat i = Some x →
  vec_upd v i f = Ok (<[Z.to_nat i := f x]> v).
Proof.
  intros Hi Hx. unfold vec_upd. rewrite (vec_get_Ok _ _ x) by done.
  rewrite bind_Ok. apply vec_set_Ok. apply lookup_lt_Some in Hx.
  unfold vsize. lia.
Qed.

Lemma vsize_insert {A} (v : list A) (n : nat) (x : A) :
  vsize (<[n := x]> v) = vsize v.
Proof. unfold vsize. by rewrite length_insert. Qed.

Lemma vsize_nonneg {A} (v : list A) : 0 ≤ vsize v.
Proof. unfold vsize. lia. Qed.

(** Loops: an invariant indexed by the loop counter. *)
Lemma for_range_inv {S} (P : Z → S → Prop) (lo hi : Z)
    (body : Z → S → result S) (s : S) :
  lo ≤ hi → P lo s →
  (∀ i s, lo ≤ i < hi → P i s → ∃ s', body i s = Ok s' ∧ P (i + 1) s') →
  ∃ s', for_range lo hi body s = Ok s' ∧ P hi s'.
Proof.
  intros Hle HP Hstep. unfold for_range.
  remember (Z.to_nat (hi - lo)) as n eqn:Hn.
  revert lo s Hle HP Hstep Hn. induction n as [|n IH]; intros lo s Hle HP Hstep Hn.
  - assert (hi = lo) as -> by lia. rewrite Z.sub_diag. simpl. eauto.
  - assert (lo < hi) by lia.
    rewrite seqZ_cons by lia. simpl.
    destruct (Hstep lo s) as (s1 & -> & HP1); [lia | done |].
    rewrite bind_Ok. replace (Z.pred (hi - lo)) with (hi - Z.succ lo) by lia.
    replace (Z.succ lo) with (lo + 1) in * by lia.
    apply IH; [lia | done | | lia].
    intros i s' Hi. apply Hstep. lia.
Qed.

Lemma for_range_empty {S} (lo hi : Z) (body : Z → S → result S) (s : S) :
  hi ≤ lo → for_range lo hi body s = Ok s.
Proof.
  intros. unfold for_range. destruct (hi - lo) eqn:E; try lia; reflexivity.
Qed.

Lemma for_range_ext {S} (lo hi : Z) (f g : Z → S → result S) (s : S) :
  (∀ i s, lo ≤ i < hi → f i s = g i s) →
  for_range lo hi f s = for_range lo hi g s.
Proof.
  intros Hfg. unfold for_range.
  assert (Hin : ∀ i, i ∈ seqZ lo (hi - lo) → lo ≤ i < hi).
  { intros i Hi. apply elem_of_seqZ in Hi. lia. }
  revert s Hin. induction (seqZ lo (hi - lo)) as [|a l IH]; intros s Hin; [done|].
  simpl. rewrite Hfg by (apply Hin; left).
  destruct (g a s); [|done]. rewrite !bind_Ok. apply IH.
  intros i Hi. apply Hin. by right.
Qed.

(** A property every iteration preserves holds of the result. *)
Lemma foldM_preserves {A S} (P : S → Prop) (body : A → S → result S)
    (l : list A) (s s' : S) :
  (∀ a s s', body a s = Ok s' → P s → P s') →
  foldM body l s = Ok s' → P s → P s'.
Proof.
  intros Hstep. revert s. induction l as [|a l IH]; intros s; simpl.
  - by intros [= ->].
  - intros Hrun HP. apply bind_Ok_inv in Hrun as (s1 & H1 & H2). eauto.
Qed.

Lemma foldM_inv {A S} (P : S → Prop) (body : A → S → result S)
    (l : list A) (s : S) :
  P s → (∀ a s, a ∈ l → P s → ∃ s', body a s = Ok s' ∧ P s') →
  ∃ s', foldM body l s = Ok s' ∧ P s'.
Proof.
  revert s. induction l as [|a l IH]; intros s HP Hstep; simpl; [eauto|].
  destruct (Hstep a s) as (s1 & -> & HP1); [left | done |].
  rewrite bind_Ok. apply IH; [done|]. intros b s' Hb. apply Hstep. by right.
Qed.

(** The same with an invariant that knows the elements already taken. *)
Lemma foldM_prefix_inv {A S} (P : list A → S → Prop) (body : A → S → result S)
    (l : list A) (s : S) :
  P [] s →
  (∀ done a rest s, l = done ++ a :: rest → P done s →
     ∃ s', body a s = Ok s' ∧ P (done ++ [a]) s') →
  ∃ s', foldM body l s = Ok s' ∧ P l s'.
Proof.
  intros HP Hstep.
  assert (Hgen : ∀ rest done s, l = done ++ rest → P done s →
            ∃ s', foldM body rest s = Ok s' ∧ P (done ++ rest) s').
  { induction rest as [|a rest IH]; intros done s0 Hl HP0; simpl.
    - rewrite app_nil_r. eauto.
    - destruct (Hstep done a rest s0 Hl HP0) as (s1 & -> & HP1).
      rewrite bind_Ok.
      destruct (IH (done ++ [a]) s1) as (s' & Hrun & HP');
        [by rewrite <-app_assoc | done |].
      exists s'. split; [done|]. by rewrite <-app_assoc in HP'. }
  by apply (Hgen l []).
Qed.

(** [loop_inv P s' Hrun HP] runs the first loop of the goal whose state fits
    the invariant [P]: it leaves the three premises of [for_range_inv] and
    then the goal, with [Hrun] the run of the loop to [s'] and [HP] the
    invariant at the end. *)
Ltac loop_inv P s' Hrun HP :=
  match goal with
  | |- context [for_range ?lo ?hi ?body ?s] =>
    destruct (for_range_inv P lo hi body s) as (s' & Hrun & HP);
    [ | | | ]
  end.

(** The same for a loop over a list, with an invariant of the state. *)
Ltac fold_inv P s' Hrun HP :=
  match goal with
  | |- context [foldM ?body ?l ?s] =>
    destruct (foldM_inv P body l s) as (s' & Hrun & HP); [ | | ]
  end.

(** ** Schedules *)

Lemma schedule_task threads (sched : schedule) size i tid :
  schedule_ok threads sched → (i, tid) ∈ sched size →
  0 ≤ i < size ∧ 0 ≤ tid < threads.
Proof.
  intros Hok Hin. destruct (Hok size) as [Hperm Hall]. split.
  - assert (Hi : i ∈ (sched size).*1).
    { apply list_elem_of_fmap. by exists (i, tid). }
    rewrite Hperm in Hi. apply elem_of_seqZ in Hi. lia.
  - rewrite Forall_forall in Hall. apply (Hall (i, tid) Hin).
Qed.

Lemma in_order_ok threads : 0 < threads → schedule_ok threads in_order.
Proof.
  intros Ht size. unfold in_order. split.
  - rewrite <-list_fmap_compose. by rewrite list_fmap_id.
  - apply Forall_fmap, Forall_forall. intros i _. simpl. lia.
Qed.

(** ** Feature vectors *)

Lemma FVec_put_length v fv e : length (FVec.put v fv e) = length fv.
Proof. unfold FVec.put. case_decide; [apply length_insert | done]. Qed.

Lemma FVec_Fill_length inst fv : length (FVec.Fill inst fv) = length fv.
Proof.
  unfold FVec.Fill. revert fv. induction inst as [|e inst IH]; intros fv; simpl; [done|].
  by rewrite IH, FVec_put_length.
Qed.

Lemma FVec_Drop_length inst fv : length (FVec.Drop inst fv) = length fv.
Proof.
  unfold FVec.Drop. revert fv. induction inst as [|e inst IH]; intros fv; simpl; [done|].
  by rewrite IH, FVec_put_length.
Qed.

Lemma FVec_put_lookup v fv e (n : nat) :
  (n < length fv)%nat →
  FVec.put v fv e !! n
  = if bool_decide (index e = Z.of_nat n) then Some v else fv !! n.
Proof.
  intros Hn. unfold FVec.put, FVec.Size, vsize. case_bool_decide as Hi.
  - rewrite decide_True by lia. rewrite Hi, Nat2Z.id.
    by apply list_lookup_insert_eq.
  - case_decide; [|done]. apply list_lookup_insert_ne. lia.
Qed.

Lemma FVec_Drop_lookup inst fv (n : nat) :
  (n < length fv)%nat →
  FVec.Drop inst fv !! n = if touches inst n then Some None else fv !! n.
Proof.
  unfold FVec.Drop. revert fv. induction inst as [|e inst IH]; intros fv Hn; simpl; [done|].
  rewrite IH by (by rewrite FVec_put_length).
  rewrite FVec_put_lookup by done.
  by destruct (bool_decide _), (touches inst n).
Qed.

Lemma FVec_Fill_lookup_untouched inst fv n :
  touches inst n = false → FVec.Fill inst fv !! n = fv !! n.
Proof.
  unfold FVec.Fill. revert fv. induction inst as [|e inst IH]; intros fv; simpl; [done|].
  intros [He Hinst]%orb_false_elim. rewrite IH by done.
  destruct (decide (n < length fv)%nat) as [Hn|Hn].
  - rewrite FVec_put_lookup by done. by rewrite He.
  - rewrite (lookup_ge_None_2 fv) by lia.
    apply lookup_ge_None_2. rewrite FVec_put_length. lia.
Qed.

Lemma FVec_clean_lookup fv (n : nat) :
  FVec.clean fv → (n < length fv)%nat → fv !! n = Some None.
Proof.
  intros Hc Hn. destruct (lookup_lt_is_Some_2 fv n Hn) as [x Hx].
  rewrite Hx. f_equal. eapply (Forall_lookup_1 _ _ _ _ Hc Hx).
Qed.

Lemma FVec_Drop_Fill inst fv : FVec.clean fv → FVec.Drop inst (FVec.Fill inst fv) = fv.
Proof.
  intros Hc. apply list_eq. intros n.
  destruct (decide (n < length fv)%nat) as [Hn|Hn].
  - rewrite FVec_Drop_lookup by (by rewrite FVec_Fill_length).
    destruct (touches inst n) eqn:E.
    + by rewrite FVec_clean_lookup.
    + by apply FVec_Fill_lookup_untouched.
  - rewrite (lookup_ge_None_2 fv) by lia.
    apply lookup_ge_None_2. rewrite FVec_Drop_length, FVec_Fill_length. lia.
Qed.

Lemma FVec_Init_clean n : FVec.clean (FVec.Init n).
Proof. unfold FVec.clean, FVec.Init. by apply Forall_replicate. Qed.

Lemma FVec_Init_Size n : 0 ≤ n → FVec.Size (FVec.Init n) = n.
Proof. intros. unfold FVec.Size, FVec.Init, vsize. rewrite length_replicate. lia. Qed.

(** ** Single-row prediction *)

Section SingleRow.
Context {RegTree : Type} `{TreeOps RegTree}.

Lemma group_values_empty eval (model : GBTreeModel RegTree) g lo :
  group_values eval model g lo lo = [].
Proof. unfold group_values. by rewrite Z.sub_diag. Qed.

Lemma group_values_snoc eval (model : GBTreeModel RegTree) g lo i gi tree :
  lo ≤ i →
  tree_info model !! Z.to_nat i = Some gi →
  trees model !! Z.to_nat i = Some tree →
  group_values eval model g lo (i + 1)
  = group_values eval model g lo i
    ++ (if decide (gi = g) then [eval tree] else []).
Proof.
  intros Hle Hgi Htree. unfold group_values.
  replace (i + 1 - lo) with ((i - lo) + 1) by lia.
  rewrite seqZ_app by lia. rewrite omap_app. f_equal.
  replace (lo + (i - lo)) with i by lia. simpl.
  replace (Z.of_nat 0 + i) with i by lia.
  rewrite Hgi, Htree. by case_decide.
Qed.

Lemma group_values_ext eval1 eval2 (model : GBTreeModel RegTree) g lo hi :
  (∀ tree, eval1 tree = eval2 tree) →
  group_values eval1 model g lo hi = group_values eval2 model g lo hi.
Proof.
  intros Heq. unfold group_values.
  induction (seqZ lo (hi - lo)) as [|t l IH]; [done|].
  cbn [omap list_omap]. rewrite IH.
  destruct (tree_info model !! Z.to_nat t), (trees model !! Z.to_nat t);
    try done.
  case_decide; [by rewrite Heq | done].
Qed.

Lemma PredValue_spec inst (model : GBTreeModel RegTree) g fv L :
  0 ≤ L ≤ vsize (trees model) → L ≤ vsize (tree_info model) →
  PredValue inst (trees model) (tree_info model) g fv 0 L
  = Ok (foldl fadd fzero
          (group_values (leaf_value_of (FVec.Fill inst fv)) model g 0 L),
        FVec.Drop inst (FVec.Fill inst fv)).
Proof.
  intros HL HL'. unfold PredValue.
  set (eval := leaf_value_of (FVec.Fill inst fv)).
  loop_inv (λ i psum, psum = foldl fadd fzero (group_values eval model g 0 i))
    psum Hrun Hpsum.
  - lia.
  - by rewrite group_values_empty.
  - intros i psum Hi ->.
    destruct (vec_get_in_range (tree_info model) i) as (gi & -> & Hgi); [lia|].
    destruct (vec_get_in_range (trees model) i) as (tree & Htree & Htree'); [lia|].
    rewrite bind_Ok.
    rewrite (group_values_snoc eval model g 0 i gi tree) by (done || lia).
    rewrite foldl_app. case_decide.
    + rewrite Htree, bind_Ok. eexists; split; [done|]. reflexivity.
    + eexists; split; [done|]. reflexivity.
  - rewrite Hrun, bind_Ok. by subst psum.
Qed.

(** C10, amended. Single-row prediction takes its tree limit per output
    group, in the 32-bit unsigned arithmetic of the limit: the limit [n] is
    multiplied by the number [g] of output groups modulo 2^32, and the
    product is replaced by the number of trees when it is zero or exceeds
    that number.  The call returns, and the value of each output group is
    the sum of the leaf values of its trees with index below the resulting
    end, plus the base score.  Whenever [n * g] is below 2^32 and the trees
    are fewer than 2^32 the end is [min (n * g) numTrees] for a nonzero [n]
    and the number of trees for [n = 0]. *)
Theorem PredictInstance_tree_limit inst out (model : GBTreeModel RegTree) n :
  let lp := learner_model_param model in
  let G := num_output_group lp in
  let T := vsize (trees model) in
  let L := instance_tree_end_mod n G T in
  let cells := G * (size_leaf_vector model + 1) in
  0 ≤ n < 2 ^ 32 → 0 ≤ G < 2 ^ 32 →
  T ≤ vsize (tree_info model) →
  0 ≤ size_leaf_vector model → cells < 2 ^ 32 →
  (0 < G → n * G < 2 ^ 32 → T < 2 ^ 32 → L = instance_tree_end n G T)
  ∧ ∃ out',
      PredictInstance inst out model n = Ok out'
      ∧ vsize out' = cells
      ∧ ∀ gid, 0 ≤ gid < G →
          out' !! Z.to_nat gid
          = Some (fadd
                    (foldl fadd fzero
                       (group_values
                          (leaf_value_of
                             (FVec.Fill inst (FVec.Init (num_feature lp))))
                          model (to_int32 gid) 0 L))
                    (base_score lp)).
Proof.
  intros lp G T L cells Hn HG Hinfo Hslv Hcells.
  pose proof (vsize_nonneg (trees model)) as HT. fold T in HT.
  split.
  { intros Hpos Hmul HT32. subst L.
    unfold instance_tree_end_mod, instance_tree_end.
    assert (0 ≤ n * G) by (apply Z.mul_nonneg_nonneg; lia).
    rewrite (Z.mod_small (n * G)), (Z.mod_small T) by lia.
    repeat case_decide; nia. }
  unfold PredictInstance. fold lp G T.
  assert (HGc : G ≤ cells).
  { unfold cells.
    assert (0 ≤ G * size_leaf_vector model)
      by (apply Z.mul_nonneg_nonneg; lia). lia. }
  fold cells. rewrite (wrap32_small cells) by lia.
  set (limit := if decide (_ ∨ _) then _ else _).
  assert (Hlimit : limit = L).
  { subst limit L. unfold instance_tree_end_mod, wrap32.
    repeat case_decide; try done; lia. }
  rewrite Hlimit.
  assert (HL : 0 ≤ L ≤ T).
  { subst L. unfold instance_tree_end_mod.
    pose proof (Z.mod_pos_bound (n * G) (2 ^ 32) ltac:(lia)).
    pose proof (Z.mod_pos_bound T (2 ^ 32) ltac:(lia)).
    pose proof (Z.mod_le T (2 ^ 32) ltac:(lia) ltac:(lia)).
    case_decide; lia. }
  clearbody L. clear limit Hlimit.
  set (fv0 := FVec.Init (num_feature lp)).
  set (out0 := resize _ fzero out).
  assert (Hout0 : vsize out0 = cells).
  { unfold out0, vsize. rewrite length_resize. lia. }
  assert (Hfv : FVec.Drop inst (FVec.Fill inst fv0) = fv0)
    by apply FVec_Drop_Fill, FVec_Init_clean.
  set (val := λ gid, fadd (foldl fadd fzero
      (group_values (leaf_value_of (FVec.Fill inst fv0)) model (to_int32 gid) 0 L))
      (base_score lp)).
  loop_inv (λ i (st : list bst_float * FVec.t),
       st.2 = fv0 ∧ vsize st.1 = cells
       ∧ ∀ gid, 0 ≤ gid < i → st.1 !! Z.to_nat gid = Some (val gid))
    st Hrun Hst.
  - lia.
  - simpl. split; [done|]. split; [done | intros; lia].
  - intros gid [o fv] Hgid (Hfvi & Hleni & Hvali). simpl in *. subst fv.
    rewrite PredValue_spec by (fold T; lia). rewrite bind_Ok. simpl.
    rewrite vec_set_Ok by lia. rewrite bind_Ok.
    eexists; split; [done|]. simpl. split; [done|]. split.
    + by rewrite vsize_insert.
    + intros g' Hg'. destruct (decide (g' = gid)) as [->|Hne].
      * rewrite list_lookup_insert_eq; [done | unfold vsize in Hleni; lia].
      * rewrite list_lookup_insert_ne by lia. apply Hvali. lia.
  - rewrite Hrun, bind_Ok. destruct st as [out' fv'], Hst as (Hfv' & Hlen & Hval).
    simpl in *. exists out'. split; [done|]. split; [done|].
    intros gid Hgid. by rewrite Hval.
Qed.

End SingleRow.

(** With two output groups a limit of 1 takes the first two trees, one of
    each group. *)
Lemma PredictInstance_tree_limit_witness :
  instance_tree_end_mod 1 2 4 = 2
  ∧ ∃ out',
      PredictInstance ex_row [] ex_two_groups 1 = Ok out'
      ∧ out' !! 0%nat = Some (f32 2 0)
      ∧ out' !! 1%nat = Some fzero.
Proof.
  destruct (PredictInstance_tree_limit ex_row [] ex_two_groups 1)
    as (Hend & out' & Hrun & Hlen & Hval);
    [simpl; lia | simpl; lia | vm_compute; congruence | simpl; lia
    | simpl; lia |].
  split; [reflexivity|]. exists out'. split; [exact Hrun|]. split.
  - etrans; [apply (Hval 0); simpl; lia|]. vm_compute. reflexivity.
  - etrans; [apply (Hval 1); simpl; lia|]. vm_compute. reflexivity.
Defined.

(** A limit of 2^31 + 1 on two output groups and four trees:
    [min (n * g) numTrees] is 4, all the trees, which would give 4 for
    both groups; the product wraps to 2, and the call uses the first two
    trees only. *)
Lemma PredictInstance_tree_limit_wraps :
  let n := 2 ^ 31 + 1 in
  let unwrapped := instance_tree_end n 2 4 in
  let value g L :=
    fadd (foldl fadd fzero
            (group_values (leaf_value_of (FVec.Fill ex_row (FVec.Init 2)))
               ex_two_groups g 0 L)) (f32 1 (-1)) in
  unwrapped = 4
  ∧ [value 0 unwrapped; value 1 unwrapped] = [f32 4 0; f32 4 0]
  ∧ PredictInstance ex_row [] ex_two_groups n = Ok [f32 2 0; fzero]
  ∧ PredictInstance ex_row [] ex_two_groups n
    ≠ Ok [value 0 unwrapped; value 1 unwrapped].
Proof. vm_compute. repeat split; discriminate. Qed.

(** A pooled vector, sized on first use, is the clean vector of the
    model's feature count. *)
Lemma pool_ok_pick (features : Z) (pool : list FVec.t) (k : nat) fv size :
  size = features → pool_ok features pool → pool !! k = Some fv →
  (if decide (FVec.Size fv = 0) then FVec.Init size else fv)
  = FVec.Init features.
Proof.
  intros -> Hok Hk.
  destruct (Forall_lookup_1 _ _ _ _ Hok Hk) as [->| ->].
  - by rewrite decide_True.
  - by case_decide.
Qed.

(** ** Output initialisation and in-place prediction *)

Section EntryPoints.
Context {RegTree : Type} `{TreeOps RegTree}.

Lemma base_margin_warning_names_length (model : GBTreeModel RegTree) info :
  0 < num_output_group (learner_model_param model) →
  let n := num_output_group (learner_model_param model) * num_row_ info in
  LNum n ∈ base_margin_warning model info n.
Proof.
  intros HG n. unfold base_margin_warning.
  apply elem_of_app. right. apply elem_of_app. left.
  case_decide.
  - repeat (apply elem_of_cons; (by left) || right).
  - assert (num_output_group (learner_model_param model) = 1) as Hone by lia.
    subst n. rewrite Hone, Z.mul_1_l.
    repeat (apply elem_of_cons; (by left) || right).
Qed.

(** C5. When the base margin has exactly [numRows * numOutputGroups]
    entries, output initialisation returns it verbatim; a non-empty margin
    of any other length is ignored: the call completes, the whole buffer
    holds the base score and one warning that names the expected length is
    logged.  In particular a margin of [numRows - 1] entries gives the
    all-base-score buffer. *)
Theorem InitOutPredictions_base_margin info out (model : GBTreeModel RegTree) :
  let lp := learner_model_param model in
  let n := num_output_group lp * num_row_ info in
  let base_margin := base_margin_ info in
  0 < num_output_group lp → 0 ≤ num_row_ info → n < 2 ^ 64 →
  (vsize base_margin = n →
     InitOutPredictions info out model = Ok (base_margin, []))
  ∧ (base_margin ≠ [] → vsize base_margin ≠ n →
     ∃ w, InitOutPredictions info out model
          = Ok (replicate (Z.to_nat n) (base_score lp), [w])
          ∧ LNum n ∈ w)
  ∧ (vsize base_margin = num_row_ info - 1 →
     ∃ log, InitOutPredictions info out model
            = Ok (replicate (Z.to_nat n) (base_score lp), log)).
Proof.
  intros lp n bm HG Hrows Hn.
  assert (Hwrap : wrap64 (num_output_group lp * num_row_ info) = n)
    by (apply wrap64_small; subst n; nia).
  assert (Hother : vsize bm ≠ n →
    InitOutPredictions info out model
    = Ok (replicate (Z.to_nat n) (base_score lp),
          if decide (bm = []) then [] else [base_margin_warning model info n])).
  { intros Hne. unfold InitOutPredictions. fold lp.
    rewrite (bool_decide_eq_true_2 (num_output_group lp ≠ 0)) by lia.
    simpl. rewrite Hwrap. fold bm.
    rewrite decide_False by done. by rewrite length_resize. }
  split; [|split].
  - intros Heq. unfold InitOutPredictions. fold lp.
    rewrite (bool_decide_eq_true_2 (num_output_group lp ≠ 0)) by lia.
    simpl. rewrite Hwrap. fold bm.
    rewrite decide_True by done.
    rewrite bool_decide_eq_true_2
      by (unfold vsize; rewrite length_resize; subst n; nia).
    simpl. rewrite drop_ge, app_nil_r; [done|].
    rewrite length_resize. unfold vsize in Heq. lia.
  - intros Hbm Hne. eexists. rewrite Hother by done.
    rewrite decide_False by done. split; [done|].
    by apply base_margin_warning_names_length.
  - intros Hshort. eexists. apply Hother. subst n. nia.
Qed.

(** C9. An in-place input whose column count differs from the model's
    feature count aborts with an error, whatever the kind of its adapter,
    before anything is computed: the prediction buffer, the proxy matrix
    and the log are as they were. *)
Theorem InplacePredict_feature_mismatch threads sched m
    (model : GBTreeModel RegTree) missing tree_begin tree_end st :
  NumColumns m ≠ num_feature (learner_model_param model) →
  let failed :=
    CheckFailed "Number of columns in data must equal to trained model." in
  DispatchedInplacePredict threads sched m model missing
    tree_begin tree_end st = (st, Err failed)
  ∧ ∀ x, adapter_of x = Some m →
      InplacePredict threads sched x model missing tree_begin tree_end st
      = (st, Err failed).
Proof.
  intros Hne failed.
  assert (Hd : DispatchedInplacePredict threads sched m model missing
                 tree_begin tree_end st = (st, Err failed)).
  { unfold DispatchedInplacePredict. by rewrite decide_False. }
  split; [done|].
  intros x Hx. destruct x; simplify_eq/=; by rewrite Hd.
Qed.

(** C8, amended. An input that is none of the four adapter kinds is
    declined: the call returns [false], raises nothing and changes nothing.
    An input of one of the four kinds is dispatched: the call does what the
    dispatched prediction does, returns [true] when that prediction
    completes and fails with its error when it aborts; it never returns
    [false]. *)
Theorem InplacePredict_dispatch threads sched
    (model : GBTreeModel RegTree) missing tree_begin tree_end st :
  (∀ type_name,
     InplacePredict threads sched (AnyOther type_name) model missing
       tree_begin tree_end st = (st, Ok false))
  ∧ ∀ x m, adapter_of x = Some m →
      let d := DispatchedInplacePredict threads sched m model missing
                 tree_begin tree_end st in
      let r := InplacePredict threads sched x model missing
                 tree_begin tree_end st in
      r.1 = d.1
      ∧ r.2 = (d.2 ≫= λ _, Ok true)
      ∧ r.2 ≠ Ok false
      ∧ (d.2 = Ok tt → r.2 = Ok true).
Proof.
  split; [done|].
  intros x m Hx d r. subst d r.
  destruct x; simplify_eq/=;
    destruct (DispatchedInplacePredict _ _ _ _ _ _ _ _) as [st' [[]|e]];
    simpl; repeat split; done.
Qed.

End EntryPoints.

Lemma InitOutPredictions_base_margin_witness :
  InitOutPredictions (RegTree := Stump)
    {| num_row_ := 2; base_margin_ := [f32 1 0; f32 2 0] |} [] ex_model
  = Ok ([f32 1 0; f32 2 0], [])
  ∧ ∃ log, InitOutPredictions ex_info [] ex_model
           = Ok (replicate 3 (f32 1 (-1)), log).
Proof.
  split.
  - apply (InitOutPredictions_base_margin
             {| num_row_ := 2; base_margin_ := [f32 1 0; f32 2 0] |} [] ex_model);
      [simpl; lia | simpl; lia | simpl; lia | reflexivity].
  - apply (InitOutPredictions_base_margin ex_info [] ex_model);
      [simpl; lia | simpl; lia | simpl; lia | reflexivity].
Defined.

Lemma InplacePredict_feature_mismatch_witness :
  InplacePredict 1 in_order (AnyCSRAdapter (ex_adapter 3)) ex_model fzero 0 0
    ex_state
  = (ex_state,
     Err (CheckFailed "Number of columns in data must equal to trained model.")).
Proof.
  apply (InplacePredict_feature_mismatch 1 in_order (ex_adapter 3) ex_model
           fzero 0 0 ex_state); [simpl; lia | reflexivity].
Defined.

(** An input of a supported kind can fail to return [true]: three columns
    against a model of two features abort the call. *)
Lemma InplacePredict_supported_not_true :
  (InplacePredict 1 in_order (AnyDenseAdapter (ex_adapter 3)) ex_model fzero
     0 0 ex_state).2 ≠ Ok true.
Proof. vm_compute. discriminate. Qed.

Lemma InplacePredict_dispatch_witness :
  (InplacePredict 1 in_order (AnyDenseAdapter (ex_adapter 2)) ex_model fzero
     0 0 ex_state).2 = Ok true.
Proof.
  destruct (InplacePredict_dispatch 1 in_order ex_model fzero 0 0 ex_state)
    as [_ Hsup].
  destruct (Hsup (AnyDenseAdapter (ex_adapter 2)) (ex_adapter 2))
    as (_ & _ & _ & Htrue); [reflexivity|].
  apply Htrue. vm_compute. reflexivity.
Defined.


(** ** The blocked batch kernel *)

Lemma cell_inj (G r1 g1 r2 g2 : Z) :
  0 ≤ g1 < G → 0 ≤ g2 < G → r1 * G + g1 = r2 * G + g2 → r1 = r2 ∧ g1 = g2.
Proof.
  intros H1 H2 Heq.
  assert (r1 = r2) as ->; [|lia].
  destruct (Z.lt_trichotomy r1 r2) as [Hlt|[->|Hlt]]; [nia | done | nia].
Qed.

Lemma cell_nonneg (G r g : Z) : 0 ≤ r → 0 ≤ G → 0 ≤ g → 0 ≤ r * G + g.
Proof. intros. pose proof (Z.mul_nonneg_nonneg r G). lia. Qed.

(** A cell between the first cells of two rows belongs to a row between
    them. *)
Lemma cell_in_rows (G lo hi r g : Z) :
  0 < G → 0 ≤ g < G → lo * G ≤ r * G + g < hi * G → lo ≤ r < hi.
Proof.
  intros HG Hg [Hlo Hhi]. split.
  - destruct (Z_lt_le_dec r lo) as [Hlt|]; [|done]. exfalso.
    assert ((r + 1) * G ≤ lo * G) by (apply Z.mul_le_mono_nonneg_r; lia). lia.
  - destruct (Z_lt_le_dec r hi) as [|Hge]; [done|]. exfalso.
    assert (hi * G ≤ r * G) by (apply Z.mul_le_mono_nonneg_r; lia). lia.
Qed.

Lemma cell_range (G r g : Z) :
  0 ≤ g < G → r * G ≤ r * G + g < (r + 1) * G.
Proof. nia. Qed.

Lemma vec_upd_in_range {A} (v : list A) (i : Z) (f : A → A) :
  0 ≤ i < vsize v →
  ∃ x, v !! Z.to_nat i = Some x ∧ vec_upd v i f = Ok (<[Z.to_nat i := f x]> v).
Proof.
  intros Hi. destruct (vec_get_in_range v i Hi) as (x & _ & Hx).
  exists x. split; [done|]. apply vec_upd_Ok; [lia | done].
Qed.

(** *** The blocks partition the rows *)

Lemma n_row_blocks_ceil nsize :
  0 ≤ nsize < 2 ^ 32 →
  n_row_blocks kBlockOfRowsSize nsize = (nsize + 63) / 64.
Proof.
  intros Hn. unfold n_row_blocks, kBlockOfRowsSize.
  pose proof (Z.div_mod nsize 64 ltac:(lia)) as Hdm.
  pose proof (Z.mod_pos_bound nsize 64 ltac:(lia)) as Hmod.
  assert (Hceil : nsize / 64 + (if decide (nsize mod 64 = 0) then 0 else 1)
                  = (nsize + 63) / 64).
  { case_decide.
    - apply (Z.div_unique _ _ _ 63); lia.
    - apply (Z.div_unique _ _ _ (nsize mod 64 - 1)); lia. }
  rewrite Hceil. apply wrap32_small.
  split; [apply Z.div_pos; lia|].
  apply Z.div_lt_upper_bound; lia.
Qed.

Lemma block_bounds nsize b :
  0 ≤ nsize < 2 ^ 32 → 0 ≤ b < n_row_blocks kBlockOfRowsSize nsize →
  block_batch_offset kBlockOfRowsSize b = 64 * b
  ∧ block_block_size kBlockOfRowsSize nsize b = Z.min (nsize - 64 * b) 64
  ∧ 64 * b < nsize.
Proof.
  intros Hn Hb. rewrite n_row_blocks_ceil in Hb by done.
  assert (64 * b < nsize).
  { assert (64 * ((nsize + 63) / 64) ≤ nsize + 63)
      by (apply Z.mul_div_le; lia). lia. }
  unfold block_block_size, block_batch_offset, kBlockOfRowsSize.
  rewrite (wrap64_small (b * 64)) by lia.
  rewrite wrap64_small by lia.
  repeat split; (lia || f_equal; lia).
Qed.

Lemma block_rows_prefix nsize (k : nat) :
  0 ≤ nsize < 2 ^ 32 → Z.of_nat k ≤ n_row_blocks kBlockOfRowsSize nsize →
  concat (block_rows kBlockOfRowsSize nsize <$> seqZ 0 (Z.of_nat k))
  = seqZ 0 (Z.min (64 * Z.of_nat k) nsize).
Proof.
  intros Hn. induction k as [|k IH]; intros Hk.
  { simpl. by rewrite Z.min_l by lia. }
  rewrite Nat2Z.inj_succ, <-Z.add_1_r.
  rewrite seqZ_app by lia. rewrite fmap_app, concat_app, IH by lia.
  change (seqZ (0 + Z.of_nat k) 1) with [Z.of_nat k].
  cbn [fmap list_fmap concat]. rewrite app_nil_r.
  destruct (block_bounds nsize (Z.of_nat k)) as (Hoff & Hsize & Hlt); [done | lia |].
  unfold block_rows. rewrite Hoff, Hsize.
  rewrite Z.min_l by lia.
  replace (Z.min (64 * (Z.of_nat k + 1)) nsize)
    with (64 * Z.of_nat k + Z.min (nsize - 64 * Z.of_nat k) 64) by lia.
  rewrite (seqZ_app 0) by lia. done.
Qed.

(** The blocks, taken in order, are the rows [0, nsize) in order: they are
    contiguous, disjoint and leave no gap. *)
Lemma block_rows_partition nsize :
  0 ≤ nsize < 2 ^ 32 →
  concat (block_rows kBlockOfRowsSize nsize
            <$> seqZ 0 (n_row_blocks kBlockOfRowsSize nsize))
  = seqZ 0 nsize.
Proof.
  intros Hn.
  assert (Hnb : 0 ≤ n_row_blocks kBlockOfRowsSize nsize).
  { rewrite n_row_blocks_ceil by done. apply Z.div_pos; lia. }
  rewrite <-(Z2Nat.id (n_row_blocks kBlockOfRowsSize nsize)) at 1 by done.
  rewrite block_rows_prefix by (done || lia). f_equal.
  rewrite Z2Nat.id by done. rewrite n_row_blocks_ceil by done.
  pose proof (Z.div_mod (nsize + 63) 64 ltac:(lia)).
  pose proof (Z.mod_pos_bound (nsize + 63) 64 ltac:(lia)). lia.
Qed.

(** The value the kernel adds for a tree is the leaf value of the tree
    for the feature vector. *)
Lemma PredValueByOneTree_leaf {RegTree : Type} `{TreeOps RegTree}
    (feats : FVec.t) (tree : RegTree) :
  PredValueByOneTree feats tree
  = LeafValue tree (GetLeafIndex (FVec.HasMissing feats) tree feats).
Proof. unfold PredValueByOneTree. by destruct (FVec.HasMissing feats). Qed.

(** A page delivers its rows. *)
Lemma SparsePage_delivers threads (p : SparsePage) rows :
  (∀ i, 0 ≤ i < vsize (page_rows p) →
     page_rows p !! Z.to_nat i = Some (rows i)) →
  delivers threads p rows.
Proof.
  intros Hrows. exists (λ v, v = p). split; [done|].
  intros v t i -> _ Hi. exists p. simpl in *.
  rewrite (vec_get_Ok _ _ (rows i)) by (lia || by apply Hrows). done.
Qed.

Section Kernel.
Context {RegTree : Type} `{TreeOps RegTree} {V : Type} `{DataView V}.
Variables (batch : V) (model : GBTreeModel RegTree) (rows : Z → Inst)
  (threads : Z) (inv : V → Prop).

Let num_group : Z := num_output_group (learner_model_param model).
Let features : Z := num_feature (learner_model_param model).

Hypothesis Hfeatures : 0 ≤ features < 2 ^ 31.
Hypothesis Hsize : 0 ≤ view_Size batch < 2 ^ 32.
Hypothesis Hfetch :
  ∀ v t i, inv v → 0 ≤ t < threads → 0 ≤ i < view_Size batch →
    ∃ v', view_at v t i = Ok (rows i, v') ∧ inv v'
          ∧ view_base_rowid v' = view_base_rowid v.

(** The feature vector of row [i] once filled. *)
Let filled (i : Z) : FVec.t := FVec.Fill (rows i) (FVec.Init features).

Lemma pool_ok_lookup (pool : list FVec.t) (k : nat) fv :
  pool_ok features pool → pool !! k = Some fv →
  (if decide (FVec.Size fv = 0) then FVec.Init (wrap64 (to_int32 features)) else fv)
  = FVec.Init features.
Proof.
  intros Hok Hk. rewrite to_int32_small, wrap64_small by lia.
  destruct (Forall_lookup_1 _ _ _ _ Hok Hk) as [->| ->].
  - by rewrite decide_True.
  - case_decide as Hz; [done|done].
Qed.

Lemma FVecFill_spec (pool : list FVec.t) (v : V) tid bs bo fo :
  pool_ok features pool → inv v → 0 ≤ tid < threads →
  0 ≤ bs → 0 ≤ bo → bo + bs ≤ view_Size batch →
  0 ≤ fo → fo + bs ≤ vsize pool → vsize pool < 2 ^ 64 →
  ∃ pool1 v1,
    FVecFill tid bs bo (to_int32 features) v fo pool = Ok (pool1, v1)
    ∧ inv v1 ∧ view_base_rowid v1 = view_base_rowid v
    ∧ length pool1 = length pool
    ∧ (∀ i, 0 ≤ i < bs → pool1 !! Z.to_nat (fo + i) = Some (filled (bo + i)))
    ∧ (∀ k : nat, ¬ (fo ≤ Z.of_nat k < fo + bs) → pool1 !! k = pool !! k).
Proof.
  intros Hok Hv Htid Hbs Hbo Hbn Hfo Hfit Hbig. unfold FVecFill.
  loop_inv (λ i (st : list FVec.t * V),
    inv st.2 ∧ view_base_rowid st.2 = view_base_rowid v
    ∧ length st.1 = length pool
    ∧ (∀ i', 0 ≤ i' < i → st.1 !! Z.to_nat (fo + i') = Some (filled (bo + i')))
    ∧ (∀ k : nat, ¬ (fo ≤ Z.of_nat k < fo + i) → st.1 !! k = pool !! k))
    st1 Hrun Hst1.
  - done.
  - split; [done|]. split; [done|]. split; [done|].
    split; [intros; lia | done].
  - intros i [p w] Hi (Hw & Hbase & Hlen & Hdone & Hrest). cbn [fst snd] in *.
    rewrite (wrap64_small (fo + i)), (wrap64_small (bo + i)) by lia.
    destruct (vec_get_in_range p (fo + i)) as (fv & -> & Hfv);
      [unfold vsize in *; lia|].
    rewrite bind_Ok. rewrite Hrest in Hfv by lia.
    rewrite (pool_ok_lookup pool _ fv) by done.
    destruct (Hfetch w tid (bo + i)) as (w' & -> & Hw' & Hbase');
      [done | done | lia |].
    rewrite bind_Ok. cbn [fst snd].
    rewrite vec_set_Ok by (unfold vsize in *; lia). rewrite bind_Ok.
    eexists; split; [done|]. cbn [fst snd].
    split; [done|]. split; [congruence|].
    split; [by rewrite length_insert|]. split.
    + intros i' Hi'. destruct (decide (i' = i)) as [->|Hne].
      * apply list_lookup_insert_eq. unfold vsize in *. lia.
      * rewrite list_lookup_insert_ne by lia. apply Hdone. lia.
    + intros k Hk. rewrite list_lookup_insert_ne by lia. apply Hrest. lia.
  - destruct st1 as [pool1 v1]. exists pool1, v1. done.
Qed.

Lemma FVecDrop_spec (pool pool1 : list FVec.t) (v : V) tid bs bo fo :
  pool_ok features pool → inv v → 0 ≤ tid < threads →
  length pool1 = length pool →
  (∀ i, 0 ≤ i < bs → pool1 !! Z.to_nat (fo + i) = Some (filled (bo + i))) →
  (∀ k : nat, ¬ (fo ≤ Z.of_nat k < fo + bs) → pool1 !! k = pool !! k) →
  0 ≤ bs → 0 ≤ bo → bo + bs ≤ view_Size batch →
  0 ≤ fo → fo + bs ≤ vsize pool → vsize pool < 2 ^ 64 →
  ∃ pool2 v2,
    FVecDrop tid bs bo v fo pool1 = Ok (pool2, v2)
    ∧ inv v2 ∧ view_base_rowid v2 = view_base_rowid v
    ∧ length pool2 = length pool
    ∧ pool_ok features pool2.
Proof.
  intros Hok Hv Htid Hlen1 Hfilled Hframe Hbs Hbo Hbn Hfo Hfit Hbig.
  unfold FVecDrop.
  loop_inv (λ i (st : list FVec.t * V),
    inv st.2 ∧ view_base_rowid st.2 = view_base_rowid v
    ∧ length st.1 = length pool
    ∧ (∀ i', 0 ≤ i' < i → st.1 !! Z.to_nat (fo + i') = Some (FVec.Init features))
    ∧ (∀ k : nat, ¬ (fo ≤ Z.of_nat k < fo + i) → st.1 !! k = pool1 !! k))
    st2 Hrun Hst2.
  - done.
  - split; [done|]. split; [done|]. split; [done|].
    split; [intros; lia | done].
  - intros i [p w] Hi (Hw & Hbase & Hlen & Hdone & Hrest). cbn [fst snd] in *.
    rewrite (wrap64_small (fo + i)), (wrap64_small (bo + i)) by lia.
    destruct (vec_get_in_range p (fo + i)) as (fv & -> & Hfv);
      [unfold vsize in *; lia|].
    rewrite bind_Ok. rewrite Hrest, Hfilled in Hfv by lia.
    injection Hfv as <-.
    destruct (Hfetch w tid (bo + i)) as (w' & -> & Hw' & Hbase');
      [done | done | lia |].
    rewrite bind_Ok. cbn [fst snd].
    rewrite vec_set_Ok by (unfold vsize in *; lia). rewrite bind_Ok.
    eexists; split; [done|]. cbn [fst snd].
    split; [done|]. split; [congruence|].
    split; [by rewrite length_insert|]. split.
    + intros i' Hi'. destruct (decide (i' = i)) as [->|Hne].
      * unfold filled. rewrite FVec_Drop_Fill by apply FVec_Init_clean.
        apply list_lookup_insert_eq. unfold vsize in *. lia.
      * rewrite list_lookup_insert_ne by lia. apply Hdone. lia.
    + intros k Hk. rewrite list_lookup_insert_ne by lia. apply Hrest. lia.
  - destruct st2 as [pool2 v2], Hst2 as (Hv2 & Hbase2 & Hlen & Hdone & Hrest).
    cbn [fst snd] in *.
    exists pool2, v2. split; [done|]. split; [done|]. split; [done|].
    split; [done|].
    apply Forall_lookup. intros k fv Hk.
    destruct (decide (fo ≤ Z.of_nat k < fo + bs)) as [Hin|Hout].
    + specialize (Hdone (Z.of_nat k - fo) ltac:(lia)).
      replace (Z.to_nat (fo + (Z.of_nat k - fo))) with k in Hdone by lia.
      right. congruence.
    + rewrite Hrest, Hframe in Hk by done.
      apply (Forall_lookup_1 _ _ _ _ Hok Hk).
Qed.

Hypothesis Hgroups : 0 < num_group < 2 ^ 31.

Lemma PredictByAllTrees_spec (out : list bst_float) (temp : list FVec.t)
    tb te po fo bs bo :
  0 ≤ tb ≤ te → te ≤ vsize (trees model) → te ≤ vsize (tree_info model) →
  (∀ t gi, tb ≤ t < te → tree_info model !! Z.to_nat t = Some gi →
     0 ≤ gi < num_group) →
  0 ≤ bs → 0 ≤ po → (po + bs) * num_group ≤ vsize out → vsize out < 2 ^ 64 →
  0 ≤ fo → fo + bs < 2 ^ 64 →
  (∀ i, 0 ≤ i < bs → temp !! Z.to_nat (fo + i) = Some (filled (bo + i))) →
  ∃ out',
    PredictByAllTrees model tb te out po num_group temp fo bs = Ok out'
    ∧ length out' = length out
    ∧ (∀ i g x, 0 ≤ i < bs → 0 ≤ g < num_group →
         out !! Z.to_nat ((po + i) * num_group + g) = Some x →
         out' !! Z.to_nat ((po + i) * num_group + g)
         = Some (foldl fadd x
                   (group_values (PredValueByOneTree (filled (bo + i)))
                      model g tb te)))
    ∧ (∀ k : nat, ¬ (po * num_group ≤ Z.of_nat k < (po + bs) * num_group) →
         out' !! k = out !! k).
Proof.
  intros Htb Hte Hte' Hinfo Hbs Hpo Hfit Hbig Hfo Hfo' Htemp.
  unfold PredictByAllTrees.
  set (cell := λ i g : Z, (po + i) * num_group + g).
  assert (Hcell : ∀ i g, 0 ≤ i < bs → 0 ≤ g < num_group →
            po * num_group ≤ cell i g < (po + bs) * num_group).
  { intros i g Hi Hg. unfold cell. nia. }
  assert (Hinj : ∀ i g i' g', 0 ≤ g < num_group → 0 ≤ g' < num_group →
            cell i g = cell i' g' → i = i' ∧ g = g').
  { intros i g i' g' Hg Hg' Heq. unfold cell in Heq.
    destruct (cell_inj num_group (po + i) g (po + i') g'); [done..|]. lia. }
  loop_inv (λ t (preds : list bst_float),
    length preds = length out
    ∧ (∀ i g x, 0 ≤ i < bs → 0 ≤ g < num_group →
         out !! Z.to_nat (cell i g) = Some x →
         preds !! Z.to_nat (cell i g)
         = Some (foldl fadd x
                   (group_values (PredValueByOneTree (filled (bo + i)))
                      model g tb t)))
    ∧ (∀ k : nat, ¬ (po * num_group ≤ Z.of_nat k < (po + bs) * num_group) →
         preds !! k = out !! k))
    out' Hrun Hout'.
  - lia.
  - split; [done|]. split; [|done].
    intros i g x _ _ Hx. by rewrite group_values_empty.
  - intros t preds Ht (Hlen & Hcells & Hframe).
    destruct (vec_get_in_range (tree_info model) t) as (gi & -> & Hgi); [lia|].
    destruct (vec_get_in_range (trees model) t) as (tree & Htree & Htree'); [lia|].
    rewrite bind_Ok. pose proof (Hinfo t gi Ht Hgi) as Hgi_range.
    rewrite (wrap64_small gi) by lia.
    loop_inv (λ i (p : list bst_float),
      length p = length out
      ∧ (∀ i' x, 0 ≤ i' < i → preds !! Z.to_nat (cell i' gi) = Some x →
           p !! Z.to_nat (cell i' gi)
           = Some (fadd x (PredValueByOneTree (filled (bo + i')) tree)))
      ∧ (∀ k : nat, (∀ i', 0 ≤ i' < i → k ≠ Z.to_nat (cell i' gi)) →
           p !! k = preds !! k))
      preds' Hrun' Hpreds'.
    + done.
    + split; [done|]. split; [intros; lia | done].
    + intros i p Hi (Hlenp & Hdone & Hrest).
      rewrite (wrap64_small (fo + i)) by lia.
      rewrite (vec_get_Ok _ _ (filled (bo + i))) by (lia || by apply Htemp).
      rewrite bind_Ok, Htree, bind_Ok.
      fold (cell i gi). pose proof (Hcell i gi Hi Hgi_range) as Hc.
      rewrite (wrap64_small (cell i gi)) by lia.
      destruct (vec_upd_in_range p (cell i gi)
                  (λ x, fadd x (PredValueByOneTree (filled (bo + i)) tree)))
        as (x & Hx & ->); [unfold vsize in *; lia|].
      eexists; split; [done|]. split; [by rewrite length_insert|].
      assert (Hpx : preds !! Z.to_nat (cell i gi) = Some x).
      { rewrite <-Hx. symmetry. apply Hrest. intros i' Hi' Heq.
        pose proof (Hcell i' gi ltac:(lia) Hgi_range).
        destruct (Hinj i gi i' gi); [done | done | lia | lia]. }
      split.
      * intros i' y Hi' Hy. destruct (decide (i' = i)) as [->|Hne].
        -- rewrite list_lookup_insert_eq by (unfold vsize in *; lia).
           congruence.
        -- pose proof (Hcell i' gi ltac:(lia) Hgi_range).
           rewrite list_lookup_insert_ne.
           ++ apply Hdone; [lia | done].
           ++ intros Heq. destruct (Hinj i gi i' gi); [done | done | lia | lia].
      * intros k Hk. rewrite list_lookup_insert_ne by (apply not_eq_sym, Hk; lia).
        apply Hrest. intros i' Hi'. apply Hk. lia.
    + rewrite Hrun'. destruct Hpreds' as (Hlenp & Hdone & Hrest).
      eexists; split; [done|]. split; [done|]. split.
      * intros i g x Hi Hg Hx.
        rewrite (group_values_snoc _ model g tb t gi tree) by (lia || done).
        rewrite foldl_app. specialize (Hcells i g x Hi Hg Hx).
        case_decide as Hgg.
        -- subst g. by rewrite (Hdone i _ Hi Hcells).
        -- simpl. rewrite <-Hcells. apply Hrest. intros i' Hi' Heq.
           pose proof (Hcell i g Hi Hg). pose proof (Hcell i' gi Hi' Hgi_range).
           destruct (Hinj i g i' gi); [done | done | lia | done].
      * intros k Hk. rewrite <-Hframe by done. apply Hrest.
        intros i' Hi'. pose proof (Hcell i' gi Hi' Hgi_range). lia.
  - eauto.
Qed.

(** The block a row belongs to. *)
Lemma block_of_row n b i :
  0 ≤ n < 2 ^ 32 → 0 ≤ i < n →
  (0 ≤ i / 64 < n_row_blocks kBlockOfRowsSize n)
  ∧ (i / 64 = b ↔ 64 * b ≤ i < 64 * b + Z.min (n - 64 * b) 64).
Proof.
  intros Hn Hi. rewrite n_row_blocks_ceil by done.
  pose proof (Z.div_mod i 64 ltac:(lia)).
  pose proof (Z.mod_pos_bound i 64 ltac:(lia)).
  pose proof (Z.div_mod (n + 63) 64 ltac:(lia)).
  pose proof (Z.mod_pos_bound (n + 63) 64 ltac:(lia)).
  lia.
Qed.

Lemma kernel_spec (sched : schedule)
    (out : list bst_float) (pool : list FVec.t) tb te :
  let n := view_Size batch in
  let base := view_base_rowid batch in
  inv batch →
  size_leaf_vector model = 0 →
  0 ≤ base →
  0 ≤ tb ≤ te → te < 2 ^ 31 →
  te ≤ vsize (trees model) → te ≤ vsize (tree_info model) →
  (∀ t gi, tb ≤ t < te → tree_info model !! Z.to_nat t = Some gi →
     0 ≤ gi < num_group) →
  schedule_ok threads sched →
  threads * 64 ≤ vsize pool → vsize pool < 2 ^ 64 →
  pool_ok features pool →
  (base + n) * num_group ≤ vsize out → vsize out < 2 ^ 64 →
  ∃ out' pool',
    PredictBatchByBlockOfRowsKernel kBlockOfRowsSize sched batch out model
      tb te pool = Ok (out', pool')
    ∧ length out' = length out
    ∧ length pool' = length pool
    ∧ pool_ok features pool'
    ∧ (∀ i g x, 0 ≤ i < n → 0 ≤ g < num_group →
         out !! Z.to_nat ((base + i) * num_group + g) = Some x →
         out' !! Z.to_nat ((base + i) * num_group + g)
         = Some (foldl fadd x
                   (group_values (row_leaf_value features (rows i)) model g
                      tb te)))
    ∧ (∀ k : nat, ¬ (base * num_group ≤ Z.of_nat k < (base + n) * num_group) →
         out' !! k = out !! k).
Proof.
  intros n base Hbatch Hslv Hbase Htb Hte32 Hte Hte' Hinfo Hsched Hpool
    Hpoolbig Hok Hfit Hbig.
  unfold PredictBatchByBlockOfRowsKernel, ParallelFor.
  rewrite bool_decide_eq_true_2 by done. simpl CHECK. rewrite bind_Ok.
  fold n base. fold num_group features.
  rewrite (wrap32_small n) by (subst n; lia).
  rewrite (to_int32_small num_group) by lia.
  rewrite (wrap64_small num_group), (wrap64_small tb), (wrap64_small te) by lia.
  assert (Hbn : base + n < 2 ^ 64) by nia.
  assert (Hn : 0 ≤ n < 2 ^ 32) by (subst n; lia).
  set (nb := n_row_blocks kBlockOfRowsSize n).
  destruct (Hsched nb) as [Hperm _].
  assert (Hnodup : NoDup (sched nb).*1).
  { rewrite Hperm. apply NoDup_seqZ. }
  set (cell := λ i g : Z, Z.to_nat ((base + i) * num_group + g)).
  match goal with
  | |- context [foldM ?body ?l ?s] =>
    destruct (foldM_prefix_inv
      (λ (done : list (Z * Z)) (st : list bst_float * list FVec.t * V),
        inv st.2 ∧ view_base_rowid st.2 = base
        ∧ length st.1.1 = length out
        ∧ length st.1.2 = length pool
        ∧ pool_ok features st.1.2
        ∧ (∀ i g x, 0 ≤ i < n → i / 64 ∈ done.*1 → 0 ≤ g < num_group →
             out !! cell i g = Some x →
             st.1.1 !! cell i g
             = Some (foldl fadd x
                       (group_values (PredValueByOneTree (filled i)) model g
                          tb te)))
        ∧ (∀ i g, 0 ≤ i < n → i / 64 ∉ done.*1 → 0 ≤ g < num_group →
             st.1.1 !! cell i g = out !! cell i g)
        ∧ (∀ k : nat,
             ¬ (base * num_group ≤ Z.of_nat k < (base + n) * num_group) →
             st.1.1 !! k = out !! k))
      body l s) as (st & Hrun & Hst)
  end.
  - cbn [fst snd]. repeat split; try done.
    intros i g x _ Hin. by apply elem_of_nil in Hin.
  - intros done [b t] rest [[o p] v] Hsplit
      (Hv & Hvbase & Hleno & Hlenp & Hokp & Hcells & Hrest & Hframe).
    cbn [fst snd] in *.
    assert (Htask : (b, t) ∈ sched nb).
    { rewrite Hsplit. apply elem_of_app. right. left. }
    destruct (schedule_task _ _ _ _ _ Hsched Htask) as [Hb Ht].
    assert (Hfresh : b ∉ done.*1).
    { rewrite Hsplit, fmap_app, fmap_cons in Hnodup. simpl in Hnodup.
      apply NoDup_app in Hnodup as (_ & Hdisj & _).
      intros Hin. apply (Hdisj b Hin). left. }
    destruct (block_bounds n b) as (Hoff & Hbsz & Hlt); [done | done |].
    rewrite Hoff, Hbsz.
    set (bs := Z.min (n - 64 * b) 64).
    rewrite (wrap64_small (t * kBlockOfRowsSize))
      by (unfold kBlockOfRowsSize; nia).
    set (fo := t * kBlockOfRowsSize).
    assert (Hfo : 0 ≤ fo ∧ fo + bs ≤ vsize p).
    { unfold fo, kBlockOfRowsSize, vsize in *. nia. }
    destruct (FVecFill_spec p v t bs (64 * b) fo)
      as (p1 & v1 & -> & Hv1 & Hbase1 & Hlen1 & Hfilled & Hframe1);
      [done | done | done | lia | lia | subst n; lia | lia | lia
      | unfold vsize in *; lia |].
    rewrite bind_Ok. cbn [fst snd].
    rewrite Hbase1, Hvbase.
    rewrite (wrap64_small (64 * b + base)) by lia.
    destruct (PredictByAllTrees_spec o p1 tb te (64 * b + base) fo bs (64 * b))
      as (o1 & -> & Hleno1 & Hcells1 & Hframeo1);
      [done | done | done | done | lia | lia
      | unfold vsize in *; nia | unfold vsize in *; lia | lia
      | unfold vsize in *; lia | done |].
    rewrite bind_Ok.
    destruct (FVecDrop_spec p p1 v1 t bs (64 * b) fo)
      as (p2 & v2 & -> & Hv2 & Hbase2 & Hlen2 & Hok2);
      [done | done | done | done | done | done | lia | lia | subst n; lia
      | lia | lia | unfold vsize in *; lia |].
    rewrite bind_Ok. eexists; split; [done|]. cbn [fst snd].
    assert (Hblock : ∀ i g, 0 ≤ i < n → 0 ≤ g < num_group → i / 64 ≠ b →
              o1 !! cell i g = o !! cell i g).
    { intros i g Hi Hg Hne. apply Hframeo1. unfold cell.
      destruct (block_of_row n b i Hn Hi) as [_ Hiff]. fold bs in Hiff.
      assert (¬ (64 * b ≤ i < 64 * b + bs)) by tauto.
      rewrite Z2Nat.id by (apply cell_nonneg; lia).
      intros Hin. apply cell_in_rows in Hin; lia. }
    split; [done|]. split; [congruence|].
    split; [congruence|]. split; [congruence|]. split; [done|]. split; [|split].
    + intros i g x Hi Hin Hg Hx.
      rewrite fmap_app in Hin. apply elem_of_app in Hin as [Hin|Hin].
      * rewrite Hblock;
          [by apply Hcells | done | done
          | intros Heq; apply Hfresh; by rewrite <-Heq].
      * apply list_elem_of_singleton in Hin. simpl in Hin.
        destruct (block_of_row n b i Hn Hi) as [_ Hiff]. fold bs in Hiff.
        apply Hiff in Hin.
        assert (Hnew : i / 64 ∉ done.*1).
        { destruct (block_of_row n b i Hn Hi) as [_ Hiff'].
          fold bs in Hiff'. apply Hiff' in Hin. by rewrite Hin. }
        pose proof (Hrest i g Hi Hnew Hg) as Hcur.
        unfold cell in *.
        replace ((base + i) * num_group + g)
          with ((64 * b + base + (i - 64 * b)) * num_group + g) in * by lia.
        replace i with (64 * b + (i - 64 * b)) at 2 by lia.
        apply Hcells1; [lia | done |]. by rewrite Hcur.
    + intros i g Hi Hnot Hg. rewrite fmap_app in Hnot.
      apply not_elem_of_app in Hnot as [Hnot Hnb].
      rewrite Hblock; [by apply Hrest | done | done |].
      intros Heq. apply Hnb. rewrite Heq. simpl. left.
    + intros k Hk. rewrite Hframeo1 by nia. by apply Hframe.
  - rewrite Hrun, bind_Ok. destruct st as [[out' pool'] v'].
    destruct Hst as (_ & _ & Hleno & Hlenp & Hokp & Hcells & _ & Hframe).
    cbn [fst snd] in *.
    exists out', pool'. repeat split; try done.
    intros i g x Hi Hg Hx.
    rewrite (group_values_ext (row_leaf_value features (rows i))
               (PredValueByOneTree (filled i)))
      by (intros tree; symmetry; apply PredValueByOneTree_leaf).
    apply Hcells; try done.
    rewrite Hperm. apply elem_of_seqZ.
    destruct (block_of_row n 0 i Hn Hi) as [Hrange _]. fold nb in Hrange. lia.
Qed.

End Kernel.

Section KernelContract.
Context {RegTree : Type} `{TreeOps RegTree} {V : Type} `{DataView V}.

(** An output cell inside the rows of a batch is the cell of one row and
    one group. *)
Lemma cell_decompose (G base n : Z) (k : nat) :
  0 < G → 0 ≤ base → 0 ≤ n →
  base * G ≤ Z.of_nat k < (base + n) * G →
  ∃ i g, 0 ≤ i < n ∧ 0 ≤ g < G ∧ k = Z.to_nat ((base + i) * G + g).
Proof.
  intros HG Hbase Hn Hk.
  exists (Z.of_nat k / G - base), (Z.of_nat k mod G).
  pose proof (Z.div_mod (Z.of_nat k) G ltac:(lia)) as Hdm.
  pose proof (Z.mod_pos_bound (Z.of_nat k) G ltac:(lia)) as Hmod.
  assert (base ≤ Z.of_nat k / G) by (apply Z.div_le_lower_bound; lia).
  assert (Z.of_nat k / G < base + n) by (apply Z.div_lt_upper_bound; lia).
  split; [lia|]. split; [done|].
  replace (base + (Z.of_nat k / G - base)) with (Z.of_nat k / G) by lia.
  rewrite (Z.mul_comm _ G), <-Hdm. lia.
Qed.

(** C1. The kernel cuts the rows of a row source, fewer than 2^32 as its
    32-bit row counter has them, into [ceil (rowCount / 64)] blocks of
    consecutive rows that, taken in order, are exactly the rows:
    every block but the last has 64 rows and the last has between 1 and 64.
    Whatever the order in which the blocks run and the workers that take
    them, it returns, and for every row [i] of the source and every group
    [g] the cell [(base_rowid + i) * numGroups + g] of the output holds its
    former value to which, for each tree of [tree_begin, tree_end) assigned
    to [g], the value [LeafValue] of the leaf that [GetLeafIndex] reaches
    for row [i] has been added once, in tree order; the other cells are
    untouched. *)
Theorem PredictBatchByBlockOfRowsKernel_contract (batch : V)
    (model : GBTreeModel RegTree) rows sched threads tree_begin tree_end
    out pool :
  let n := view_Size batch in
  let base := view_base_rowid batch in
  let G := num_output_group (learner_model_param model) in
  let nb := n_row_blocks kBlockOfRowsSize n in
  let feats i :=
    FVec.Fill (rows i) (FVec.Init (num_feature (learner_model_param model))) in
  kernel_ready batch model rows sched threads tree_begin tree_end out pool →
  nb = (n + 63) / 64
  ∧ concat (block_rows kBlockOfRowsSize n <$> seqZ 0 nb) = seqZ 0 n
  ∧ (∀ b, 0 ≤ b < nb →
       block_batch_offset kBlockOfRowsSize b = 64 * b
       ∧ 1 ≤ block_block_size kBlockOfRowsSize n b ≤ 64
       ∧ (b < nb - 1 → block_block_size kBlockOfRowsSize n b = 64))
  ∧ ∃ out' pool',
      PredictBatchByBlockOfRowsKernel kBlockOfRowsSize sched batch out
        model tree_begin tree_end pool = Ok (out', pool')
      ∧ length out' = length out
      ∧ (∀ i g x, 0 ≤ i < n → 0 ≤ g < G →
           out !! Z.to_nat ((base + i) * G + g) = Some x →
           out' !! Z.to_nat ((base + i) * G + g)
           = Some (foldl fadd x
                     (group_values
                        (λ tree,
                           LeafValue tree
                             (GetLeafIndex (FVec.HasMissing (feats i)) tree
                                (feats i)))
                        model g tree_begin tree_end)))
      ∧ (∀ k : nat, ¬ (base * G ≤ Z.of_nat k < (base + n) * G) →
           out' !! k = out !! k).
Proof.
  intros n base G nb feats [Hslv HG Hfeat Hsize Hbase (inv & Hinv & Hfetch)
                              Hrange Htrees Hinfo Hsched Hpool Hout].
  split; [by apply n_row_blocks_ceil|].
  split; [by apply block_rows_partition|].
  split.
  - intros b Hb. destruct (block_bounds n b) as (Hoff & Hbsz & Hlt); [done..|].
    split; [done|]. rewrite Hbsz. split; [lia|].
    intros Hlast. subst nb. rewrite n_row_blocks_ceil in Hlast by done.
    pose proof (Z.div_mod (n + 63) 64 ltac:(lia)).
    pose proof (Z.mod_pos_bound (n + 63) 64 ltac:(lia)). lia.
  - destruct (kernel_spec batch model rows threads inv Hfeat Hsize Hfetch HG
                sched out pool tree_begin tree_end)
      as (out' & pool' & Hrun & Hlen & _ & _ & Hcells & Hframe);
      try done; try tauto.
    exists out', pool'. done.
Qed.

(** Two buffers that the kernel's contract relates to the same input
    buffer are equal. *)
Lemma kernel_result_unique (G base n : Z) (val : Z → Z → bst_float → bst_float)
    (out out1 out2 : list bst_float) :
  0 < G → 0 ≤ base → 0 ≤ n → (base + n) * G ≤ vsize out →
  length out1 = length out → length out2 = length out →
  (∀ i g x, 0 ≤ i < n → 0 ≤ g < G →
     out !! Z.to_nat ((base + i) * G + g) = Some x →
     out1 !! Z.to_nat ((base + i) * G + g) = Some (val i g x)) →
  (∀ k : nat, ¬ (base * G ≤ Z.of_nat k < (base + n) * G) → out1 !! k = out !! k) →
  (∀ i g x, 0 ≤ i < n → 0 ≤ g < G →
     out !! Z.to_nat ((base + i) * G + g) = Some x →
     out2 !! Z.to_nat ((base + i) * G + g) = Some (val i g x)) →
  (∀ k : nat, ¬ (base * G ≤ Z.of_nat k < (base + n) * G) → out2 !! k = out !! k) →
  out1 = out2.
Proof.
  intros HG Hbase Hn Hfit Hlen1 Hlen2 Hcells1 Hframe1 Hcells2 Hframe2.
  apply list_eq. intros k.
  destruct (decide (base * G ≤ Z.of_nat k < (base + n) * G)) as [Hin|Hout].
  - destruct (cell_decompose G base n k) as (i & g & Hi & Hg & ->); [done..|].
    destruct (lookup_lt_is_Some_2 out (Z.to_nat ((base + i) * G + g)))
      as [x Hx]; [unfold vsize in *; lia|].
    by rewrite (Hcells1 i g x), (Hcells2 i g x).
  - by rewrite Hframe1, Hframe2.
Qed.

(** C6. Filling a clean feature vector with a row and dropping the row
    gives the vector back, so that filling it again gives the same filled
    vector and every tree evaluates it to the same value; and the kernel
    run a second time over the same rows, through the pool the first run
    leaves behind, returns the same output as the first run. *)
Theorem FVec_reuse_idempotent (batch : V) (model : GBTreeModel RegTree) rows
    sched threads tree_begin tree_end out pool :
  (∀ inst fv, FVec.clean fv →
     FVec.Drop inst (FVec.Fill inst fv) = fv
     ∧ ∀ tree,
         PredValueByOneTree
           (FVec.Fill inst (FVec.Drop inst (FVec.Fill inst fv))) tree
         = PredValueByOneTree (FVec.Fill inst fv) tree)
  ∧ (kernel_ready batch model rows sched threads tree_begin tree_end
       out pool →
     (∀ fv, fv ∈ pool → FVec.clean fv)
     ∧ ∃ out' pool' pool'',
         PredictBatchByBlockOfRowsKernel kBlockOfRowsSize sched batch out
           model tree_begin tree_end pool = Ok (out', pool')
         ∧ PredictBatchByBlockOfRowsKernel kBlockOfRowsSize sched batch
             out model tree_begin tree_end pool' = Ok (out', pool'')
         ∧ ∀ fv, fv ∈ pool' → FVec.clean fv).
Proof.
  split.
  { intros inst fv Hfv. split; [by apply FVec_Drop_Fill|].
    intros tree. by rewrite FVec_Drop_Fill. }
  intros [Hslv HG Hfeat Hsize Hbase (inv & Hinv & Hfetch) Hrange Htrees Hinfo
            Hsched Hpool Hout].
  assert (Hclean : ∀ p : list FVec.t,
            pool_ok (num_feature (learner_model_param model)) p →
            ∀ fv, fv ∈ p → FVec.clean fv).
  { intros p Hp fv Hfv. unfold pool_ok in Hp. rewrite Forall_forall in Hp.
    destruct (Hp fv Hfv) as [->| ->]; [constructor | apply FVec_Init_clean]. }
  split.
  - apply Hclean. tauto.
  - destruct (kernel_spec batch model rows threads inv Hfeat Hsize Hfetch HG
                sched out pool tree_begin tree_end)
      as (out1 & pool1 & Hrun1 & Hlen1 & Hplen1 & Hok1 & Hcells1 & Hframe1);
      try done; try tauto.
    destruct (kernel_spec batch model rows threads inv Hfeat Hsize Hfetch HG
                sched out pool1 tree_begin tree_end)
      as (out2 & pool2 & Hrun2 & Hlen2 & Hplen2 & Hok2 & Hcells2 & Hframe2);
      try done; try tauto.
    { unfold vsize in *. rewrite Hplen1. tauto. }
    { unfold vsize in *. rewrite Hplen1. tauto. }
    exists out1, pool1, pool2. split; [done|]. split; [|by apply Hclean].
    rewrite Hrun2. do 2 f_equal.
    symmetry.
    apply (kernel_result_unique
             (num_output_group (learner_model_param model))
             (view_base_rowid batch) (view_Size batch)
             (λ i g x, foldl fadd x
                (group_values
                   (row_leaf_value (num_feature (learner_model_param model))
                      (rows i))
                   model g tree_begin tree_end))
             out out1 out2);
      try done; try tauto; try lia.
Qed.

End KernelContract.

(** The example batch, model, pool and buffer are fit for the kernel. *)
Ltac ex_arith := first [lia | simpl; lia | vm_compute; intuition congruence].

Ltac ex_kernel_ready :=
  split;
  [ reflexivity | ex_arith | ex_arith | ex_arith | ex_arith
  | apply SparsePage_delivers; intros i Hi; change (0 ≤ i < 3) in Hi;
    assert (i = 0 ∨ i = 1 ∨ i = 2) as [->|[->| ->]] by lia; reflexivity
  | ex_arith | ex_arith
  | intros t gi Ht;
    assert (t = 0 ∨ t = 1 ∨ t = 2) as [->|[->| ->]] by lia;
    intros [= <-]; ex_arith
  | by apply in_order_ok
  | split; [ex_arith | split; [ex_arith | vm_compute; repeat constructor]]
  | split; ex_arith ].

Lemma PredictBatchByBlockOfRowsKernel_contract_witness :
  n_row_blocks kBlockOfRowsSize 3 = 1
  ∧ ∃ out' pool',
      PredictBatchByBlockOfRowsKernel kBlockOfRowsSize in_order ex_page ex_out
        ex_model 0 3 ex_pool = Ok (out', pool')
      ∧ length out' = 3%nat
      ∧ out' !! 2%nat = Some (f32 7 (-1)).
Proof.
  destruct (PredictBatchByBlockOfRowsKernel_contract ex_page ex_model ex_rows
              in_order 1 0 3 ex_out ex_pool)
    as (Hnb & _ & _ & out' & pool' & Hrun & Hlen & Hcells & _);
    [ex_kernel_ready|].
  split; [exact Hnb|]. exists out', pool'.
  split; [exact Hrun|]. split; [exact Hlen|].
  etrans; [apply (Hcells 2 0 (f32 1 (-1))); [ex_arith | ex_arith | reflexivity]|].
  vm_compute. reflexivity.
Defined.

Lemma FVec_reuse_idempotent_witness :
  FVec.Drop ex_row (FVec.Fill ex_row (FVec.Init 2)) = FVec.Init 2
  ∧ ∃ out' pool' pool'',
      PredictBatchByBlockOfRowsKernel kBlockOfRowsSize in_order ex_page ex_out
        ex_model 0 3 ex_pool = Ok (out', pool')
      ∧ PredictBatchByBlockOfRowsKernel kBlockOfRowsSize in_order ex_page ex_out
          ex_model 0 3 pool' = Ok (out', pool'').
Proof.
  destruct (FVec_reuse_idempotent ex_page ex_model ex_rows in_order 1 0 3
              ex_out ex_pool) as (Hfv & Hkernel).
  destruct Hkernel as (_ & out' & pool' & pool'' & Hrun1 & Hrun2 & _);
    [ex_kernel_ready|].
  split; [apply Hfv, FVec_Init_clean|].
  exists out', pool', pool''. split; [exact Hrun1 | exact Hrun2].
Defined.

(** ** Leaf-index prediction *)

Section Leaf.
Context {RegTree : Type} `{TreeOps RegTree}.

Lemma valid_trees_zero (model : GBTreeModel RegTree) :
  valid_trees model 0 = wrap32 (vsize (trees model)).
Proof. unfold valid_trees. rewrite decide_True; [done | by left]. Qed.

Lemma valid_trees_all (model : GBTreeModel RegTree) n :
  vsize (trees model) < 2 ^ 32 → n = 0 ∨ vsize (trees model) ≤ n →
  valid_trees model n = vsize (trees model).
Proof.
  intros HT Hn. pose proof (vsize_nonneg (trees model)). unfold valid_trees.
  case_decide; [apply wrap32_small; lia | lia].
Qed.

Lemma valid_trees_some (model : GBTreeModel RegTree) n :
  0 < n ≤ vsize (trees model) → valid_trees model n = n.
Proof. intros Hn. unfold valid_trees. case_decide; lia. Qed.

Lemma InitThreadTemp_fresh threads num_feature features :
  0 < threads < 2 ^ 31 →
  length (InitThreadTemp threads num_feature []) = Z.to_nat threads
  ∧ pool_ok features (InitThreadTemp threads num_feature []).
Proof.
  intros Ht. unfold InitThreadTemp.
  change (to_int32 (vsize (@nil FVec.t))) with 0. rewrite decide_True by lia.
  rewrite wrap64_small by lia. rewrite resize_nil. split.
  - by rewrite length_replicate.
  - apply Forall_replicate. by left.
Qed.

Lemma PredictLeaf_runs threads sched p_fmat out
    (model : GBTreeModel RegTree) n :
  predict_ready threads sched p_fmat model →
  vsize (trees model) < 2 ^ 32 → 0 ≤ n < 2 ^ 32 →
  num_row_ (Info p_fmat) * valid_trees model n < 2 ^ 64 →
  ∃ out',
    PredictLeaf threads sched p_fmat out model n = Ok out'
    ∧ vsize out' = num_row_ (Info p_fmat) * valid_trees model n.
Proof.
  intros [Hthreads Hsched Hfeat Hnrow Hbatches] HT Hn Hbig.
  unfold PredictLeaf.
  set (L := valid_trees model n) in *.
  set (features := num_feature (learner_model_param model)) in *.
  set (num_row := num_row_ (Info p_fmat)) in *.
  assert (HL : 0 ≤ L ≤ vsize (trees model)).
  { pose proof (vsize_nonneg (trees model)). subst L. unfold valid_trees.
    case_decide; [rewrite wrap32_small|]; lia. }
  destruct (InitThreadTemp_fresh threads (to_int32 features) features Hthreads)
    as [Hplen Hpok].
  rewrite (wrap64_small (num_row * L)) by nia.
  set (inv := λ st : list bst_float * list FVec.t,
    vsize st.1 = num_row * L ∧ length st.2 = Z.to_nat threads
    ∧ pool_ok features st.2).
  fold_inv inv st Hrun Hst.
  - unfold inv. simpl. split; [|done].
    unfold vsize. rewrite length_resize. nia.
  - intros batch st Hbatch Hinv.
    rewrite Forall_forall in Hbatches.
    destruct (Hbatches batch Hbatch) as (Hbase & Hfit & Hsmall).
    pose proof (vsize_nonneg (page_rows batch)) as Hnn.
    simpl. rewrite (wrap32_small (vsize (page_rows batch))) by lia.
    unfold ParallelFor.
    fold_inv inv st' Hrun' Hst'.
    + done.
    + intros [i tid] [preds pool] Htask (Hlen & Hpl & Hok). simpl in *.
      destruct (schedule_task _ _ _ _ _ Hsched Htask) as [Hi Htid].
      destruct (vec_get_in_range pool tid) as (fv & -> & Hfv);
        [unfold vsize; lia|].
      rewrite bind_Ok.
      unfold features at 1.
      rewrite (pool_ok_lookup model Hfeat pool _ fv) by done.
      fold features.
      destruct (vec_get_in_range (page_rows batch) i) as (row & -> & Hrow);
        [lia|].
      rewrite bind_Ok.
      rewrite (wrap64_small (base_rowid batch + i)) by lia.
      loop_inv (λ (_ : Z) (p : list bst_float), vsize p = num_row * L)
        preds' Hrun'' Hpreds'.
      * lia.
      * done.
      * intros j p Hj Hp.
        destruct (vec_get_in_range (trees model) j) as (tree & -> & _); [lia|].
        rewrite bind_Ok. rewrite wrap64_small by nia.
        rewrite vec_set_Ok by nia.
        eexists; split; [done|]. by rewrite vsize_insert.
      * rewrite Hrun'', bind_Ok.
        rewrite vec_set_Ok by (unfold vsize; lia). rewrite bind_Ok.
        eexists; split; [done|]. unfold inv. simpl.
        split; [done|]. rewrite length_insert. split; [done|].
        rewrite FVec_Drop_Fill by apply FVec_Init_clean.
        apply Forall_insert; [done | by right].
    + eauto.
  - rewrite Hrun, bind_Ok. exists st.1. split; [done|]. apply Hst.
Qed.

(** C7. Leaf-index prediction with tree limit 0 returns what it returns
    with the limit set to the number of trees, and so does every limit
    above the number of trees; a limit [n] between 1 and the number of
    trees is used as it is, whatever the number of output groups.  The
    call returns a buffer of [numRows * effectiveLimit] cells.  The number
    of trees is one that a limit, of 32 bits, can name. *)
Theorem PredictLeaf_tree_limit threads sched p_fmat out
    (model : GBTreeModel RegTree) :
  let T := vsize (trees model) in
  predict_ready threads sched p_fmat model →
  T < 2 ^ 32 → num_row_ (Info p_fmat) * T < 2 ^ 64 →
  PredictLeaf threads sched p_fmat out model 0
  = PredictLeaf threads sched p_fmat out model T
  ∧ (∀ n, T < n →
       PredictLeaf threads sched p_fmat out model n
       = PredictLeaf threads sched p_fmat out model T)
  ∧ (∀ n, 0 < n ≤ T → valid_trees model n = n)
  ∧ (∀ n, n = 0 ∨ T ≤ n → valid_trees model n = T)
  ∧ ∀ n, 0 ≤ n < 2 ^ 32 →
      ∃ out',
        PredictLeaf threads sched p_fmat out model n = Ok out'
        ∧ vsize out' = num_row_ (Info p_fmat) * valid_trees model n.
Proof.
  intros T Hready HT Hbig.
  assert (Heq : ∀ n, n = 0 ∨ T ≤ n →
            PredictLeaf threads sched p_fmat out model n
            = PredictLeaf threads sched p_fmat out model T).
  { intros n Hn. unfold PredictLeaf.
    rewrite (valid_trees_all model n), (valid_trees_all model T) by (done || lia).
    done. }
  split; [apply Heq; by left|].
  split; [intros n Hn; apply Heq; lia|].
  split; [apply valid_trees_some|].
  split; [intros n Hn; by apply valid_trees_all|].
  intros n Hn. apply PredictLeaf_runs; [done..|].
  destruct Hready. pose proof (vsize_nonneg (trees model)).
  destruct (decide (n = 0 ∨ T ≤ n)).
  - by rewrite valid_trees_all.
  - rewrite valid_trees_some by lia. subst T. nia.
Qed.

End Leaf.

Lemma PredictLeaf_tree_limit_witness :
  PredictLeaf 1 in_order ex_dmat [] ex_model 0
  = PredictLeaf 1 in_order ex_dmat [] ex_model 3
  ∧ ∃ out', PredictLeaf 1 in_order ex_dmat [] ex_model 2 = Ok out'
            ∧ vsize out' = 6.
Proof.
  destruct (PredictLeaf_tree_limit 1 in_order ex_dmat [] ex_model)
    as (Hzero & _ & _ & _ & Hruns);
    [ split; [ ex_arith | by apply in_order_ok | ex_arith | ex_arith
             | repeat constructor; ex_arith ]
    | ex_arith | ex_arith |].
  split; [exact Hzero|]. apply (Hruns 2). lia.
Defined.

(** ** Contribution prediction *)

Lemma vec_upd_runs {A} (v : list A) (i : Z) (f : A → A) :
  0 ≤ i < vsize v → ∃ v', vec_upd v i f = Ok v' ∧ vsize v' = vsize v.
Proof.
  intros Hi. destruct (vec_upd_in_range v i f Hi) as (x & _ & ->).
  eexists; split; [done|]. apply vsize_insert.
Qed.

Lemma slot_bound (r g R G N : Z) :
  0 ≤ r < R → 0 ≤ g < G → 0 < N →
  0 ≤ r * G + g ∧ r * G + g < R * G
  ∧ 0 ≤ (r * G + g) * N ∧ (r * G + g) * N + N ≤ R * N * G.
Proof.
  intros Hr Hg HN.
  assert (0 ≤ r * G + g) by nia.
  assert (r * G + g + 1 ≤ R * G) by nia.
  repeat split; nia.
Qed.

Section Contribution.
Context {RegTree : Type} `{TreeOps RegTree}.

(** The output buffer handed to [PredictContribution] is resized and
    zeroed: what it held does not matter. *)
Lemma PredictContribution_buffer threads sched p_fmat out1 out2
    (model : GBTreeModel RegTree) ntree_limit tree_weights approximate
    group_indices num_feat_group condition condition_feature :
  PredictContribution threads sched p_fmat out1 model ntree_limit
    tree_weights approximate group_indices num_feat_group
    condition condition_feature
  = PredictContribution threads sched p_fmat out2 model ntree_limit
      tree_weights approximate group_indices num_feat_group
      condition condition_feature.
Proof. unfold PredictContribution. by rewrite !length_resize. Qed.

Lemma PredictContribution_runs threads sched p_fmat out
    (model : GBTreeModel RegTree) ntree_limit tree_weights approximate
    group_indices num_feat_group condition condition_feature :
  contribution_ready threads sched p_fmat model ntree_limit tree_weights
    group_indices num_feat_group →
  ∃ contribs,
    PredictContribution threads sched p_fmat out model ntree_limit
      tree_weights approximate group_indices num_feat_group
      condition condition_feature = Ok contribs
    ∧ vsize contribs
      = num_row_ (Info p_fmat)
        * (selected_features model group_indices num_feat_group + 1)
        * num_output_group (learner_model_param model).
Proof.
  intros [[Hthreads Hsched Hfeat Hnrow Hbatches] Hlimit HG Hcols [HT Hinfo]
            Hweights Hmargin Hbig].
  unfold PredictContribution.
  set (lp := learner_model_param model) in *.
  set (G := num_output_group lp) in *.
  set (num_row := num_row_ (Info p_fmat)) in *.
  set (L := valid_trees model ntree_limit) in *.
  set (N := selected_features model group_indices num_feat_group + 1) in *.
  assert (HL : 0 ≤ L ≤ vsize (trees model)).
  { pose proof (vsize_nonneg (trees model)). subst L. unfold valid_trees.
    case_decide; [rewrite wrap32_small|]; lia. }
  rewrite (to_int32_small G) by lia.
  rewrite (to_int32_small (num_feature lp)) by lia.
  rewrite (bool_decide_eq_true_2 (G ≠ 0)) by lia. simpl CHECK. rewrite bind_Ok.
  assert (HN : wrap64 (to_int32 ((if group_indices is None then num_feature lp
                                  else num_feat_group) + 1)) = N).
  { unfold N, selected_features in *. fold lp in Hcols |- *.
    destruct group_indices; rewrite to_int32_small, wrap64_small; lia. }
  rewrite HN. rewrite (bool_decide_eq_true_2 (N ≠ 0)) by lia.
  simpl CHECK. rewrite bind_Ok.
  rewrite (wrap64_small (num_row * N * G)) by nia.
  rewrite length_resize.
  destruct (InitThreadTemp_fresh threads (num_feature lp) (num_feature lp)
              Hthreads) as [Hplen Hpok].
  set (total := num_row * N * G) in *.
  set (inv := λ st : list bst_float * list FVec.t,
    vsize st.1 = total ∧ length st.2 = Z.to_nat threads
    ∧ pool_ok (num_feature lp) st.2).
  fold_inv inv st Hrun Hst.
  - unfold inv. simpl. split; [|done].
    unfold vsize. rewrite length_replicate. nia.
  - intros batch st Hbatch Hinv.
    rewrite Forall_forall in Hbatches.
    destruct (Hbatches batch Hbatch) as (Hbase & Hfit & Hsmall).
    pose proof (vsize_nonneg (page_rows batch)) as Hnn.
    simpl. rewrite (wrap32_small (vsize (page_rows batch))) by lia.
    unfold ParallelFor.
    fold_inv inv st' Hrun' Hst'.
    + done.
    + intros [i tid] [contribs pool] Htask (Hlen & Hpl & Hok). simpl in *.
      destruct (schedule_task _ _ _ _ _ Hsched Htask) as [Hi Htid].
      destruct (vec_get_in_range pool tid) as (fv & -> & Hfv);
        [unfold vsize; lia|].
      rewrite bind_Ok.
      rewrite (pool_ok_pick (num_feature lp) pool _ fv)
        by (done || apply wrap64_small; lia).
      destruct (vec_get_in_range (page_rows batch) i) as (row & -> & Hrow);
        [lia|].
      rewrite bind_Ok.
      rewrite (wrap64_small (base_rowid batch + i)) by lia.
      set (row_idx := base_rowid batch + i).
      loop_inv (λ (_ : Z) (s : list bst_float * FVec.t),
        vsize s.1 = total ∧ s.2 = FVec.Init (num_feature lp))
        s' Hrun'' Hs'.
      * lia.
      * done.
      * intros gid [c fv'] Hgid [Hc ->]. simpl in *.
        destruct (slot_bound row_idx gid num_row G N)
          as (Hs0 & Hs1 & Hp0 & Hp1); [unfold row_idx; lia | lia | lia |].
        fold total in Hp1.
        rewrite (wrap64_small ((row_idx * G + gid) * N)) by lia.
        set (p := (row_idx * G + gid) * N) in *.
        destruct (vec_get_in_range c p) as (x0 & -> & _); [lia|].
        rewrite bind_Ok.
        loop_inv (λ (_ : Z) (c' : list bst_float), vsize c' = total)
          c1 Hrun1 Hc1.
        -- lia.
        -- done.
        -- intros j c' Hj Hc'.
           destruct (vec_get_in_range (tree_info model) j) as (gi & -> & _);
             [lia|].
           rewrite bind_Ok. case_decide; [eauto|].
           destruct (vec_get_in_range (trees model) j) as (tree & -> & _);
             [lia|].
           rewrite bind_Ok.
           loop_inv (λ (_ : Z) (c'' : list bst_float), vsize c'' = total)
             c2 Hrun2 Hc2.
           ++ lia.
           ++ done.
           ++ intros ci c'' Hci Hc''.
              assert (Hw : ∃ w, (if tree_weights is Some tw then vec_get tw j
                                 else Ok fone) = Ok w).
              { destruct tree_weights as [tw|]; [|eauto].
                destruct (vec_get_in_range tw j) as (w & -> & _); [|eauto].
                specialize (Hweights tw eq_refl). lia. }
              destruct Hw as [w ->]. rewrite bind_Ok.
              destruct (vec_upd_runs c'' (p + ci)
                          (λ x, fadd x (fmul
                             ((if approximate
                               then CalculateContributionsApprox tree
                                      (FVec.Fill row (FVec.Init (num_feature lp)))
                               else CalculateContributions tree
                                      (FVec.Fill row (FVec.Init (num_feature lp)))
                                      group_indices num_feat_group condition
                                      condition_feature) ci) w)))
                as (c3 & -> & Hc3); [lia|].
              eexists; split; [done|]. congruence.
           ++ eauto.
        -- rewrite Hrun1, bind_Ok.
           assert (Hbias : ∃ c2,
             (if decide (vsize (base_margin_ (Info p_fmat)) ≠ 0) then
                b ← vec_get (base_margin_ (Info p_fmat))
                      (wrap64 (row_idx * G + gid));
                vec_upd c1 (p + (N - 1)) (λ x, fadd x b)
              else vec_upd c1 (p + (N - 1)) (λ x, fadd x (base_score lp)))
             = Ok c2 ∧ vsize c2 = total).
           { case_decide as Hbm.
             - destruct Hmargin as [Hnil|Hcover];
                 [rewrite Hnil in Hbm; done|].
               rewrite wrap64_small by nia.
               destruct (vec_get_in_range (base_margin_ (Info p_fmat))
                           (row_idx * G + gid)) as (b & -> & _); [lia|].
               rewrite bind_Ok.
               destruct (vec_upd_runs c1 (p + (N - 1)) (λ x, fadd x b))
                 as (c2 & -> & Hc2); [lia|].
               eexists; split; [done|]. congruence.
             - destruct (vec_upd_runs c1 (p + (N - 1))
                           (λ x, fadd x (base_score lp)))
                 as (c2 & -> & Hc2); [lia|].
               eexists; split; [done|]. congruence. }
           destruct Hbias as (c2 & -> & Hc2). rewrite bind_Ok.
           eexists; split; [done|]. simpl. split; [done|].
           apply FVec_Drop_Fill, FVec_Init_clean.
      * rewrite Hrun'', bind_Ok. destruct s' as [c' fv'], Hs' as [Hc' ->].
        simpl. rewrite vec_set_Ok by (unfold vsize; lia). rewrite bind_Ok.
        eexists; split; [done|]. unfold inv. simpl.
        split; [done|]. rewrite length_insert. split; [done|].
        apply Forall_insert; [done | by right].
    + eauto.
  - rewrite Hrun, bind_Ok. exists st.1. split; [done|]. apply Hst.
Qed.

End Contribution.

(** C4, on the code.  A base margin that is present is added to the bias
    slot whatever its length: with one row, one group and a margin of two
    entries the bias is the first entry, 5, and not the base score 0.5;
    with two rows and a margin of one entry the second row reads past the
    end of the margin. *)
Lemma PredictContribution_bias_mis_sized_margin :
  PredictContribution 1 in_order ex_long_margin [] ex_model 0 None false None
    0 0 0 = Ok [fzero; fzero; f32 5 0]
  ∧ base_score (learner_model_param ex_model) = f32 1 (-1)
  ∧ PredictContribution 1 in_order ex_short_margin [] ex_model 0 None false
      None 0 0 0 = Err OutOfBounds.
Proof. vm_compute. repeat split. Qed.

(** ** Rounding in binary32

    The operations of binary32 are those of the Standard Library's
    [SpecFloat]: an exact result is computed as an integer mantissa at an
    exponent and rounded to 24 bits, to nearest with ties to even.  This
    part bounds what one rounding, and with it one addition or
    subtraction, can lose. *)

Lemma digits2_pos_bounds (p : positive) :
  2 ^ (Z.pos (digits2_pos p) - 1) ≤ Z.pos p < 2 ^ Z.pos (digits2_pos p).
Proof.
  induction p as [p IH|p IH|]; cbn [digits2_pos].
  - rewrite Pos2Z.inj_succ, Pos2Z.inj_xI.
    replace (Z.succ (Z.pos (digits2_pos p)) - 1)
      with (Z.succ (Z.pos (digits2_pos p) - 1)) by lia.
    rewrite !Z.pow_succ_r by lia.
    destruct IH as [IHlo IHhi]. revert IHlo IHhi.
    generalize (2 ^ (Z.pos (digits2_pos p) - 1)) (2 ^ Z.pos (digits2_pos p)).
    lia.
  - rewrite Pos2Z.inj_succ, (Pos2Z.inj_xO p).
    replace (Z.succ (Z.pos (digits2_pos p)) - 1)
      with (Z.succ (Z.pos (digits2_pos p) - 1)) by lia.
    rewrite !Z.pow_succ_r by lia.
    destruct IH as [IHlo IHhi]. revert IHlo IHhi.
    generalize (2 ^ (Z.pos (digits2_pos p) - 1)) (2 ^ Z.pos (digits2_pos p)).
    lia.
  - simpl. lia.
Qed.

Lemma digits2_pos_unique (p : positive) (d : Z) :
  2 ^ (d - 1) ≤ Z.pos p < 2 ^ d → Z.pos (digits2_pos p) = d.
Proof.
  intros [Hlo Hhi]. pose proof (digits2_pos_bounds p) as [Hlo' Hhi'].
  set (d' := Z.pos (digits2_pos p)) in *.
  assert (0 < d') by (unfold d'; lia).
  assert (0 < d).
  { destruct (Z_lt_le_dec 0 d) as [|Hd]; [done|]. exfalso.
    destruct (decide (d = 0)) as [->|Hne]; [simpl in Hhi; lia|].
    rewrite Z.pow_neg_r in Hhi by lia. lia. }
  destruct (Z.lt_trichotomy d d') as [Hlt|[->|Hlt]]; [|done|].
  - assert (2 ^ d ≤ 2 ^ (d' - 1)) by (apply Z.pow_le_mono_r; lia). lia.
  - assert (2 ^ d' ≤ 2 ^ (d - 1)) by (apply Z.pow_le_mono_r; lia). lia.
Qed.

Lemma pos_iter_xO (m d : positive) :
  Z.pos (Pos.iter xO m d) = Z.pos m * 2 ^ Z.pos d.
Proof.
  induction d as [|d IH] using Pos.peano_ind.
  - simpl. lia.
  - rewrite Pos.iter_succ, (Pos2Z.inj_xO (Pos.iter xO m d)), IH, Pos2Z.inj_succ, Z.pow_succ_r by lia.
    lia.
Qed.

Lemma fexp32 e : fexp 24 128 e = Z.max (e - 24) (-149).
Proof. reflexivity. Qed.

Lemma pow2_pos k : 0 ≤ k → 0 < 2 ^ k.
Proof. intros. apply Z.pow_pos_nonneg; lia. Qed.

Lemma shifted_start (M : Z) :
  0 ≤ M → shifted M 0 {| shr_m := M; shr_r := false; shr_s := false |}.
Proof. intros HM. unfold shifted. simpl. lia. Qed.

Lemma shr_1_shifted (M k : Z) (r : shr_record) :
  0 ≤ k → shifted M k r → shifted M (k + 1) (shr_1 r).
Proof.
  intros Hk. destruct r as [m b s]. unfold shifted.
  rewrite (Z.pow_add_r 2 k 1), Z.pow_1_r by lia.
  pose proof (pow2_pos k Hk) as HP. revert HP. generalize (2 ^ k). intros P HP.
  destruct m as [|[p|p|]|p]; destruct b, s; cbn [shr_1 shr_m shr_r shr_s orb];
    intros (Hm & Hrem & Hlo & Hhi & Hzero & Hhalf);
    rewrite ?(Pos2Z.inj_xI p), ?(Pos2Z.inj_xO p) in *;
    repeat split; intros; try discriminate; try lia.
Qed.


Lemma iter_pos_shifted (M : Z) (p : positive) :
  ∀ k r, 0 ≤ k → shifted M k r →
    shifted M (k + Z.pos p) (SpecFloat.iter_pos shr_1 p r).
Proof.
  induction p as [p IH|p IH|]; intros k r Hk Hr; cbn [SpecFloat.iter_pos].
  - replace (k + Z.pos p~1) with (k + 1 + Z.pos p + Z.pos p) by lia.
    apply IH; [lia|]. apply IH; [lia|]. by apply shr_1_shifted.
  - replace (k + Z.pos p~0) with (k + Z.pos p + Z.pos p) by lia.
    apply IH; [lia|]. by apply IH.
  - by apply shr_1_shifted.
Qed.

(** Rounding the shifted mantissa to nearest, ties to even, misses the
    mantissa by at most half of the last place. *)
Lemma round_nearest_even_shifted (M k : Z) (r : shr_record) :
  0 ≤ k → shifted M k r →
  let m2 := round_nearest_even (shr_m r) (loc_of_shr_record r) in
  shr_m r ≤ m2 ≤ shr_m r + 1 ∧ 2 * Z.abs (m2 * 2 ^ k - M) ≤ 2 ^ k.
Proof.
  intros Hk. destruct r as [m b s]. unfold shifted.
  pose proof (pow2_pos k Hk) as HP. revert HP. generalize (2 ^ k). intros P HP.
  cbn [shr_m shr_r shr_s].
  intros (Hm & Hrem & Hlo & Hhi & Hzero & Hhalf).
  destruct b, s; cbn [loc_of_shr_record round_nearest_even];
    try destruct (Z.even m);
    (split; [lia|]);
    pose proof (Hlo); pose proof Hhi; pose proof Hzero; pose proof Hhalf; lia.
Qed.


(** A shift by [n] places, when there is one. *)
Lemma shr_shifted (M e n : Z) :
  0 ≤ M →
  let r := shr {| shr_m := M; shr_r := false; shr_s := false |} e n in
  shifted M (Z.max n 0) r.1 ∧ r.2 = e + Z.max n 0.
Proof.
  intros HM. destruct n as [|p|p]; cbn [shr fst snd].
  - split; [by apply shifted_start | lia].
  - rewrite Z.max_l by lia. split; [|done].
    apply (iter_pos_shifted M p 0); [lia | by apply shifted_start].
  - split; [by apply shifted_start | lia].
Qed.

Lemma binary_round_aux_exact (s : bool) (mz : positive) (ez : Z) :
  fexp 24 128 (Z.pos (digits2_pos mz) + ez) ≤ ez →
  binary_round_aux 24 128 s (Z.pos mz) ez loc_Exact
  = if ez <=? 104 then S754_finite s mz ez else S754_infinity s.
Proof.
  intros Hn. unfold binary_round_aux, shr_fexp.
  cbn [Zdigits2 shr_record_of_loc].
  assert (Hshr : ∀ r, shr r ez (fexp 24 128 (Z.pos (digits2_pos mz) + ez) - ez)
                      = (r, ez)).
  { intros r. unfold shr.
    destruct (fexp 24 128 (Z.pos (digits2_pos mz) + ez) - ez) eqn:E; try done.
    lia. }
  rewrite Hshr. cbn [shr_m loc_of_shr_record round_nearest_even Zdigits2].
  rewrite Hshr. cbn [shr_m]. done.
Qed.


(** With a shift, the mantissa is rounded to 24 bits, to nearest. *)
Lemma binary_round_aux_rounds (s : bool) (mz : positive) (ez : Z) :
  let d := Z.pos (digits2_pos mz) in
  -149 ≤ ez → 24 < d →
  ∃ m2,
    2 ^ 23 ≤ m2 ≤ 2 ^ 24
    ∧ 2 * Z.abs (m2 * 2 ^ (d - 24) - Z.pos mz) ≤ 2 ^ (d - 24)
    ∧ match binary_round_aux 24 128 s (Z.pos mz) ez loc_Exact with
      | S754_finite s' m' e' =>
        s' = s ∧ -149 ≤ e'
        ∧ Z.pos m' * 2 ^ (e' + 149) = m2 * 2 ^ (ez + (d - 24) + 149)
      | S754_infinity _ => True
      | _ => False
      end.
Proof.
  intros d Hez Hd.
  unfold binary_round_aux, shr_fexp. cbn [Zdigits2 shr_record_of_loc]. fold d.
  rewrite fexp32. rewrite (Z.max_l (d + ez - 24)) by lia.
  replace (d + ez - 24 - ez) with (d - 24) by lia.
  destruct (shr_shifted (Z.pos mz) ez (d - 24) ltac:(lia)) as [Hr1 He1].
  destruct (shr _ ez (d - 24)) as [r1 e1]. cbn [fst snd] in Hr1, He1.
  rewrite Z.max_l in Hr1, He1 by lia.
  destruct (round_nearest_even_shifted (Z.pos mz) (d - 24) r1 ltac:(lia) Hr1)
    as [Hm2 Herr].
  set (m2 := round_nearest_even (shr_m r1) (loc_of_shr_record r1)) in *.
  pose proof (digits2_pos_bounds mz) as [Hlo Hhi]. fold d in Hlo, Hhi.
  destruct Hr1 as (Hm1 & Hrem & _).
  assert (HP : 0 < 2 ^ (d - 24)) by (apply pow2_pos; lia).
  assert (Hd1 : 2 ^ (d - 1) = 2 ^ 23 * 2 ^ (d - 24)).
  { rewrite <-Z.pow_add_r by lia. f_equal. lia. }
  assert (Hd0 : 2 ^ d = 2 ^ 24 * 2 ^ (d - 24)).
  { rewrite <-Z.pow_add_r by lia. f_equal. lia. }
  rewrite Hd1 in Hlo. rewrite Hd0 in Hhi.
  assert (Hm1r : 2 ^ 23 ≤ shr_m r1 < 2 ^ 24).
  { revert HP Hlo Hhi Hrem. generalize (2 ^ (d - 24)). intros P HP Hlo Hhi Hrem.
    split.
    - destruct (Z_lt_le_dec (shr_m r1) (2 ^ 23)) as [Hlt|]; [|done]. exfalso.
      assert ((shr_m r1 + 1) * P ≤ 2 ^ 23 * P)
        by (apply Z.mul_le_mono_nonneg_r; lia). lia.
    - destruct (Z_lt_le_dec (shr_m r1) (2 ^ 24)) as [|Hge]; [done|]. exfalso.
      assert (2 ^ 24 * P ≤ shr_m r1 * P)
        by (apply Z.mul_le_mono_nonneg_r; lia). lia. }
  exists m2. split; [lia|]. split; [done|].
  destruct m2 as [|q|q] eqn:Hq; [lia | | lia].
  cbn [Zdigits2].
  destruct (decide (q = 16777216%positive)) as [->|Hne].
  - change (Z.pos (digits2_pos 16777216)) with 25.
    rewrite fexp32. subst e1.
    rewrite (Z.max_l _ (-149)) by lia.
    replace (25 + (ez + (d - 24)) - 24 - (ez + (d - 24))) with 1 by lia.
    cbn [shr SpecFloat.iter_pos shr_1 shr_m orb].
    destruct (_ <=? _); [|done]. split; [done|]. split; [lia|].
    replace (ez + (d - 24) + 1 + 149) with (ez + (d - 24) + 149 + 1) by lia.
    rewrite (Z.pow_add_r 2 (ez + (d - 24) + 149) 1) by lia. lia.
  - rewrite (digits2_pos_unique q 24) by lia.
    rewrite fexp32. subst e1.
    rewrite (Z.max_l _ (-149)) by lia.
    replace (24 + (ez + (d - 24)) - 24 - (ez + (d - 24))) with 0 by lia.
    cbn [shr shr_m].
    destruct (_ <=? _); [|done]. split; [done|]. split; [lia|]. done.
Qed.


Lemma shl_align_units (mx : positive) (ex ez : Z) :
  -149 ≤ ez ≤ ex →
  Z.pos (shl_align mx ex ez).1 * 2 ^ (ez + 149) = Z.pos mx * 2 ^ (ex + 149)
  ∧ (shl_align mx ex ez).2 = ez.
Proof.
  intros Hez. unfold shl_align.
  destruct (ez - ex) as [|dd|dd] eqn:E; cbn [fst snd]; try lia.
  - assert (ez = ex) as -> by lia. done.
  - rewrite pos_iter_xO. split; [|done].
    replace (ex + 149) with (Z.pos dd + (ez + 149)) by lia.
    rewrite (Z.pow_add_r 2 (Z.pos dd)) by lia. lia.
Qed.

(** Rounding a mantissa at an exponent of binary32: the result, when
    finite, has the sign given, an exponent of binary32 and misses the
    value by at most 2^-24 of its own magnitude. *)
Lemma binary_round_error (s : bool) (m : positive) (e : Z) :
  -149 ≤ e →
  match binary_round 24 128 s m e with
  | S754_finite s' m' e' =>
    s' = s ∧ -149 ≤ e'
    ∧ 2 ^ 24 * Z.abs (Z.pos m' * 2 ^ (e' + 149) - Z.pos m * 2 ^ (e + 149))
      ≤ Z.pos m' * 2 ^ (e' + 149)
  | S754_infinity _ => True
  | _ => False
  end.
Proof.
  intros He. unfold binary_round.
  set (d := Z.pos (digits2_pos m)).
  assert (Hd : 0 < d) by (unfold d; lia).
  pose proof (pow2_pos (e + 149) ltac:(lia)) as HU.
  destruct (Z_le_gt_dec d 24) as [Hsmall|Hbig].
  - (* nothing to round *)
    assert (Hf : -149 ≤ fexp 24 128 (d + e) ≤ e) by (rewrite fexp32; lia).
    destruct (shl_align_units m e (fexp 24 128 (d + e)) Hf) as [Hval Hexp].
    destruct (shl_align m e (fexp 24 128 (d + e))) as [mz ez].
    cbn [fst snd] in Hval, Hexp. subst ez.
    rewrite binary_round_aux_exact.
    + destruct (_ <=? _); [|done]. split; [done|]. split; [lia|].
      rewrite Hval, Z.sub_diag. simpl Z.abs. lia.
    + enough (Z.pos (digits2_pos mz) + fexp 24 128 (d + e) = d + e) as ->
        by lia.
      pose proof (digits2_pos_bounds m) as [Hlo Hhi]. fold d in Hlo, Hhi.
      set (f := fexp 24 128 (d + e)) in *.
      enough (Z.pos (digits2_pos mz) = d + (e - f)) by lia.
      apply digits2_pos_unique.
      assert (Hmz : Z.pos mz = Z.pos m * 2 ^ (e - f)).
      { pose proof (pow2_pos (f + 149) ltac:(lia)) as HF.
        replace (e + 149) with (e - f + (f + 149)) in Hval by lia.
        rewrite (Z.pow_add_r 2 (e - f) (f + 149)) in Hval by lia.
        apply (Z.mul_cancel_r _ _ (2 ^ (f + 149))); lia. }
      rewrite Hmz.
      replace (d + (e - f) - 1) with (d - 1 + (e - f)) by lia.
      rewrite (Z.pow_add_r 2 (d - 1) (e - f)), (Z.pow_add_r 2 d (e - f)) by lia.
      pose proof (pow2_pos (e - f) ltac:(lia)) as HS.
      split; [apply Z.mul_le_mono_nonneg_r; lia|].
      apply Z.mul_lt_mono_pos_r; lia.
  - (* the mantissa is rounded to 24 bits *)
    assert (Hf : fexp 24 128 (d + e) = d + e - 24) by (rewrite fexp32; lia).
    unfold shl_align. rewrite Hf.
    destruct (d + e - 24 - e) as [|dd|dd] eqn:E; try lia.
    destruct (binary_round_aux_rounds s m e He ltac:(fold d; lia))
      as (m2 & Hm2 & Herr & Hres). fold d in Herr, Hres.
    destruct (binary_round_aux 24 128 s (Z.pos m) e loc_Exact)
      as [|s'| |s' m' e']; try done.
    destruct Hres as (-> & He' & Hval). split; [done|]. split; [done|].
    rewrite Hval.
    replace (e + (d - 24) + 149) with (d - 24 + (e + 149)) by lia.
    rewrite (Z.pow_add_r 2 (d - 24) (e + 149)) by lia.
    pose proof (pow2_pos (d - 24) ltac:(lia)) as HP.
    revert Herr HP HU. generalize (2 ^ (d - 24)) (2 ^ (e + 149)).
    intros P U Herr HP HU.
    replace (m2 * (P * U) - Z.pos m * U) with ((m2 * P - Z.pos m) * U) by ring.
    rewrite Z.abs_mul, (Z.abs_eq U) by lia.
    assert (2 ^ 24 * (Z.abs (m2 * P - Z.pos m) * U) ≤ 2 ^ 23 * P * U).
    { replace (2 ^ 24 * (Z.abs (m2 * P - Z.pos m) * U))
        with (2 ^ 23 * (2 * Z.abs (m2 * P - Z.pos m)) * U) by ring.
      apply Z.mul_le_mono_nonneg_r; [lia|].
      apply Z.mul_le_mono_nonneg_l; lia. }
    assert (2 ^ 23 * P * U ≤ m2 * (P * U)).
    { rewrite <-Z.mul_assoc. apply Z.mul_le_mono_nonneg_r; [|lia].
      apply Z.mul_nonneg_nonneg; lia. }
    lia.
Qed.


Lemma shr_fexp_exponent (m e : Z) (l : location) :
  -149 ≤ (shr_fexp 24 128 m e l).2.
Proof.
  unfold shr_fexp, shr. pose proof (fexp32 (Zdigits2 m + e)) as Hf.
  destruct (fexp 24 128 (Zdigits2 m + e) - e) eqn:E; cbn [snd]; lia.
Qed.

Lemma binary_round_aux_in_range (s : bool) (m e : Z) (l : location) :
  in_range (binary_round_aux 24 128 s m e l).
Proof.
  unfold binary_round_aux.
  destruct (shr_fexp 24 128 m e l) as [r1 e1].
  pose proof (shr_fexp_exponent
                (round_nearest_even (shr_m r1) (loc_of_shr_record r1)) e1
                loc_Exact) as He2.
  destruct (shr_fexp 24 128 _ e1 loc_Exact) as [r2 e2]. cbn [snd] in He2.
  destruct (shr_m r2); [done | | done].
  by destruct (_ <=? _).
Qed.

Lemma binary_normalize_in_range (m e : Z) (s : bool) :
  in_range (binary_normalize 24 128 m e s).
Proof.
  unfold binary_normalize, binary_round.
  destruct m as [|p|p]; [done | |];
    destruct (shl_align p e _) as [mz ez]; apply binary_round_aux_in_range.
Qed.

(** Normalising an integer at an exponent of binary32. *)
Lemma binary_normalize_error (S e : Z) :
  -149 ≤ e →
  let r := binary_normalize 24 128 S e false in
  is_finite r = true →
  2 ^ 24 * Z.abs (units r - S * 2 ^ (e + 149)) ≤ Z.abs (units r).
Proof.
  intros He r. subst r. unfold binary_normalize.
  destruct S as [|p|p].
  - intros _. simpl. lia.
  - pose proof (binary_round_error false p e He) as Hr.
    destruct (binary_round 24 128 false p e) as [|s'| |s' m' e']; try done.
    destruct Hr as (-> & He' & Herr). intros _. cbn [units cond_Zopp].
    pose proof (pow2_pos (e' + 149) ltac:(lia)). lia.
  - pose proof (binary_round_error true p e He) as Hr.
    destruct (binary_round 24 128 true p e) as [|s'| |s' m' e']; try done.
    destruct Hr as (-> & He' & Herr). intros _. cbn [units cond_Zopp].
    pose proof (pow2_pos (e' + 149) ltac:(lia)).
    replace (- (Z.pos m' * 2 ^ (e' + 149)) - Z.neg p * 2 ^ (e + 149))
      with (- (Z.pos m' * 2 ^ (e' + 149) - Z.pos p * 2 ^ (e + 149))) by lia.
    rewrite !Z.abs_opp. lia.
Qed.

Lemma units_aligned (s : bool) (m : positive) (e ez : Z) :
  -149 ≤ ez ≤ e →
  cond_Zopp s (Z.pos (shl_align m e ez).1) * 2 ^ (ez + 149)
  = units (S754_finite s m e).
Proof.
  intros Hez. destruct (shl_align_units m e ez Hez) as [Hval _].
  cbn [units]. destruct s; cbn [cond_Zopp]; lia.
Qed.

(** An addition or subtraction in binary32 whose result is finite misses
    the exact sum or difference by at most 2^-24 of the result. *)
Lemma fadd_error (x y : bst_float) :
  in_range x → in_range y → is_finite (fadd x y) = true →
  in_range (fadd x y)
  ∧ 2 ^ 24 * Z.abs (units (fadd x y) - (units x + units y))
    ≤ Z.abs (units (fadd x y)).
Proof.
  intros Hx Hy. unfold fadd.
  destruct x as [[]|[]| |sx mx ex], y as [[]|[]| |sy my ey];
    cbn [SFadd]; try (intros; discriminate);
    try (intros _; split; [done|]; simpl; lia).
  cbn [in_range] in *. intros Hfin.
  split; [apply binary_normalize_in_range|].
  set (ez := Z.min ex ey) in *.
    pose proof (binary_normalize_error
                  (cond_Zopp sx (Z.pos (shl_align mx ex ez).1)
                   + cond_Zopp sy (Z.pos (shl_align my ey ez).1)) ez
                  ltac:(lia) Hfin) as Herr.
    rewrite Z.mul_add_distr_r in Herr.
    rewrite !units_aligned in Herr by lia. exact Herr.
Qed.

Lemma fsub_error (x y : bst_float) :
  in_range x → in_range y → is_finite (fsub x y) = true →
  in_range (fsub x y)
  ∧ 2 ^ 24 * Z.abs (units (fsub x y) - (units x - units y))
    ≤ Z.abs (units (fsub x y)).
Proof.
  intros Hx Hy. unfold fsub.
  destruct x as [[]|[]| |sx mx ex], y as [[]|[]| |sy my ey];
    cbn [SFsub]; try (intros; discriminate);
    try (intros _; split; [done|]; simpl; lia);
    try (intros _; split; [done|]; destruct sy; simpl; lia).
  cbn [in_range] in *. intros Hfin.
  split; [apply binary_normalize_in_range|].
  set (ez := Z.min ex ey) in *.
    pose proof (binary_normalize_error
                  (cond_Zopp sx (Z.pos (shl_align mx ex ez).1)
                   - cond_Zopp sy (Z.pos (shl_align my ey ez).1)) ez
                  ltac:(lia) Hfin) as Herr.
    rewrite Z.mul_sub_distr_r in Herr.
    rewrite !units_aligned in Herr by lia. exact Herr.
Qed.

(** ** Interaction contributions *)

Lemma vec_get_at (v : list bst_float) (z : Z) :
  0 ≤ z < vsize v → vec_get v z = Ok (vec_at v z).
Proof.
  intros Hz. destruct (vec_get_in_range v z Hz) as (x & -> & Hx).
  unfold vec_at. by rewrite Hx.
Qed.

Lemma diagonal_value_snoc d inter i k :
  0 ≤ k →
  foldl (diagonal_step d inter i) fzero (seqZ 0 (k + 1))
  = diagonal_step d inter i (foldl (diagonal_step d inter i) fzero (seqZ 0 k)) k.
Proof. intros Hk. rewrite seqZ_app by lia. by rewrite foldl_app. Qed.

Lemma interaction_row_spec (ncolumns i o c : Z)
    (diag on off contribs : list bst_float) :
  let N := ncolumns + 1 in
  0 ≤ i < N → N < 2 ^ 64 →
  0 ≤ o → o + N ≤ vsize contribs → vsize contribs < 2 ^ 64 →
  0 ≤ c → c + N < 2 ^ 64 →
  c + N ≤ vsize diag → c + N ≤ vsize on → c + N ≤ vsize off →
  ∃ contribs',
    interaction_row ncolumns i o c diag on off contribs = Ok contribs'
    ∧ length contribs' = length contribs
    ∧ (∀ k, 0 ≤ k < N → k ≠ i →
         contribs' !! Z.to_nat (o + k) = Some (interaction_value on off c k))
    ∧ contribs' !! Z.to_nat (o + i)
      = Some (diagonal_value (vec_at diag (c + i)) (interaction_value on off c) i N)
    ∧ (∀ idx : nat, ¬ (o ≤ Z.of_nat idx < o + N) → contribs' !! idx = contribs !! idx).
Proof.
  intros N Hi HN Ho Hfit Hbig Hc HcN Hdiag Hon Hoff.
  unfold interaction_row. fold N.
  rewrite (wrap64_small N) by lia.
  rewrite (wrap64_small (o + i)) by lia.
  rewrite vec_set_Ok by lia. rewrite bind_Ok.
  set (d := vec_at diag (c + i)).
  set (inter := interaction_value on off c).
  loop_inv (λ k (cs : list bst_float),
    length cs = length contribs
    ∧ cs !! Z.to_nat (o + i)
      = Some (foldl (diagonal_step d inter i) fzero (seqZ 0 k))
    ∧ (∀ k', 0 ≤ k' < k → k' ≠ i → cs !! Z.to_nat (o + k') = Some (inter k'))
    ∧ (∀ idx : nat, ¬ (o ≤ Z.of_nat idx < o + N) → cs !! idx = contribs !! idx))
    contribs' Hrun Hcontribs'.
  - lia.
  - split; [by rewrite length_insert|]. split.
    + apply list_lookup_insert_eq. unfold vsize in *. lia.
    + split; [intros; lia|].
      intros idx Hidx. apply list_lookup_insert_ne. lia.
  - intros k cs Hk (Hlen & Hacc & Hdone & Hframe).
    assert (Hcs : vsize cs = vsize contribs) by (unfold vsize; lia).
    rewrite (wrap64_small (c + k)) by lia.
    rewrite diagonal_value_snoc by lia. unfold diagonal_step at 1.
    case_decide as Hki.
    + subst k. rewrite vec_get_at by lia. rewrite bind_Ok. fold d.
      rewrite (vec_upd_Ok cs (o + i) _ _ ltac:(lia) Hacc).
      eexists; split; [done|]. split; [by rewrite length_insert|]. split.
      * apply list_lookup_insert_eq. unfold vsize in *. lia.
      * split.
        -- intros k' Hk' Hne. rewrite list_lookup_insert_ne by lia.
           apply Hdone; lia.
        -- intros idx Hidx. rewrite list_lookup_insert_ne by lia. by apply Hframe.
    + rewrite !vec_get_at by lia. rewrite !bind_Ok.
      rewrite (wrap64_small (o + k)) by lia.
      rewrite vec_set_Ok by lia. rewrite bind_Ok.
      rewrite (vec_get_Ok _ _ (inter k));
        [| lia | apply list_lookup_insert_eq; unfold vsize in *; lia].
      rewrite bind_Ok.
      rewrite (vec_upd_Ok _ _ _
                 (foldl (diagonal_step d inter i) fzero (seqZ 0 k)));
        [| lia | by rewrite list_lookup_insert_ne by lia].
      eexists; split; [done|]. split; [by rewrite !length_insert|]. split.
      * apply list_lookup_insert_eq. rewrite length_insert.
        unfold vsize in *. lia.
      * split.
        -- intros k' Hk' Hne. rewrite list_lookup_insert_ne by lia.
           destruct (decide (k' = k)) as [->|Hne'].
           ++ apply list_lookup_insert_eq. unfold vsize in *. lia.
           ++ rewrite list_lookup_insert_ne by lia. apply Hdone; lia.
        -- intros idx Hidx. rewrite !list_lookup_insert_ne by lia.
           by apply Hframe.
  - destruct Hcontribs' as (Hlen & Hacc & Hdone & Hframe).
    exists contribs'. split; [done|]. split; [done|]. split; [done|].
    split; [done | done].
Qed.

Lemma matrix_cell_inj (G N j l i k j' l' i' k' : Z) :
  0 ≤ l < G → 0 ≤ l' < G → 0 ≤ i < N → 0 ≤ i' < N → 0 ≤ k < N → 0 ≤ k' < N →
  matrix_cell G N j l i k = matrix_cell G N j' l' i' k' →
  j = j' ∧ l = l' ∧ i = i' ∧ k = k'.
Proof.
  unfold matrix_cell. intros Hl Hl' Hi Hi' Hk Hk' Heq.
  apply cell_inj in Heq as [Heq ->]; [|done..].
  apply cell_inj in Heq as [Heq ->]; [|done..].
  apply cell_inj in Heq as [-> ->]; done.
Qed.

Lemma matrix_cell_bound (R G N j l i k : Z) :
  0 ≤ j < R → 0 ≤ l < G → 0 ≤ i < N → 0 ≤ k < N →
  0 ≤ matrix_cell G N j l i 0
  ∧ matrix_cell G N j l i k = matrix_cell G N j l i 0 + k
  ∧ matrix_cell G N j l i 0 + N ≤ R * G * N * N.
Proof.
  unfold matrix_cell. intros Hj Hl Hi Hk.
  destruct (slot_bound j l R G N) as (H0 & H1 & _ & _); [done | done | lia |].
  assert (0 ≤ (j * G + l) * N + i) by nia.
  assert ((j * G + l) * N + i + 1 ≤ R * G * N) by nia.
  split; [nia|]. split; [lia|]. nia.
Qed.

(** The offsets of row [j] and group [l] as the code computes them, in 32
    bits, are the mathematical ones when the matrix has fewer than 2^32
    cells. *)
Lemma interaction_offsets (R G N j l i : Z) :
  0 ≤ j < R → 0 ≤ l < G → 0 ≤ i < N → R * G * N * N < 2 ^ 32 →
  wrap32 (j * wrap32 (G * N * N) + l * wrap32 (N * N) + i * N)
  = matrix_cell G N j l i 0
  ∧ wrap32 (j * wrap32 (G * N) + l * N) = (j * G + l) * N.
Proof.
  intros Hj Hl Hi Hbig.
  destruct (matrix_cell_bound R G N j l i 0) as (H0 & _ & H1); [done..| lia |].
  destruct (slot_bound j l R G N) as (Hs0 & Hs1 & Hp0 & Hp1); [done | done | lia |].
  assert (HNN : 0 < N * N) by nia.
  assert (HGN : 0 < G * N) by nia.
  assert (HGNN : 0 < G * N * N) by nia.
  assert (HR : 1 ≤ R) by lia.
  assert (G * N * N ≤ R * G * N * N) by nia.
  assert (N * N ≤ G * N * N) by nia.
  assert (G * N ≤ G * N * N)
    by (assert (0 ≤ G * N * (N - 1)) by (apply Z.mul_nonneg_nonneg; lia); lia).
  assert (R * N * G ≤ R * G * N * N) by nia.
  rewrite (wrap32_small (G * N * N)), (wrap32_small (N * N)),
    (wrap32_small (G * N)) by lia.
  unfold matrix_cell in *. split.
  - rewrite <-(wrap32_small (((j * G + l) * N + i) * N + 0)) by lia.
    f_equal. ring.
  - rewrite <-(wrap32_small ((j * G + l) * N)) by lia. f_equal. ring.
Qed.

Section Interaction.
Context {RegTree : Type} `{TreeOps RegTree}.
Variables (threads : Z) (sched : schedule) (p_fmat : DMatrix)
  (model : GBTreeModel RegTree) (ntree_limit : Z)
  (tree_weights : option (list bst_float)) (approximate : bool)
  (group_indices : option (list Z)) (num_feat_group : Z).

Let G : Z := num_output_group (learner_model_param model).
Let N : Z := selected_features model group_indices num_feat_group + 1.
Let R : Z := num_row_ (Info p_fmat).
Let pass : Z → Z → list bst_float :=
  contribution_pass threads sched p_fmat model ntree_limit tree_weights
    approximate group_indices num_feat_group.

(** The value the composition stores for (j, l, i, k). *)
Let M (j l i k : Z) : bst_float :=
  let c := (j * G + l) * N in
  let inter := interaction_value (pass 1 i) (pass (-1) i) c in
  if decide (k = i) then diagonal_value (vec_at (pass 0 0) (c + i)) inter i N
  else inter k.

Hypothesis Hready :
  interaction_ready threads sched p_fmat model ntree_limit tree_weights
    group_indices num_feat_group.

Lemma contribution_pass_runs out condition condition_feature :
  PredictContribution threads sched p_fmat out model ntree_limit
    tree_weights approximate group_indices num_feat_group
    condition condition_feature = Ok (pass condition condition_feature)
  ∧ vsize (pass condition condition_feature) = R * N * G.
Proof.
  destruct Hready as [Hcr _].
  destruct (PredictContribution_runs threads sched p_fmat [] model
              ntree_limit tree_weights approximate group_indices num_feat_group
              condition condition_feature Hcr) as (v & Hv & Hlen).
  rewrite (PredictContribution_buffer _ _ _ out []).
  unfold pass, contribution_pass. rewrite Hv. done.
Qed.

Lemma PredictInteractionContributions_spec out :
  ∃ out',
    PredictInteractionContributions threads sched p_fmat out model
      ntree_limit tree_weights approximate group_indices num_feat_group
    = Ok out'
    ∧ vsize out' = R * G * N * N
    ∧ ∀ j l i k, 0 ≤ j < R → 0 ≤ l < G → 0 ≤ i < N → 0 ≤ k < N →
        out' !! Z.to_nat (matrix_cell G N j l i k) = Some (M j l i k).
Proof.
  pose proof Hready as [[[Hthreads Hsched Hfeat Hnrow Hbatches] Hlimit HG Hcols
                           [HT Hinfo] Hweights Hmargin Hbig] Hoff].
  fold G N R in HG, Hcols, Hbig, Hoff, Hnrow.
  assert (HN : 0 < N < 2 ^ 31) by (unfold N; lia).
  unfold PredictInteractionContributions.
  rewrite (to_int32_small (num_output_group (learner_model_param model)))
    by (fold G; lia).
  fold G R.
  assert (Hnc : wrap64 (if group_indices is None
                        then num_feature (learner_model_param model)
                        else wrap32 num_feat_group) = N - 1).
  { unfold N, selected_features in *.
    destruct group_indices; rewrite ?wrap32_small, wrap64_small; lia. }
  rewrite Hnc. replace (N - 1 + 1) with N by lia.
  set (total := R * G * N * N) in *.
  assert (Htot : 0 ≤ total) by (unfold total; nia).
  rewrite (wrap64_small total), (wrap64_small N) by lia.
  rewrite (proj1 (contribution_pass_runs _ 0 0)), bind_Ok.
  loop_inv (λ i (st : list bst_float * list bst_float * list bst_float),
    vsize st.1.1 = total
    ∧ ∀ i' j l k, 0 ≤ i' < i → 0 ≤ j < R → 0 ≤ l < G → 0 ≤ k < N →
        st.1.1 !! Z.to_nat (matrix_cell G N j l i' k) = Some (M j l i' k))
    st Hrun Hst.
  - lia.
  - simpl. split; [|intros; lia].
    unfold vsize. rewrite length_resize. lia.
  - intros i [[c0 off0] on0] Hi [Hc0 Hdone]. simpl in *.
    rewrite (wrap32_small i) by lia.
    rewrite (proj1 (contribution_pass_runs _ (-1) i)), bind_Ok.
    rewrite (proj1 (contribution_pass_runs _ 1 i)), bind_Ok.
    pose proof (proj2 (contribution_pass_runs [] 0 0)) as Hdiag.
    pose proof (proj2 (contribution_pass_runs [] (-1) i)) as Hoffl.
    pose proof (proj2 (contribution_pass_runs [] 1 i)) as Honl.
    loop_inv (λ j (cs : list bst_float),
      length cs = length c0
      ∧ (∀ j' l k, 0 ≤ j' < j → 0 ≤ l < G → 0 ≤ k < N →
           cs !! Z.to_nat (matrix_cell G N j' l i k) = Some (M j' l i k))
      ∧ (∀ idx : nat,
           (∀ j' l k, 0 ≤ j' < j → 0 ≤ l < G → 0 ≤ k < N →
              idx ≠ Z.to_nat (matrix_cell G N j' l i k)) →
           cs !! idx = c0 !! idx))
      c1 Hrun1 Hc1.
    + lia.
    + split; [done|]. split; [intros; lia | done].
    + intros j cs Hj (Hlen & Hrows & Hframe).
      loop_inv (λ l (cs' : list bst_float),
        length cs' = length c0
        ∧ (∀ l' k, 0 ≤ l' < l → 0 ≤ k < N →
             cs' !! Z.to_nat (matrix_cell G N j l' i k) = Some (M j l' i k))
        ∧ (∀ idx : nat,
             (∀ l' k, 0 ≤ l' < l → 0 ≤ k < N →
                idx ≠ Z.to_nat (matrix_cell G N j l' i k)) →
             cs' !! idx = cs !! idx))
        c2 Hrun2 Hc2.
      * lia.
      * split; [done|]. split; [intros; lia | done].
      * intros l cs' Hl (Hlen' & Hgroups & Hframe').
        destruct (interaction_offsets R G N j l i) as [-> ->]; [done..|].
        destruct (matrix_cell_bound R G N j l i 0) as (Ho0 & _ & Ho1);
          [done | done | done | lia |].
        destruct (slot_bound j l R G N) as (_ & _ & Hs0 & Hs1);
          [done | done | lia |].
        set (o := matrix_cell G N j l i 0) in *.
        set (c := (j * G + l) * N) in *.
        assert (R * N * G ≤ total) by (unfold total; nia).
        destruct (interaction_row_spec (N - 1) i o c (pass 0 0) (pass 1 i)
                    (pass (-1) i) cs')
          as (cs'' & -> & Hlen'' & Hoffd & Hdg & Hfr);
          [lia | lia | lia | unfold vsize in *; lia | unfold vsize in *; lia
          | lia | lia | lia | lia | lia |].
        replace (N - 1 + 1) with N in * by lia.
        assert (Hcellk : ∀ k, 0 ≤ k < N → matrix_cell G N j l i k = o + k).
        { intros k Hk. by destruct (matrix_cell_bound R G N j l i k)
            as (_ & -> & _). }
        eexists; split; [done|]. split; [congruence|]. split.
        -- intros l' k Hl' Hk.
           destruct (decide (l' = l)) as [->|Hne].
           ++ rewrite Hcellk by done. unfold M. fold c. case_decide.
              ** by subst k.
              ** by apply Hoffd.
           ++ rewrite Hfr; [apply Hgroups; [lia | done]|].
              intros Hin.
              destruct (matrix_cell_bound R G N j l' i k) as (Hb0 & _ & _);
                [done | lia | done | done |].
              pose proof (Hcellk (Z.of_nat (Z.to_nat (matrix_cell G N j l' i k)) - o)
                            ltac:(lia)) as Heq.
              destruct (matrix_cell_inj G N j l i
                          (Z.of_nat (Z.to_nat (matrix_cell G N j l' i k)) - o)
                          j l' i k) as (_ & ? & _); [lia..| | lia].
              destruct (matrix_cell_bound R G N j l' i k) as (_ & Hk0 & _);
                [done | lia | done | done |].
              lia.
        -- intros idx Hidx. rewrite Hfr; [apply Hframe'|].
           ++ intros l' k Hl' Hk. apply Hidx; [lia | done].
           ++ intros Hin.
              apply (Hidx l (Z.of_nat idx - o)); [lia | lia |].
              rewrite Hcellk by lia. lia.
      * rewrite Hrun2. destruct Hc2 as (Hlen2 & Hgroups & Hframe2).
        eexists; split; [done|]. split; [done|]. split.
        -- intros j' l k Hj' Hl Hk.
           destruct (decide (j' = j)) as [->|Hne]; [by apply Hgroups|].
           rewrite Hframe2; [apply Hrows; [lia | done | done]|].
           intros l' k' Hl' Hk' Heq.
           destruct (matrix_cell_bound R G N j' l i k) as (Hb0 & Hb1 & _);
             [lia | done | done | done |].
           destruct (matrix_cell_bound R G N j l' i k') as (Hb0' & Hb1' & _);
             [lia | done | done | done |].
           destruct (matrix_cell_inj G N j' l i k j l' i k') as (? & _);
             [done..| lia | lia].
        -- intros idx Hidx. rewrite Hframe2; [apply Hframe|].
           ++ intros j' l k Hj' Hl Hk. apply Hidx; [lia | done | done].
           ++ intros l k Hl Hk. apply Hidx; [lia | done | done].
    + rewrite Hrun1, bind_Ok. destruct Hc1 as (Hlen1 & Hrows & Hframe1).
      eexists; split; [done|]. simpl. split; [unfold vsize in *; lia|].
      intros i' j l k Hi' Hj Hl Hk.
      destruct (decide (i' = i)) as [->|Hne]; [by apply Hrows|].
      rewrite Hframe1; [apply Hdone; [lia | done | done | done]|].
      intros j' l' k' Hj' Hl' Hk' Heq.
      destruct (matrix_cell_bound R G N j l i' k) as (Hb0 & Hb1 & _);
        [done | done | lia | done |].
      destruct (matrix_cell_bound R G N j' l' i k') as (Hb0' & Hb1' & _);
        [done | done | done | done |].
      destruct (matrix_cell_inj G N j l i' k j' l' i k') as (_ & _ & ? & _);
        [done | done | lia | done | done | done | lia | lia].
  - rewrite Hrun, bind_Ok. destruct Hst as [Hlen Hcells].
    exists st.1.1. split; [done|]. split; [done|].
    intros j l i k Hj Hl Hi Hk. by apply Hcells.
Qed.

End Interaction.

(** *** Row sums in exact arithmetic *)

Lemma sum_over_ext (f g : Z → Z) (N : Z) :
  (∀ k, 0 ≤ k < N → f k = g k) → sum_over f N = sum_over g N.
Proof.
  intros Hfg. unfold sum_over. f_equal. apply list_fmap_ext.
  intros n k Hk. apply Hfg. apply lookup_seqZ in Hk. lia.
Qed.

Lemma occurrences_cons (i k : Z) (ks : list Z) :
  occurrences i (k :: ks) = (if decide (k = i) then 1 else 0) + occurrences i ks.
Proof. reflexivity. Qed.

Lemma occurrences_app (i : Z) (ks1 ks2 : list Z) :
  occurrences i (ks1 ++ ks2) = occurrences i ks1 + occurrences i ks2.
Proof.
  induction ks1 as [|k ks1 IH]; [done|].
  rewrite <-app_comm_cons, !occurrences_cons, IH. lia.
Qed.

Lemma occurrences_absent (i : Z) (ks : list Z) :
  i ∉ ks → occurrences i ks = 0.
Proof.
  induction ks as [|k ks IH]; [done|].
  intros Hnot. apply not_elem_of_cons in Hnot as [Hne Hnot].
  rewrite occurrences_cons, decide_False by done. rewrite IH by done. lia.
Qed.

Lemma occurrences_seqZ (i N : Z) : 0 ≤ i < N → occurrences i (seqZ 0 N) = 1.
Proof.
  intros Hi. replace N with (i + (1 + (N - i - 1))) by lia.
  rewrite seqZ_app by lia. rewrite (seqZ_app _ 1) by lia.
  rewrite !occurrences_app.
  change (seqZ (0 + i) 1) with [i]. rewrite occurrences_cons.
  rewrite decide_True by done.
  rewrite (occurrences_absent i (seqZ 0 i)) by (rewrite elem_of_seqZ; lia).
  rewrite (occurrences_absent i []) by (by intros ?%elem_of_nil).
  rewrite (occurrences_absent i (seqZ _ _)) by (rewrite elem_of_seqZ; lia).
  done.
Qed.

Lemma others_units_cons inter (i k : Z) (ks : list Z) :
  others_units inter i (k :: ks)
  = (if decide (k = i) then 0 else units (inter k)) + others_units inter i ks.
Proof. reflexivity. Qed.

(** A row whose diagonal cell holds [x] and whose other cells hold the
    off-diagonal values sums to [x] plus the off-diagonal values. *)
Lemma row_units_split (inter : Z → bst_float) (x : bst_float) (i : Z) (ks : list Z) :
  foldr Z.add 0 ((λ k, units (if decide (k = i) then x else inter k)) <$> ks)
  = occurrences i ks * units x + others_units inter i ks.
Proof.
  induction ks as [|k ks IH]; [done|].
  rewrite occurrences_cons, others_units_cons, fmap_cons.
  cbn [foldr]. rewrite IH. case_decide; lia.
Qed.

(** An exact accumulation computes the baseline minus the off-diagonal
    values. *)
Lemma exact_steps_units d inter i ks acc :
  exact_steps d inter i ks acc →
  units (foldl (diagonal_step d inter i) acc ks)
  = units acc + occurrences i ks * units d - others_units inter i ks.
Proof.
  revert acc. induction ks as [|k ks IH]; intros acc.
  - intros _. unfold occurrences, others_units. simpl. lia.
  - intros (_ & Hstep & Hrest).
    rewrite occurrences_cons, others_units_cons.
    cbn [foldl]. rewrite (IH _ Hrest), Hstep. case_decide; lia.
Qed.

Lemma exact_diagonal_row_sum d inter i N :
  0 ≤ i < N → exact_diagonal d inter i N →
  sum_over (λ k, units (if decide (k = i)
                        then diagonal_value d inter i N else inter k)) N
  = units d.
Proof.
  intros Hi Hexact. unfold sum_over. rewrite row_units_split.
  unfold diagonal_value. rewrite (exact_steps_units _ _ _ _ _ Hexact).
  rewrite occurrences_seqZ by done. change (units fzero) with 0. lia.
Qed.

(** *** Row sums up to rounding *)

Lemma magnitude_cons (x : bst_float) (xs : list bst_float) :
  magnitude (x :: xs) = Z.abs (units x) + magnitude xs.
Proof. reflexivity. Qed.

Lemma valid_binary_in_range (x : bst_float) :
  valid_binary 24 128 x = true → in_range x.
Proof.
  destruct x as [| | |s m e]; try done. cbn [valid_binary in_range].
  unfold bounded, canonical_mantissa.
  rewrite andb_true_iff, Z.eqb_eq, fexp32. lia.
Qed.

Lemma fhalf_in_range (x : bst_float) : in_range (fhalf x).
Proof.
  unfold fhalf, double_to_float.
  destruct (SFdiv 53 1024 _ _); try done. apply binary_normalize_in_range.
Qed.

(** One step of the accumulation that stays finite misses the exact sum
    or difference by at most 2^-24 of its result. *)
Lemma diagonal_step_error d inter i acc k :
  in_range d → in_range (inter k) → in_range acc →
  is_finite (diagonal_step d inter i acc k) = true →
  in_range (diagonal_step d inter i acc k)
  ∧ 2 ^ 24 * Z.abs (units (diagonal_step d inter i acc k)
                    - (units acc + (if decide (k = i) then units d
                                    else - units (inter k))))
    ≤ Z.abs (units (diagonal_step d inter i acc k)).
Proof.
  intros Hd Hk Hacc. unfold diagonal_step. case_decide.
  - by apply fadd_error.
  - intros Hfin. destruct (fsub_error acc (inter k) Hacc Hk Hfin) as [Hr Herr].
    split; [done|].
    by replace (units acc + - units (inter k))
      with (units acc - units (inter k)) by lia.
Qed.

(** The accumulation as a whole misses the baseline minus the
    off-diagonal values by at most 2^-24 of the magnitudes of its partial
    results. *)
Lemma partial_results_error d inter i ks :
  in_range d → (∀ k, in_range (inter k)) →
  ∀ acc, in_range acc →
    Forall (λ x, is_finite x = true) (partial_results d inter i ks acc) →
    2 ^ 24 * Z.abs (units (foldl (diagonal_step d inter i) acc ks)
                    - (units acc + occurrences i ks * units d
                       - others_units inter i ks))
    ≤ magnitude (partial_results d inter i ks acc).
Proof.
  intros Hd Hinter. induction ks as [|k ks IH]; intros acc Hacc Hfin.
  - unfold occurrences, others_units, magnitude. simpl. lia.
  - cbn [partial_results] in Hfin |- *.
    apply Forall_cons in Hfin as [Hstep Hfin].
    rewrite magnitude_cons, occurrences_cons, others_units_cons. cbn [foldl].
    destruct (diagonal_step_error d inter i acc k Hd (Hinter k) Hacc Hstep)
      as [Hr Herr].
    specialize (IH _ Hr Hfin). revert IH Herr.
    generalize (diagonal_step d inter i acc k). intros acc' IH Herr.
    case_decide; lia.
Qed.

Lemma diagonal_row_error d inter i N :
  0 ≤ i < N → in_range d → (∀ k, in_range (inter k)) →
  Forall (λ x, is_finite x = true) (diagonal_partials d inter i N) →
  2 ^ 24 * Z.abs (sum_over (λ k, units (if decide (k = i)
                                        then diagonal_value d inter i N
                                        else inter k)) N
                  - units d)
  ≤ magnitude (diagonal_partials d inter i N).
Proof.
  intros Hi Hd Hinter Hfin. unfold sum_over. rewrite row_units_split.
  pose proof (partial_results_error d inter i (seqZ 0 N) Hd Hinter fzero I Hfin)
    as Herr.
  rewrite occurrences_seqZ in Herr |- * by done.
  change (units fzero) with 0 in Herr. unfold diagonal_value, diagonal_partials.
  lia.
Qed.

Lemma sum_over_error (f g h : Z → Z) (N : Z) :
  (∀ k, 0 ≤ k < N → 2 ^ 24 * Z.abs (f k - g k) ≤ h k) →
  2 ^ 24 * Z.abs (sum_over f N - sum_over g N) ≤ sum_over h N.
Proof.
  intros Hle. unfold sum_over.
  assert (Hin : ∀ k, k ∈ seqZ 0 N → 2 ^ 24 * Z.abs (f k - g k) ≤ h k).
  { intros k Hk. apply Hle. apply elem_of_seqZ in Hk. lia. }
  induction (seqZ 0 N) as [|k l IH]; [simpl; lia|].
  cbn [fmap list_fmap foldr].
  pose proof (Hin k ltac:(left)).
  assert (2 ^ 24 * Z.abs (foldr Z.add 0 (f <$> l) - foldr Z.add 0 (g <$> l))
          ≤ foldr Z.add 0 (h <$> l))
    by (apply IH; intros k' Hk'; apply Hin; by right).
  lia.
Qed.

Section Composition.
Context {RegTree : Type} `{TreeOps RegTree}.

(** C2. Interaction prediction returns the matrix composed from the
    single-feature passes: for every row [j], group [l] and conditioning
    feature [i] (the bias index [N - 1] included), the cell of every other
    feature [k] holds half the difference of the attributions of [k] with
    [i] on and with [i] off, and the diagonal cell holds the baseline
    attribution of [i] from which these off-diagonal values have been
    subtracted, in binary32 and in index order.  The inputs are those of
    [interaction_ready]: the matrix has fewer than 2^32 cells, which is
    what the 32-bit offsets of the code can address. *)
Theorem PredictInteractionContributions_composition threads sched p_fmat
    out (model : GBTreeModel RegTree) ntree_limit tree_weights approximate
    group_indices num_feat_group :
  let G := num_output_group (learner_model_param model) in
  let N := selected_features model group_indices num_feat_group + 1 in
  let R := num_row_ (Info p_fmat) in
  let pass := contribution_pass threads sched p_fmat model ntree_limit
                tree_weights approximate group_indices num_feat_group in
  interaction_ready threads sched p_fmat model ntree_limit tree_weights
    group_indices num_feat_group →
  ∃ out',
    PredictInteractionContributions threads sched p_fmat out model
      ntree_limit tree_weights approximate group_indices num_feat_group
    = Ok out'
    ∧ vsize out' = R * G * N * N
    ∧ (∀ buffer condition condition_feature,
         PredictContribution threads sched p_fmat buffer model ntree_limit
           tree_weights approximate group_indices num_feat_group
           condition condition_feature
         = Ok (pass condition condition_feature))
    ∧ ∀ j l i, 0 ≤ j < R → 0 ≤ l < G → 0 ≤ i < N →
        let c := (j * G + l) * N in
        let on := pass 1 i in
        let off := pass (-1) i in
        let baseline := pass 0 0 in
        (∀ k, 0 ≤ k < N → k ≠ i →
           out' !! Z.to_nat (matrix_cell G N j l i k)
           = Some (fhalf (fsub (vec_at on (c + k)) (vec_at off (c + k)))))
        ∧ out' !! Z.to_nat (matrix_cell G N j l i i)
          = Some (diagonal_value (vec_at baseline (c + i))
                    (λ k, fhalf (fsub (vec_at on (c + k)) (vec_at off (c + k))))
                    i N).
Proof.
  intros G N R pass Hready.
  destruct (PredictInteractionContributions_spec threads sched p_fmat
              model ntree_limit tree_weights approximate group_indices
              num_feat_group Hready out) as (out' & Hrun & Hlen & Hcells).
  exists out'. split; [done|]. split; [done|]. split.
  - intros buffer condition condition_feature.
    by apply contribution_pass_runs.
  - intros j l i Hj Hl Hi c on off baseline. split.
    + intros k Hk Hne. etrans; [by apply Hcells|].
      by rewrite decide_False.
    + etrans; [by apply Hcells|]. by rewrite decide_True.
Qed.

(** C3, amended. Interaction prediction returns a matrix in which the row
    of a conditioning feature [i], diagonal included, sums to the
    single-feature attribution of [i] up to the rounding of the binary32
    accumulation of its diagonal cell: when the attribution is a binary32
    number and the accumulation stays finite, the exact sum of the stored
    values of the row differs from the attribution by at most 2^-24 times
    the sum of the magnitudes of the partial results of the accumulation,
    and the sum over all pairs (i, k) differs from the total of the
    attributions by at most the sum of these bounds; the sums are equal
    whenever no step of the accumulations rounds. *)
Theorem PredictInteractionContributions_row_sum threads sched p_fmat
    out (model : GBTreeModel RegTree) ntree_limit tree_weights approximate
    group_indices num_feat_group :
  let G := num_output_group (learner_model_param model) in
  let N := selected_features model group_indices num_feat_group + 1 in
  let R := num_row_ (Info p_fmat) in
  let pass := contribution_pass threads sched p_fmat model ntree_limit
                tree_weights approximate group_indices num_feat_group in
  let baseline j l i := vec_at (pass 0 0) ((j * G + l) * N + i) in
  let inter j l i :=
    interaction_value (pass 1 i) (pass (-1) i) ((j * G + l) * N) in
  let partials j l i := diagonal_partials (baseline j l i) (inter j l i) i N in
  let finite j l i :=
    valid_binary 24 128 (baseline j l i) = true
    ∧ Forall (λ x, is_finite x = true) (partials j l i) in
  let exact j l i := exact_diagonal (baseline j l i) (inter j l i) i N in
  interaction_ready threads sched p_fmat model ntree_limit tree_weights
    group_indices num_feat_group →
  ∃ out',
    PredictInteractionContributions threads sched p_fmat out model
      ntree_limit tree_weights approximate group_indices num_feat_group
    = Ok out'
    ∧ ∀ j l, 0 ≤ j < R → 0 ≤ l < G →
        (∀ i, 0 ≤ i < N → finite j l i →
           2 ^ 24 * Z.abs (sum_units out' (matrix_cell G N j l i 0) N
                           - units (baseline j l i))
           ≤ magnitude (partials j l i))
        ∧ ((∀ i, 0 ≤ i < N → finite j l i) →
           2 ^ 24 * Z.abs (sum_over
                             (λ i, sum_units out' (matrix_cell G N j l i 0) N) N
                           - sum_units (pass 0 0) ((j * G + l) * N) N)
           ≤ sum_over (λ i, magnitude (partials j l i)) N)
        ∧ (∀ i, 0 ≤ i < N → exact j l i →
             sum_units out' (matrix_cell G N j l i 0) N
             = units (baseline j l i))
        ∧ ((∀ i, 0 ≤ i < N → exact j l i) →
           sum_over (λ i, sum_units out' (matrix_cell G N j l i 0) N) N
           = sum_units (pass 0 0) ((j * G + l) * N) N).
Proof.
  intros G N R pass baseline inter partials finite exact Hready.
  destruct (PredictInteractionContributions_spec threads sched p_fmat
              model ntree_limit tree_weights approximate group_indices
              num_feat_group Hready out) as (out' & Hrun & Hlen & Hcells).
  exists out'. split; [done|].
  intros j l Hj Hl.
  assert (Hrow : ∀ i, 0 ≤ i < N →
            sum_units out' (matrix_cell G N j l i 0) N
            = sum_over (λ k, units (if decide (k = i)
                                    then diagonal_value (baseline j l i)
                                           (inter j l i) i N
                                    else inter j l i k)) N).
  { intros i Hi. unfold sum_units. apply sum_over_ext. intros k Hk.
    destruct (matrix_cell_bound R G N j l i k) as (_ & Hcell & _); [done..|].
    rewrite <-Hcell. unfold vec_at at 1.
    pose proof (Hcells j l i k Hj Hl Hi Hk) as Hk'. fold G N in Hk'.
    rewrite Hk'. simpl. unfold baseline, inter. by case_decide. }
  assert (Hnear : ∀ i, 0 ≤ i < N → finite j l i →
            2 ^ 24 * Z.abs (sum_units out' (matrix_cell G N j l i 0) N
                            - units (baseline j l i))
            ≤ magnitude (partials j l i)).
  { intros i Hi [Hvalid Hfin]. rewrite Hrow by done.
    apply diagonal_row_error; [done | by apply valid_binary_in_range | | done].
    intros k. apply fhalf_in_range. }
  assert (Hexact : ∀ i, 0 ≤ i < N → exact j l i →
            sum_units out' (matrix_cell G N j l i 0) N
            = units (baseline j l i)).
  { intros i Hi Hex. rewrite Hrow by done.
    by apply exact_diagonal_row_sum. }
  split; [done|]. split; [|split; [done|]].
  - intros Hall. unfold sum_units at 2.
    apply sum_over_error. intros i Hi.
    replace ((j * G + l) * N + i) with ((j * G + l) * N + i) by done.
    by apply Hnear, Hall.
  - intros Hall. unfold sum_units at 2. apply sum_over_ext.
    intros i Hi. by apply Hexact, Hall.
Qed.

End Composition.

(** The inputs of the examples are fit for interaction prediction. *)
Ltac ex_predict_ready :=
  split;
  [ ex_arith | by apply in_order_ok | ex_arith | ex_arith
  | repeat constructor; ex_arith ].

Ltac ex_contribution_ready :=
  split;
  [ ex_predict_ready | ex_arith | ex_arith | split; ex_arith
  | split; ex_arith | intros ? [=] | left; reflexivity | ex_arith ].

Ltac ex_interaction_ready := split; [ex_contribution_ready | ex_arith].

Lemma PredictInteractionContributions_composition_witness :
  ∃ out',
    PredictInteractionContributions 1 in_order ex_dmat [] ex_integer_model 0
      None false None 0 = Ok out'
    ∧ vsize out' = 27
    ∧ out' !! 1%nat = Some (f32 1 0).
Proof.
  destruct (PredictInteractionContributions_composition 1 in_order ex_dmat []
              ex_integer_model 0 None false None 0)
    as (out' & Hrun & Hlen & _ & Hcells); [ex_interaction_ready|].
  exists out'. split; [exact Hrun|]. split; [exact Hlen|].
  destruct (Hcells 0 0 0) as [Hoffd _]; [ex_arith..|].
  etrans; [apply (Hoffd 1); ex_arith|]. vm_compute. reflexivity.
Defined.

(** With an attribution of 1 for the first feature and interactions of
    2^30 and -2^30, the diagonal 1 - 2^30 + 2^30 is computed as 0: the row
    of the first feature holds 0, 2^30 and -2^30 and sums to 0, exactly
    and in binary32, where the attribution is 1; and the sum over all
    pairs is 0.5 where the attributions total 1.5. *)
Lemma PredictInteractionContributions_row_sum_cancels :
  ∃ out' baseline,
    PredictInteractionContributions 1 in_order ex_one_row [] ex_cancelling_model
      0 None false None 0 = Ok out'
    ∧ PredictContribution 1 in_order ex_one_row [] ex_cancelling_model 0 None
        false None 0 0 0 = Ok baseline
    ∧ vec_at baseline 0 = f32 1 0
    ∧ take 3 out' = [fzero; f32 1 30; f32 (-1) 30]
    ∧ sum_units out' 0 3 = 0
    ∧ fadd (fadd (vec_at out' 0) (vec_at out' 1)) (vec_at out' 2) = fzero
    ∧ units (vec_at baseline 0) = 2 ^ 149
    ∧ sum_over (λ i, sum_units out' (3 * i) 3) 3 = 2 ^ 148
    ∧ sum_units baseline 0 3 = 2 ^ 149 + 2 ^ 148.
Proof.
  eexists _, _. split; [vm_compute; reflexivity|].
  split; [vm_compute; reflexivity|].
  vm_compute. repeat split.
Qed.

(** With an attribution of 0.1 and an interaction of 1, the diagonal
    0.1 - 1 rounds: the row of the feature holds -0.90000004 and 1, and its
    sum misses 0.1 by 3 * 2^-27, within 2^-24 of the magnitudes 0.1 and
    0.90000004 of the partial results. *)
Lemma PredictInteractionContributions_row_sum_witness :
  ∃ out',
    PredictInteractionContributions 1 in_order ex_one_row [] ex_rounding_model
      0 None false None 0 = Ok out'
    ∧ 2 ^ 24 * Z.abs (sum_units out' 0 2 - units (f32 13421773 (-27)))
      ≤ magnitude [f32 13421773 (-27); f32 (-15099494) (-24)]
    ∧ sum_units out' 0 2 - units (f32 13421773 (-27)) = 3 * 2 ^ 122.
Proof.
  destruct (PredictInteractionContributions_row_sum 1 in_order ex_one_row []
              ex_rounding_model 0 None false None 0)
    as (out' & Hrun & Hsums); [ex_interaction_ready|].
  exists out'. split; [exact Hrun|].
  destruct (Hsums 0 0) as [Hnear _]; [ex_arith..|].
  split.
  - specialize (Hnear 0 ltac:(ex_arith)).
    etrans; [|etrans; [apply Hnear|]].
    + apply Z.mul_le_mono_nonneg_l; [lia|]. apply Z.eq_le_incl.
      do 2 f_equal; vm_compute; reflexivity.
    + split; [vm_compute; reflexivity | vm_compute; repeat constructor].
    + apply Z.eq_le_incl. vm_compute. reflexivity.
  - vm_compute in Hrun. injection Hrun as <-. vm_compute. reflexivity.
Defined.

(** ** Prediction over a data set *)

Section BatchPrediction.
Context {RegTree : Type} `{TreeOps RegTree}.

Lemma group_values_app eval (model : GBTreeModel RegTree) g lo mid hi :
  lo ≤ mid ≤ hi →
  group_values eval model g lo hi
  = group_values eval model g lo mid ++ group_values eval model g mid hi.
Proof.
  intros Hm. unfold group_values.
  replace (hi - lo) with ((mid - lo) + (hi - mid)) by lia.
  rewrite seqZ_app by lia. rewrite omap_app.
  by replace (lo + (mid - lo)) with mid by lia.
Qed.

Lemma page_row_delivers threads (p : SparsePage) :
  delivers threads p (page_row p).
Proof.
  apply SparsePage_delivers. intros i Hi.
  destruct (vec_get_in_range (page_rows p) i Hi) as (r & _ & Hr).
  unfold page_row. by rewrite Hr.
Qed.

(** Rows of disjoint batches have disjoint cells. *)
Lemma batch_cells_other G (p q : SparsePage) i g :
  0 < G → 0 ≤ i < vsize (page_rows q) → 0 ≤ g < G →
  base_rowid p + vsize (page_rows p) ≤ base_rowid q
  ∨ base_rowid q + vsize (page_rows q) ≤ base_rowid p →
  ¬ batch_cells G p ((base_rowid q + i) * G + g).
Proof. unfold batch_cells. intros HG Hi Hg [Hd|Hd] Hin; nia. Qed.

Lemma batch_cells_own G (q : SparsePage) i g :
  0 < G → 0 ≤ i < vsize (page_rows q) → 0 ≤ g < G →
  batch_cells G q ((base_rowid q + i) * G + g).
Proof. unfold batch_cells. intros HG Hi Hg. nia. Qed.

Lemma PredictDMatrix_spec threads sched p_fmat out
    (model : GBTreeModel RegTree) tb te :
  let G := num_output_group (learner_model_param model) in
  batch_ready threads sched p_fmat model tb te out →
  ∃ out',
    PredictDMatrix threads sched p_fmat out model tb te = Ok out'
    ∧ length out' = length out
    ∧ (∀ p i g x, p ∈ GetBatches p_fmat →
         0 ≤ i < vsize (page_rows p) → 0 ≤ g < G →
         out !! Z.to_nat ((base_rowid p + i) * G + g) = Some x →
         out' !! Z.to_nat ((base_rowid p + i) * G + g)
         = Some (margin_sum model g tb te (page_row p i) x))
    ∧ (∀ k : nat,
         (∀ p, p ∈ GetBatches p_fmat → ¬ batch_cells G p (Z.of_nat k)) →
         out' !! k = out !! k).
Proof.
  intros G [Hthreads Hsched Hslv HG Hfeat Hrows Hout Hbatches Hdisj Hrange
              Htrees Hinfo].
  fold G in HG, Hrows, Hout, Hinfo.
  unfold PredictDMatrix.
  set (features := num_feature (learner_model_param model)) in *.
  set (num_row := num_row_ (Info p_fmat)) in *.
  fold G.
  rewrite (to_int32_small (threads * kBlockOfRowsSize))
    by (unfold kBlockOfRowsSize; lia).
  destruct (InitThreadTemp_fresh (threads * kBlockOfRowsSize)
              (to_int32 features) features) as [Hplen Hpok];
    [unfold kBlockOfRowsSize; lia|].
  rewrite (wrap64_small (num_row * G)) by nia.
  set (pool0 := InitThreadTemp _ _ _) in *.
  match goal with
  | |- context [foldM ?body ?l ?s] =>
    destruct (foldM_prefix_inv
      (λ (done : list SparsePage) (st : list bst_float * list FVec.t),
        length st.1 = length out
        ∧ length st.2 = length pool0
        ∧ pool_ok features st.2
        ∧ (∀ p i g x, p ∈ done →
             0 ≤ i < vsize (page_rows p) → 0 ≤ g < G →
             out !! Z.to_nat ((base_rowid p + i) * G + g) = Some x →
             st.1 !! Z.to_nat ((base_rowid p + i) * G + g)
             = Some (margin_sum model g tb te (page_row p i) x))
        ∧ (∀ k : nat, (∀ p, p ∈ done → ¬ batch_cells G p (Z.of_nat k)) →
             st.1 !! k = out !! k))
      body l s) as (st & Hrun & Hst)
  end.
  - simpl. repeat split; try done.
    intros p i g x Hin. by apply elem_of_nil in Hin.
  - intros done p rest [o pool] Hsplit (Hleno & Hlenp & Hokp & Hcells & Hframe).
    simpl in *.
    assert (Hp : p ∈ GetBatches p_fmat).
    { rewrite Hsplit. apply elem_of_app. right. left. }
    rewrite Forall_forall in Hbatches.
    destruct (Hbatches p Hp) as (Hbase & Hfit & Hsmall).
    pose proof (vsize_nonneg (page_rows p)) as Hnn.
    rewrite bool_decide_eq_true_2 by (unfold vsize in *; lia).
    simpl CHECK. rewrite bind_Ok.
    assert (Hold : ∀ q, q ∈ done →
              base_rowid q + vsize (page_rows q) ≤ base_rowid p
              ∨ base_rowid p + vsize (page_rows p) ≤ base_rowid q).
    { intros q Hq. apply list_elem_of_lookup in Hq as [a Ha].
      apply (Hdisj a (length done) q p).
      - rewrite Hsplit. rewrite lookup_app_l; [done|].
        by apply lookup_lt_Some in Ha.
      - rewrite Hsplit. by rewrite list_lookup_middle.
      - apply lookup_lt_Some in Ha. lia. }
    assert (Hsize : 0 ≤ view_Size p < 2 ^ 32) by (simpl; lia).
    destruct (page_row_delivers threads p) as (inv & Hinv & Hat).
    destruct (kernel_spec p model (page_row p) threads inv Hfeat Hsize Hat
                HG sched o pool tb te)
      as (o' & pool' & Hk & Hleno' & Hlenp' & Hokp' & Hcells' & Hframe');
      [ done | done | done | lia | lia | tauto | tauto | done | done
      | unfold vsize, kBlockOfRowsSize in *; lia
      | unfold vsize, kBlockOfRowsSize in *; lia
      | done
      | simpl; unfold vsize in *; fold G; nia
      | unfold vsize in *; lia |].
    simpl in Hcells', Hframe'. fold G features in Hcells', Hframe'.
    rewrite Hk. eexists; split; [done|]. simpl.
    split; [congruence|]. split; [congruence|]. split; [done|]. split.
    + intros q i g x Hq Hi Hg Hx.
      apply elem_of_app in Hq as [Hq|Hq].
      * rewrite Hframe'; [by apply Hcells|].
        pose proof (batch_cells_other G p q i g ltac:(lia) Hi Hg) as Hno.
        unfold batch_cells in Hno.
        assert (0 ≤ (base_rowid q + i) * G + g).
        { destruct (Hbatches q) as (? & _); [|nia].
          rewrite Hsplit. apply elem_of_app. by left. }
        rewrite Z2Nat.id by done. apply Hno.
        destruct (Hold q Hq); [by right | by left].
      * apply list_elem_of_singleton in Hq as ->.
        unfold margin_sum. apply Hcells'; [done | done |].
        rewrite Hframe; [done|].
        intros q Hq.
        assert (0 ≤ (base_rowid p + i) * G + g) by nia.
        rewrite Z2Nat.id by done.
        apply batch_cells_other; [lia | done | done |]. by apply Hold.
    + intros k Hk'. rewrite Hframe'.
      * apply Hframe. intros q Hq. apply Hk'. apply elem_of_app. by left.
      * specialize (Hk' p ltac:(apply elem_of_app; right; left)).
        unfold batch_cells in Hk'. done.
  - rewrite Hrun, bind_Ok. destruct st as [out' pool'].
    destruct Hst as (Hleno & _ & _ & Hcells & Hframe). simpl in *.
    exists out'. done.
Qed.

(** A buffer is determined by what its cells inside the batches hold and
    by what it keeps outside them. *)
Lemma batch_result_unique (G num_row : Z) (batches : list SparsePage)
    (val : SparsePage → Z → Z → bst_float → bst_float)
    (out out1 out2 : list bst_float) :
  0 < G → Forall (batch_in_range num_row) batches → vsize out = num_row * G →
  length out1 = length out → length out2 = length out →
  (∀ p i g x, p ∈ batches → 0 ≤ i < vsize (page_rows p) → 0 ≤ g < G →
     out !! Z.to_nat ((base_rowid p + i) * G + g) = Some x →
     out1 !! Z.to_nat ((base_rowid p + i) * G + g) = Some (val p i g x)) →
  (∀ k : nat, (∀ p, p ∈ batches → ¬ batch_cells G p (Z.of_nat k)) →
     out1 !! k = out !! k) →
  (∀ p i g x, p ∈ batches → 0 ≤ i < vsize (page_rows p) → 0 ≤ g < G →
     out !! Z.to_nat ((base_rowid p + i) * G + g) = Some x →
     out2 !! Z.to_nat ((base_rowid p + i) * G + g) = Some (val p i g x)) →
  (∀ k : nat, (∀ p, p ∈ batches → ¬ batch_cells G p (Z.of_nat k)) →
     out2 !! k = out !! k) →
  out1 = out2.
Proof.
  intros HG Hbatches Hout Hlen1 Hlen2 Hcells1 Hframe1 Hcells2 Hframe2.
  apply list_eq. intros k.
  destruct (decide (Exists (λ p, batch_cells G p (Z.of_nat k)) batches))
    as [Hex|Hno].
  - apply Exists_exists in Hex as (p & Hp & Hin).
    rewrite Forall_forall in Hbatches.
    destruct (Hbatches p Hp) as (Hbase & Hfit & _).
    pose proof (vsize_nonneg (page_rows p)).
    destruct (cell_decompose G (base_rowid p) (vsize (page_rows p)) k)
      as (i & g & Hi & Hg & ->); [done..|].
    destruct (lookup_lt_is_Some_2 out (Z.to_nat ((base_rowid p + i) * G + g)))
      as [x Hx]; [unfold vsize in *; nia|].
    by rewrite (Hcells1 p i g x), (Hcells2 p i g x).
  - rewrite Hframe1, Hframe2; [done | |];
      intros p Hp Hin; apply Hno, Exists_exists; eauto.
Qed.

(** The bounds [PredictBatch] hands on are the ones it is given, with the
    number of trees for an end of zero. *)
Lemma PredictBatch_bounds threads sched dmat predts
    (model : GBTreeModel RegTree) tb te :
  0 ≤ tb ≤ batch_tree_end model te → batch_tree_end model te < 2 ^ 31 →
  PredictBatch threads sched dmat predts model tb te
  = PredictDMatrix threads sched dmat predts model tb (batch_tree_end model te).
Proof.
  intros Htb Hte. unfold PredictBatch, batch_tree_end in *.
  pose proof (vsize_nonneg (trees model)).
  rewrite (to_int32_small tb) by lia.
  case_decide; [rewrite wrap32_small by lia|]; by rewrite to_int32_small by lia.
Qed.

Lemma batch_ready_range threads sched dmat (model : GBTreeModel RegTree)
    tb te predts predts' lo hi :
  batch_ready threads sched dmat model tb te predts →
  tb ≤ lo ≤ hi → hi ≤ te → length predts' = length predts →
  batch_ready threads sched dmat model lo hi predts'.
Proof.
  intros [] Hlo Hhi Hlen. split; try done; try lia.
  - unfold vsize in *. by rewrite Hlen.
  - intros t gi Ht. apply br_info0. lia.
Qed.

(** X1. Prediction over a data set, for a tree range whose end of zero
    stands for all the trees: the call returns the buffer in which, for
    every row of every batch and every output group, the cell
    [rowIndex * numGroups + group] holds its former value to which the leaf
    values of the trees of the range assigned to the group have been added
    in tree order; the cells of rows that no batch holds are as they
    were. *)
Theorem PredictBatch_cells threads sched dmat predts
    (model : GBTreeModel RegTree) tree_begin tree_end :
  let G := num_output_group (learner_model_param model) in
  let te := batch_tree_end model tree_end in
  batch_ready threads sched dmat model tree_begin te predts →
  ∃ out',
    PredictBatch threads sched dmat predts model tree_begin tree_end = Ok out'
    ∧ length out' = length predts
    ∧ (∀ p i g x, p ∈ GetBatches dmat →
         0 ≤ i < vsize (page_rows p) → 0 ≤ g < G →
         predts !! Z.to_nat ((base_rowid p + i) * G + g) = Some x →
         out' !! Z.to_nat ((base_rowid p + i) * G + g)
         = Some (margin_sum model g tree_begin te (page_row p i) x))
    ∧ (∀ k : nat,
         (∀ p, p ∈ GetBatches dmat → ¬ batch_cells G p (Z.of_nat k)) →
         out' !! k = predts !! k).
Proof.
  intros G te Hready.
  rewrite PredictBatch_bounds by (destruct Hready; fold te; lia).
  by apply PredictDMatrix_spec.
Qed.

(** X2. Prediction is incremental in the trees: predicting with the trees
    of [tree_begin, tree_mid) and then, on the buffer this leaves, with
    those of [tree_mid, tree_end) gives the buffer that one prediction
    with the trees of [tree_begin, tree_end) gives. *)
Theorem PredictBatch_incremental threads sched dmat predts
    (model : GBTreeModel RegTree) tree_begin tree_mid tree_end :
  batch_ready threads sched dmat model tree_begin tree_end predts →
  tree_begin ≤ tree_mid ≤ tree_end → 0 < tree_mid →
  ∃ mid out',
    PredictBatch threads sched dmat predts model tree_begin tree_mid = Ok mid
    ∧ PredictBatch threads sched dmat mid model tree_mid tree_end = Ok out'
    ∧ PredictBatch threads sched dmat predts model tree_begin tree_end
      = Ok out'.
Proof.
  intros Hready Hmid Hpos.
  set (G := num_output_group (learner_model_param model)).
  assert (Hends : batch_tree_end model tree_mid = tree_mid
                  ∧ batch_tree_end model tree_end = tree_end).
  { unfold batch_tree_end. rewrite !decide_False by lia. done. }
  destruct Hends as [Hem Hee].
  pose proof Hready as [_ _ _ HG _ _ Hout Hbatches _ Hrange _ _].
  destruct (PredictDMatrix_spec threads sched dmat predts model
              tree_begin tree_mid)
    as (mid & Hrun1 & Hlen1 & Hcells1 & Hframe1);
    [by apply (batch_ready_range _ _ _ _ _ _ _ _ _ _ Hready); lia|].
  destruct (PredictDMatrix_spec threads sched dmat mid model
              tree_mid tree_end)
    as (out2 & Hrun2 & Hlen2 & Hcells2 & Hframe2);
    [by apply (batch_ready_range _ _ _ _ _ _ _ _ _ _ Hready); lia|].
  destruct (PredictDMatrix_spec threads sched dmat predts model
              tree_begin tree_end Hready)
    as (out3 & Hrun3 & Hlen3 & Hcells3 & Hframe3).
  exists mid, out2.
  rewrite !PredictBatch_bounds by (rewrite ?Hem, ?Hee; lia).
  rewrite Hem, Hee. split; [done|]. split; [done|].
  rewrite Hrun3. f_equal. symmetry.
  apply (batch_result_unique G (num_row_ (Info dmat)) (GetBatches dmat)
           (λ p i g x, margin_sum model g tree_begin tree_end (page_row p i) x)
           predts out2 out3); try done; try lia; try congruence.
  - intros p i g x Hp Hi Hg Hx. fold G in Hcells1, Hcells2.
    rewrite (Hcells2 p i g _ Hp Hi Hg (Hcells1 p i g x Hp Hi Hg Hx)).
    unfold margin_sum.
    rewrite (group_values_app _ model g tree_begin tree_mid tree_end) by lia.
    by rewrite foldl_app.
  - intros k Hk. rewrite Hframe2 by done. by apply Hframe1.
Qed.

(** X3. The result of a prediction does not depend on the number of
    worker threads nor on the order in which the blocks of rows are taken
    and the workers that take them. *)
Theorem PredictBatch_schedule_independent threads1 sched1 threads2 sched2
    dmat predts (model : GBTreeModel RegTree) tree_begin tree_end :
  batch_ready threads1 sched1 dmat model tree_begin
    (batch_tree_end model tree_end) predts →
  0 < threads2 ∧ threads2 * 64 < 2 ^ 31 → schedule_ok threads2 sched2 →
  PredictBatch threads1 sched1 dmat predts model tree_begin tree_end
  = PredictBatch threads2 sched2 dmat predts model tree_begin tree_end.
Proof.
  intros Hready Hthreads Hsched.
  set (te := batch_tree_end model tree_end) in *.
  assert (Hready2 : batch_ready threads2 sched2 dmat model tree_begin te predts)
    by (destruct Hready; by split).
  pose proof Hready as [_ _ _ HG _ _ Hout Hbatches _ Hrange _ _].
  rewrite !PredictBatch_bounds by (fold te; lia). fold te.
  destruct (PredictDMatrix_spec _ _ _ _ _ _ _ Hready)
    as (out1 & -> & Hlen1 & Hcells1 & Hframe1).
  destruct (PredictDMatrix_spec _ _ _ _ _ _ _ Hready2)
    as (out2 & -> & Hlen2 & Hcells2 & Hframe2).
  f_equal.
  apply (batch_result_unique
           (num_output_group (learner_model_param model))
           (num_row_ (Info dmat)) (GetBatches dmat)
           (λ p i g x, margin_sum model g tree_begin te (page_row p i) x)
           predts out1 out2); try done; lia.
Qed.

(** X4. The size of the output is checked once for each batch, before the
    batch is processed: a data set without batches is predicted without
    any check and the buffer comes back as it is, whatever its size; with
    at least one batch, a buffer whose size is not
    [numRows * numGroups] aborts the call with the failed check. *)
Theorem PredictDMatrix_size_check threads sched p_fmat out
    (model : GBTreeModel RegTree) tree_begin tree_end :
  (GetBatches p_fmat = [] →
   PredictDMatrix threads sched p_fmat out model tree_begin tree_end = Ok out)
  ∧ (GetBatches p_fmat ≠ [] →
     vsize out ≠ wrap64 (num_row_ (Info p_fmat)
                         * num_output_group (learner_model_param model)) →
     PredictDMatrix threads sched p_fmat out model tree_begin tree_end
     = Err (CheckFailed "out_preds->size() == num_row_ * num_output_group")).
Proof.
  unfold PredictDMatrix. split.
  - by intros ->.
  - intros Hne Hsize. destruct (GetBatches p_fmat) as [|p ps]; [done|].
    simpl. by rewrite bool_decide_eq_false_2.
Qed.

End BatchPrediction.

Lemma ex_backwards_ok : schedule_ok 2 ex_backwards.
Proof.
  intros size. unfold ex_backwards. split.
  - rewrite <-list_fmap_compose, list_fmap_id. apply reverse_Permutation.
  - apply Forall_fmap, Forall_forall. intros i _. simpl. lia.
Qed.

(** The example data set in two batches is fit for prediction. *)
Ltac ex_batch_ready :=
  split;
  [ ex_arith | first [by apply in_order_ok | apply ex_backwards_ok]
  | reflexivity | ex_arith | ex_arith | ex_arith | reflexivity
  | repeat (apply Forall_cons_2; [repeat split; ex_arith|]); apply Forall_nil_2
  | intros [|[|a]] [|[|b]] pa pb Ha Hb Hne; simplify_eq/=; ex_arith
  | ex_arith | ex_arith
  | intros t gi Ht;
    assert (t = 0 ∨ t = 1 ∨ t = 2) as [->|[->| ->]]
      by (revert Ht; unfold batch_tree_end, vsize; simpl; lia);
    intros [= <-]; ex_arith ].

Lemma PredictBatch_cells_witness :
  ∃ out',
    PredictBatch 1 in_order ex_split ex_out ex_model 0 0 = Ok out'
    ∧ out' !! 2%nat = Some (f32 7 (-1)).
Proof.
  destruct (PredictBatch_cells 1 in_order ex_split ex_out ex_model 0 0)
    as (out' & Hrun & _ & Hcells & _); [ex_batch_ready|].
  exists out'. split; [exact Hrun|].
  etrans;
    [apply (Hcells {| base_rowid := 2;
                      page_rows := [[{| index := 1; fvalue := f32 1 0 |}]] |}
              0 0 (f32 1 (-1)));
     [right; left | ex_arith | ex_arith | reflexivity]|].
  vm_compute. reflexivity.
Defined.

Lemma PredictBatch_incremental_witness :
  ∃ mid out',
    PredictBatch 1 in_order ex_split ex_out ex_model 0 1 = Ok mid
    ∧ PredictBatch 1 in_order ex_split mid ex_model 1 3 = Ok out'
    ∧ PredictBatch 1 in_order ex_split ex_out ex_model 0 3 = Ok out'.
Proof.
  apply (PredictBatch_incremental 1 in_order ex_split ex_out ex_model 0 1 3);
    [ex_batch_ready | lia | lia].
Defined.

Lemma PredictBatch_schedule_independent_witness :
  PredictBatch 1 in_order ex_split ex_out ex_model 0 0
  = PredictBatch 2 ex_backwards ex_split ex_out ex_model 0 0.
Proof.
  apply (PredictBatch_schedule_independent 1 in_order 2 ex_backwards ex_split
           ex_out ex_model 0 0);
    [ex_batch_ready | lia | apply ex_backwards_ok].
Defined.

Lemma PredictDMatrix_size_check_witness :
  PredictDMatrix 1 in_order ex_split [] ex_model 0 3
  = Err (CheckFailed "out_preds->size() == num_row_ * num_output_group").
Proof.
  apply (PredictDMatrix_size_check 1 in_order ex_split [] ex_model 0 3);
    [discriminate | vm_compute; discriminate].
Defined.

(** ** The adapter view and its workspace *)


Lemma AdapterView_at_row (v : AdapterView) i row :
  0 ≤ i → GetLine (adapter_ v) !! Z.to_nat i = Some row →
  AdapterView_at v i = Ok (adapter_row v row).
Proof.
  intros Hi Hrow. unfold AdapterView_at.
  by rewrite (vec_get_Ok _ _ row) by done.
Qed.

Lemma adapter_row_snoc (v : AdapterView) done e :
  adapter_row v (done ++ [e])
  = adapter_row v done
    ++ (if adapter_entry (missing_ v) e is Some x then [x] else []).
Proof.
  unfold adapter_row. rewrite omap_app. simpl.
  by destruct (adapter_entry _ e).
Qed.

Lemma adapter_row_prefix (v : AdapterView) done rest :
  (length (adapter_row v done) ≤ length (adapter_row v (done ++ rest)))%nat.
Proof. unfold adapter_row. rewrite omap_app, length_app. lia. Qed.

Lemma span_read_ext (ws1 ws2 : list Entry) (s : Span) :
  0 ≤ span_offset s →
  (∀ k : nat, span_offset s ≤ Z.of_nat k < span_offset s + span_count s →
     ws1 !! k = ws2 !! k) →
  span_read ws1 s = span_read ws2 s.
Proof.
  intros Hoff Hsame. unfold span_read. apply list_eq. intros j.
  rewrite !lookup_take. case_decide; [|done].
  rewrite !lookup_drop. apply Hsame. lia.
Qed.

Lemma next_unroll_range kUnroll cu :
  0 ≤ cu < kUnroll → 0 ≤ next_unroll kUnroll cu < kUnroll.
Proof. unfold next_unroll. case_decide; lia. Qed.

(** One fetch: it succeeds, the window it returns starts at the slot of
    the thread and holds the kept entries of the row, the workspace is
    otherwise as it was and the counter of the thread has moved on. *)
Lemma AdapterView_index_spec kUnroll threads (v : AdapterView) t i st row :
  let columns := NumColumns (adapter_ v) in
  0 ≤ columns < 2 ^ 32 → 0 < kUnroll < 2 ^ 64 →
  columns * kUnroll * threads < 2 ^ 64 →
  scratch_ok kUnroll columns threads st →
  0 ≤ t < threads → 0 ≤ i →
  GetLine (adapter_ v) !! Z.to_nat i = Some row →
  vsize (adapter_row v row) ≤ columns →
  ∃ cu ws',
    current_unroll_ st !! Z.to_nat t = Some cu
    ∧ 0 ≤ cu < kUnroll
    ∧ AdapterView_index kUnroll v t i st
      = Ok ({| span_offset := columns * (kUnroll * t + cu);
               span_count := vsize (adapter_row v row) |},
            {| workspace_ := ws';
               current_unroll_ :=
                 <[Z.to_nat t := next_unroll kUnroll cu]> (current_unroll_ st) |})
    ∧ length ws' = length (workspace_ st)
    ∧ span_read ws' {| span_offset := columns * (kUnroll * t + cu);
                       span_count := vsize (adapter_row v row) |}
      = adapter_row v row
    ∧ (∀ k : nat,
         ¬ (columns * (kUnroll * t + cu) ≤ Z.of_nat k
            < columns * (kUnroll * t + cu) + vsize (adapter_row v row)) →
         ws' !! k = workspace_ st !! k).
Proof.
  intros columns Hcol HK Hbig (Hcus & Hrange & Hws) Ht Hi Hrow Hfit.
  destruct (vec_get_in_range (current_unroll_ st) t) as (cu & Hget & Hcu);
    [lia|].
  pose proof (Forall_lookup_1 _ _ _ _ Hrange Hcu) as Hcur. simpl in Hcur.
  exists cu.
  unfold AdapterView_index. fold columns.
  rewrite (vec_get_Ok _ _ row) by done. rewrite bind_Ok, Hget, bind_Ok.
  rewrite (wrap32_small columns) by done.
  set (beg := columns * (kUnroll * t + cu)).
  assert (Hslot : 0 ≤ beg ∧ beg + columns ≤ columns * kUnroll * threads).
  { unfold beg. split; [nia|].
    assert (kUnroll * t + cu + 1 ≤ kUnroll * threads) by nia. nia. }
  replace (columns * kUnroll * t + cu * columns) with beg by (unfold beg; ring).
  rewrite (wrap64_small beg) by lia.
  match goal with
  | |- context [foldM ?body ?l ?s] =>
    destruct (foldM_prefix_inv
      (λ (done : list COOTuple) (acc : list Entry * Z),
        acc.2 = beg + vsize (adapter_row v done)
        ∧ length acc.1 = length (workspace_ st)
        ∧ (∀ j : nat, (j < length (adapter_row v done))%nat →
             acc.1 !! (Z.to_nat beg + j)%nat = adapter_row v done !! j)
        ∧ (∀ k : nat, ¬ (beg ≤ Z.of_nat k < acc.2) →
             acc.1 !! k = workspace_ st !! k))
      body l s) as ([ws' nm] & Hrun & Hacc)
  end.
  - simpl. split; [unfold vsize; simpl; lia|]. split; [done|].
    split; [intros j Hj; simpl in Hj; lia | done].
  - intros done e rest [w n] Hsplit (Hn & Hlen & Hkept & Hframe). simpl in *.
    pose proof (adapter_row_prefix v (done ++ [e]) rest) as Hpre.
    rewrite <-app_assoc in Hpre. simpl in Hpre. rewrite <-Hsplit in Hpre.
    rewrite adapter_row_snoc in Hpre |- *.
    unfold adapter_entry in Hpre |- *.
    destruct (negb (SFeqb (missing_ v) (value e)) && negb (CheckNAN (value e))).
    + rewrite length_app in Hpre. simpl in Hpre.
      rewrite vec_set_Ok by (unfold vsize in *; lia). rewrite bind_Ok.
      rewrite wrap64_small by (unfold vsize in *; lia).
      eexists; split; [done|]. simpl.
      split; [unfold vsize in *; rewrite length_app; simpl; lia|].
      split; [by rewrite length_insert|]. split.
      * intros j Hj. rewrite length_app in Hj. simpl in Hj.
        destruct (decide (j = length (adapter_row v done))) as [->|Hne].
        -- rewrite lookup_app_r by lia. rewrite Nat.sub_diag. simpl.
           replace (Z.to_nat beg + length (adapter_row v done))%nat
             with (Z.to_nat n) by (unfold vsize in *; lia).
           apply list_lookup_insert_eq. unfold vsize in *. lia.
        -- rewrite lookup_app_l by lia.
           rewrite list_lookup_insert_ne by (unfold vsize in *; lia).
           apply Hkept. lia.
      * intros k Hk. rewrite list_lookup_insert_ne by (unfold vsize in *; lia).
        apply Hframe. unfold vsize in *. lia.
    + rewrite app_nil_r. eexists; split; [done|]. simpl. done.
  - destruct Hacc as (Hn & Hlen & Hkept & Hframe). simpl in *. subst nm.
    exists ws'. split; [done|]. split; [done|].
    rewrite Hrun, bind_Ok. simpl.
    replace (beg + vsize (adapter_row v row) - beg)
      with (vsize (adapter_row v row)) by lia.
    pose proof (vsize_nonneg (adapter_row v row)).
    rewrite (wrap64_small (vsize _)) by lia.
    unfold subspan.
    rewrite (decide_True (P := beg + vsize (adapter_row v row) ≤ vsize ws'))
      by (unfold vsize in *; lia).
    rewrite bind_Ok. rewrite (wrap64_small (cu + 1)) by lia.
    rewrite vec_set_Ok by lia. rewrite bind_Ok. fold (next_unroll kUnroll cu).
    split; [done|]. split; [done|]. split; [|done].
    unfold span_read. simpl. apply list_eq. intros j.
    rewrite lookup_take. unfold vsize. rewrite Nat2Z.id.
    case_decide as Hj.
    + rewrite lookup_drop. by apply Hkept.
    + symmetry. apply lookup_ge_None_2. lia.
Qed.

Lemma slot_index_inj (K t cu t' cu' : Z) :
  0 ≤ cu < K → 0 ≤ cu' < K → K * t + cu = K * t' + cu' → t = t' ∧ cu = cu'.
Proof.
  intros Hcu Hcu' Heq. apply (cell_inj K); [done | done | lia].
Qed.

Lemma slots_disjoint (columns s s' k : Z) :
  0 ≤ columns → s ≠ s' →
  columns * s ≤ k < columns * s + columns →
  ¬ (columns * s' ≤ k < columns * s' + columns).
Proof. intros Hc Hne Hk Hk'. destruct (Z.lt_trichotomy s s') as [?|[?|?]]; nia. Qed.

Lemma slots_ahead_next (K cu c : Z) :
  0 ≤ cu < K → 0 ≤ c < K → slots_ahead K cu c < K →
  slots_ahead K cu (next_unroll K c) = slots_ahead K cu c + 1.
Proof. unfold slots_ahead, next_unroll. intros. repeat case_decide; lia. Qed.

Lemma slots_ahead_first (K cu : Z) :
  0 ≤ cu < K → slots_ahead K cu (next_unroll K cu) = 1.
Proof. unfold slots_ahead, next_unroll. intros. repeat case_decide; lia. Qed.

Lemma fetches_of_cons t (call : Z * Z) calls :
  fetches_of t (call :: calls)
  = (if decide (call.1 = t) then 1 else 0) + fetches_of t calls.
Proof.
  unfold fetches_of, vsize. rewrite filter_cons.
  case_decide; simpl; lia.
Qed.

Lemma fetches_of_nonneg t calls : 0 ≤ fetches_of t calls.
Proof. apply vsize_nonneg. Qed.

Section Workspace.
Variables (kUnroll threads : Z) (v : AdapterView).

Let columns : Z := NumColumns (adapter_ v).

Hypothesis Hcolumns : 0 ≤ columns < 2 ^ 32.
Hypothesis HkUnroll : 0 < kUnroll < 2 ^ 64.
Hypothesis Hsize : columns * kUnroll * threads < 2 ^ 64.
Hypothesis Hfit : rows_fit v.

(** One fetch of a row of the adapter, on a workspace in order. *)
Lemma fetch_step t i st :
  scratch_ok kUnroll columns threads st → fetch_ok threads v (t, i) →
  ∃ cu row ws',
    current_unroll_ st !! Z.to_nat t = Some cu
    ∧ 0 ≤ cu < kUnroll
    ∧ GetLine (adapter_ v) !! Z.to_nat i = Some row
    ∧ vsize (adapter_row v row) ≤ columns
    ∧ AdapterView_index kUnroll v t i st
      = Ok ({| span_offset := columns * (kUnroll * t + cu);
               span_count := vsize (adapter_row v row) |},
            {| workspace_ := ws';
               current_unroll_ :=
                 <[Z.to_nat t := next_unroll kUnroll cu]> (current_unroll_ st) |})
    ∧ scratch_ok kUnroll columns threads
        {| workspace_ := ws';
           current_unroll_ :=
             <[Z.to_nat t := next_unroll kUnroll cu]> (current_unroll_ st) |}
    ∧ span_read ws' {| span_offset := columns * (kUnroll * t + cu);
                       span_count := vsize (adapter_row v row) |}
      = adapter_row v row
    ∧ (∀ k : nat,
         ¬ (columns * (kUnroll * t + cu) ≤ Z.of_nat k
            < columns * (kUnroll * t + cu) + vsize (adapter_row v row)) →
         ws' !! k = workspace_ st !! k).
Proof.
  intros Hok [Ht Hi]. simpl in Ht, Hi.
  destruct (lookup_lt_is_Some_2 (GetLine (adapter_ v)) (Z.to_nat i))
    as [row Hrow]; [unfold vsize in *; lia|].
  pose proof (Forall_lookup_1 _ _ _ _ Hfit Hrow) as Hrowfit. simpl in Hrowfit.
  destruct (AdapterView_index_spec kUnroll threads v t i st row)
    as (cu & ws' & Hcu & Hcur & Hrun & Hlen & Hread & Hframe);
    [done | done | done | done | done | lia | done | done |].
  exists cu, row, ws'. repeat split; try done; try lia.
  - destruct Hok as (Hcus & _ & _). simpl. by rewrite vsize_insert.
  - destruct Hok as (_ & Hrange & _). simpl.
    apply Forall_insert; [done|]. by apply next_unroll_range.
  - destruct Hok as (_ & _ & Hws). simpl. unfold vsize in *. by rewrite Hlen.
Qed.

(** Fetches leave the slot [cu] of thread [t] alone as long as the counter
    of [t] does not come round to it. *)
Lemma fetch_rows_keeps t cu calls :
  0 ≤ t < threads → 0 ≤ cu < kUnroll →
  ∀ st c,
    scratch_ok kUnroll columns threads st →
    current_unroll_ st !! Z.to_nat t = Some c →
    slots_ahead kUnroll cu c + fetches_of t calls ≤ kUnroll →
    Forall (fetch_ok threads v) calls →
    ∃ st2,
      fetch_rows kUnroll v calls st = Ok st2
      ∧ scratch_ok kUnroll columns threads st2
      ∧ ∀ k : nat,
          columns * (kUnroll * t + cu) ≤ Z.of_nat k
          < columns * (kUnroll * t + cu) + columns →
          workspace_ st2 !! k = workspace_ st !! k.
Proof.
  intros Ht Hcu. induction calls as [|[t' i'] calls IH];
    intros st c Hok Hc Hahead Hcalls.
  { exists st. done. }
  apply Forall_cons in Hcalls as [Hcall Hcalls].
  rewrite fetches_of_cons in Hahead. simpl in Hahead.
  pose proof (fetches_of_nonneg t calls) as Hnn.
  destruct (fetch_step t' i' st Hok Hcall)
    as (cu' & row & ws' & Hcu' & Hcur' & Hrow & Hrowfit & Hrun & Hok' & _
        & Hframe).
  destruct Hcall as [Ht' _]. simpl in Ht'.
  assert (Hcr : 0 ≤ c < kUnroll).
  { destruct Hok as (_ & Hrange & _).
    apply (Forall_lookup_1 _ _ _ _ Hrange Hc). }
  assert (Hslot : kUnroll * t' + cu' ≠ kUnroll * t + cu).
  { intros Heq. apply slot_index_inj in Heq as [-> ->]; [|done..].
    rewrite decide_True in Hahead by done.
    assert (c = cu) as -> by congruence.
    unfold slots_ahead in Hahead. rewrite decide_False in Hahead by lia. lia. }
  set (st1 := {| workspace_ := ws';
                 current_unroll_ :=
                   <[Z.to_nat t' := next_unroll kUnroll cu']> (current_unroll_ st) |})
    in *.
  destruct (IH st1 (if decide (t' = t) then next_unroll kUnroll c else c))
    as (st2 & Hrun2 & Hok2 & Hkeep); [done | | | done |].
  - simpl. case_decide as Htt.
    + subst t'. assert (cu' = c) as -> by congruence.
      apply list_lookup_insert_eq. by apply lookup_lt_Some in Hc.
    + rewrite list_lookup_insert_ne by lia. done.
  - case_decide as Htt; [|lia].
    rewrite slots_ahead_next; [lia | done | done | lia].
  - exists st2. split; [|split; [done|]].
    + unfold fetch_rows in *. simpl. rewrite Hrun, bind_Ok. simpl. exact Hrun2.
    + intros k Hk. rewrite Hkeep by done. simpl. apply Hframe.
      intros Hin.
      apply (slots_disjoint columns (kUnroll * t + cu) (kUnroll * t' + cu')
               (Z.of_nat k)); [lia | done | done | lia].
Qed.

(** X5. Fetching a row of the adapter through the workspace: the call
    succeeds and returns a window of the workspace that holds exactly the
    entries the view keeps of the row, the elements that are neither the
    missing sentinel nor NaN, in the order of the row; the window starts at
    the slot [columns * (kUnroll * thread + counter)], nothing outside it
    is written, and the counter of the thread moves to the next of its
    [kUnroll] slots, back to zero after the last. *)
Theorem AdapterView_index_fetch t i st :
  scratch_ok kUnroll columns threads st → fetch_ok threads v (t, i) →
  ∃ s st' inst cu,
    AdapterView_index kUnroll v t i st = Ok (s, st')
    ∧ AdapterView_at v i = Ok inst
    ∧ span_read (workspace_ st') s = inst
    ∧ current_unroll_ st !! Z.to_nat t = Some cu
    ∧ span_offset s = columns * (kUnroll * t + cu)
    ∧ span_count s = vsize inst
    ∧ current_unroll_ st'
      = <[Z.to_nat t := next_unroll kUnroll cu]> (current_unroll_ st)
    ∧ scratch_ok kUnroll columns threads st'
    ∧ ∀ k : nat,
        ¬ (span_offset s ≤ Z.of_nat k < span_offset s + span_count s) →
        workspace_ st' !! k = workspace_ st !! k.
Proof.
  intros Hok Hcall.
  destruct (fetch_step t i st Hok Hcall)
    as (cu & row & ws' & Hcu & Hcur & Hrow & Hrowfit & Hrun & Hok' & Hread
        & Hframe).
  destruct Hcall as [_ Hi]. simpl in Hi.
  eexists _, _, (adapter_row v row), cu.
  split; [exact Hrun|]. split; [apply AdapterView_at_row; [lia | done]|].
  simpl. done.
Qed.

(** X6. A row fetched through the workspace stays readable while its
    thread fetches fewer than [kUnroll] further rows, whatever the other
    threads fetch: after such fetches the window still holds the entries
    of the row. *)
Theorem AdapterView_rows_stay_live t i st s st1 calls :
  scratch_ok kUnroll columns threads st → fetch_ok threads v (t, i) →
  AdapterView_index kUnroll v t i st = Ok (s, st1) →
  Forall (fetch_ok threads v) calls → fetches_of t calls < kUnroll →
  ∃ st2 inst,
    fetch_rows kUnroll v calls st1 = Ok st2
    ∧ AdapterView_at v i = Ok inst
    ∧ span_read (workspace_ st1) s = inst
    ∧ span_read (workspace_ st2) s = inst.
Proof.
  intros Hok Hcall Hfetch Hcalls Hfew.
  destruct (fetch_step t i st Hok Hcall)
    as (cu & row & ws' & Hcu & Hcur & Hrow & Hrowfit & Hrun & Hok' & Hread
        & Hframe).
  rewrite Hrun in Hfetch. injection Hfetch as <- <-.
  destruct Hcall as [Ht Hi]. simpl in Ht, Hi.
  destruct (fetch_rows_keeps t cu calls Ht Hcur _ (next_unroll kUnroll cu) Hok')
    as (st2 & Hrun2 & _ & Hkeep); [| | done |].
  - simpl. apply list_lookup_insert_eq. by apply lookup_lt_Some in Hcu.
  - rewrite slots_ahead_first by done. lia.
  - exists st2, (adapter_row v row).
    split; [done|]. split; [apply AdapterView_at_row; [lia | done]|].
    split; [done|]. etrans; [|exact Hread].
    apply span_read_ext; simpl; [nia|].
    intros k Hk. apply Hkeep. lia.
Qed.

End Workspace.


(** The writes of a row, from [n] on in a workspace [w]: they succeed when
    the entries kept fit below the end of the workspace, and the first one
    beyond it fails. *)
Lemma adapter_writes (v : AdapterView) (row : list COOTuple) :
  ∀ (w : list Entry) (n : Z),
    0 ≤ n ≤ vsize w → vsize w < 2 ^ 64 →
    let body := λ (e : COOTuple) (acc : list Entry * Z),
      if negb (SFeqb (missing_ v) (value e)) && negb (CheckNAN (value e)) then
        ws ← vec_set acc.1 acc.2
               {| index := wrap32 (column_idx e); fvalue := value e |};
        Ok (ws, wrap64 (acc.2 + 1))
      else Ok acc in
    (n + vsize (adapter_row v row) ≤ vsize w →
       ∃ w', foldM body row (w, n) = Ok (w', n + vsize (adapter_row v row))
             ∧ length w' = length w
             ∧ (∀ j : nat, (j < length (adapter_row v row))%nat →
                  w' !! (Z.to_nat n + j)%nat = adapter_row v row !! j)
             ∧ (∀ k : nat,
                  ¬ (n ≤ Z.of_nat k < n + vsize (adapter_row v row)) →
                  w' !! k = w !! k))
    ∧ (vsize w < n + vsize (adapter_row v row) →
       foldM body row (w, n) = Err OutOfBounds).
Proof.
  induction row as [|e row IH]; intros w n Hn Hw body.
  { cbn [foldM]. unfold adapter_row, vsize. simpl. split.
    - intros _. exists w. rewrite Z.add_0_r.
      split; [done|]. split; [done|]. split; [intros; lia | done].
    - unfold vsize in *. lia. }
  cbn [foldM]. subst body. cbn beta.
  assert (Hrow : adapter_row v (e :: row)
                 = (if adapter_entry (missing_ v) e is Some x then [x] else [])
                   ++ adapter_row v row).
  { unfold adapter_row.
    change (omap (adapter_entry (missing_ v)) (e :: row))
      with (match adapter_entry (missing_ v) e with
            | Some y => y :: omap (adapter_entry (missing_ v)) row
            | None => omap (adapter_entry (missing_ v)) row
            end).
    by destruct (adapter_entry (missing_ v) e). }
  rewrite Hrow. unfold adapter_entry. cbn [fst snd].
  destruct (negb (SFeqb (missing_ v) (value e)) && negb (CheckNAN (value e))).
  - assert (Hone : ∀ x : Entry,
              vsize ([x] ++ adapter_row v row) = 1 + vsize (adapter_row v row))
      by (intros x; unfold vsize; simpl; lia).
    rewrite !Hone.
    pose proof (vsize_nonneg (adapter_row v row)) as Hnn.
    destruct (decide (n < vsize w)) as [Hin|Hout].
    + rewrite vec_set_Ok by lia. rewrite bind_Ok.
      rewrite (wrap64_small (n + 1)) by lia.
      destruct (IH (<[Z.to_nat n := {| index := wrap32 (column_idx e);
                                      fvalue := value e |}]> w) (n + 1))
        as [Hfits Hover];
        [rewrite vsize_insert; lia | by rewrite vsize_insert|].
      rewrite vsize_insert in Hfits, Hover. split.
      * intros Hle. destruct Hfits as (w' & Hrun & Hlen & Hkept & Hframe);
          [unfold vsize in *; lia|].
        exists w'. split.
        { rewrite bind_Ok, Hrun. do 2 f_equal. lia. }
        split; [by rewrite Hlen, length_insert|]. split.
        -- intros [|j] Hj.
           ++ rewrite Nat.add_0_r. cbn [lookup]. simpl.
              rewrite Hframe by lia.
              apply list_lookup_insert_eq. unfold vsize in *. lia.
           ++ cbn [app]. rewrite lookup_cons_ne_0 by lia. simpl.
              replace (Z.to_nat n + S j)%nat with (Z.to_nat (n + 1) + j)%nat
                by lia.
              apply Hkept. simpl in Hj. lia.
        -- intros k Hk. rewrite Hframe by (unfold vsize in *; lia).
           apply list_lookup_insert_ne. unfold vsize in *. lia.
      * intros Hgt. rewrite bind_Ok. apply Hover. unfold vsize in *. lia.
    + split; [unfold vsize in *; lia|]. intros _.
      unfold vec_set. by rewrite decide_False by lia.
  - cbn [app]. apply IH; done.
Qed.

(** X19. The writes of a fetch are checked against the end of the
    workspace, not against the end of the slot.  A row whose kept entries
    reach beyond the end of the workspace from the start of the slot aborts
    the fetch at the first write outside it; a row that keeps more entries
    than a slot has, but ends inside the workspace, is returned whole, its
    last entries written over the slots that follow. *)
Theorem AdapterView_index_bounds kUnroll threads (v : AdapterView) t i st
    row cu :
  let columns := NumColumns (adapter_ v) in
  let beg := columns * (kUnroll * t + cu) in
  let kept := vsize (adapter_row v row) in
  let window := {| span_offset := beg; span_count := kept |} in
  0 ≤ columns < 2 ^ 32 → 0 < kUnroll < 2 ^ 64 →
  columns * kUnroll * threads < 2 ^ 64 →
  scratch_ok kUnroll columns threads st →
  0 ≤ t < threads → 0 ≤ i →
  GetLine (adapter_ v) !! Z.to_nat i = Some row →
  current_unroll_ st !! Z.to_nat t = Some cu →
  (beg + kept ≤ vsize (workspace_ st) →
     ∃ st',
       AdapterView_index kUnroll v t i st = Ok (window, st')
       ∧ span_read (workspace_ st') window = adapter_row v row
       ∧ ∀ k : nat, ¬ (beg ≤ Z.of_nat k < beg + kept) →
           workspace_ st' !! k = workspace_ st !! k)
  ∧ (vsize (workspace_ st) < beg + kept →
     AdapterView_index kUnroll v t i st = Err OutOfBounds).
Proof.
  intros columns beg kept window Hcol HK Hbig (Hcus & Hrange & Hws) Ht Hi
    Hrow Hcu.
  pose proof (Forall_lookup_1 _ _ _ _ Hrange Hcu) as Hcur. simpl in Hcur.
  assert (Hslot : 0 ≤ beg ∧ beg + columns ≤ columns * kUnroll * threads).
  { unfold beg. split; [nia|].
    assert (kUnroll * t + cu + 1 ≤ kUnroll * threads) by nia. nia. }
  assert (Hhead :
            AdapterView_index kUnroll v t i st
            = foldM (λ (e : COOTuple) (acc : list Entry * Z),
                if negb (SFeqb (missing_ v) (value e))
                   && negb (CheckNAN (value e)) then
                  ws ← vec_set acc.1 acc.2
                         {| index := wrap32 (column_idx e);
                            fvalue := value e |};
                  Ok (ws, wrap64 (acc.2 + 1))
                else Ok acc) row (workspace_ st, beg)
              ≫= λ filled,
                ret ← subspan filled.1 beg (wrap64 (filled.2 - beg));
                unroll ← vec_set (current_unroll_ st) t
                           (if decide (wrap64 (cu + 1) = kUnroll) then 0
                            else wrap64 (cu + 1));
                Ok (ret, {| workspace_ := filled.1;
                            current_unroll_ := unroll |})).
  { unfold AdapterView_index. fold columns.
    rewrite (vec_get_Ok _ _ row) by done. rewrite bind_Ok.
    rewrite (vec_get_Ok _ _ cu) by (lia || done). rewrite bind_Ok.
    rewrite (wrap32_small columns) by done.
    replace (columns * kUnroll * t + cu * columns) with beg
      by (unfold beg; ring).
    by rewrite (wrap64_small beg) by lia. }
  rewrite Hhead. clear Hhead.
  destruct (adapter_writes v row (workspace_ st) beg) as [Hfits Hover];
    [lia | lia |].
  fold kept in Hfits, Hover. split.
  - intros Hle. destruct (Hfits Hle) as (w' & -> & Hlen & Hkept & Hframe).
    rewrite bind_Ok. cbn [fst snd].
    replace (beg + kept - beg) with kept by lia.
    pose proof (vsize_nonneg (adapter_row v row)) as Hnn. fold kept in Hnn.
    rewrite (wrap64_small kept) by lia.
    unfold subspan.
    rewrite (decide_True (P := beg + kept ≤ vsize w'))
      by (unfold vsize in *; lia).
    rewrite bind_Ok. rewrite vec_set_Ok by lia. rewrite bind_Ok.
    eexists. split; [reflexivity|]. cbn [workspace_]. split; [|done].
    unfold span_read, window. simpl. apply list_eq. intros j.
    rewrite lookup_take. unfold kept, vsize. rewrite Nat2Z.id.
    case_decide as Hj.
    + rewrite lookup_drop. by apply Hkept.
    + symmetry. apply lookup_ge_None_2. lia.
  - intros Hgt. by rewrite (Hover Hgt).
Qed.

Lemma ex_view_fits : rows_fit ex_view.
Proof. repeat (apply Forall_cons_2; [vm_compute; discriminate|]). apply Forall_nil_2. Qed.

Lemma ex_scratch_ok : scratch_ok 8 2 1 ex_scratch.
Proof.
  split; [reflexivity|]. split; [|reflexivity].
  repeat (apply Forall_cons_2; [lia|]). apply Forall_nil_2.
Qed.

Lemma AdapterView_index_fetch_witness :
  ∃ s st',
    AdapterView_index 8 ex_view 0 0 ex_scratch = Ok (s, st')
    ∧ AdapterView_at ex_view 0 = Ok (span_read (workspace_ st') s)
    ∧ current_unroll_ st' = [1].
Proof.
  destruct (AdapterView_index_fetch 8 1 ex_view ltac:(simpl; lia) ltac:(lia)
              ltac:(simpl; lia) ex_view_fits 0 0 ex_scratch ex_scratch_ok)
    as (s & st' & inst & cu & Hrun & Hat & Hread & Hcu & _ & _ & Hnext & _);
    [split; simpl; [lia | vm_compute; split; congruence]|].
  exists s, st'. split; [exact Hrun|]. split; [by rewrite Hread|].
  injection Hcu as <-. exact Hnext.
Defined.

Lemma AdapterView_rows_stay_live_witness :
  ∃ s st1 st2,
    AdapterView_index 8 ex_view 0 0 ex_scratch = Ok (s, st1)
    ∧ fetch_rows 8 ex_view [(0, 1); (0, 1); (0, 0); (0, 1); (0, 1); (0, 0); (0, 1)]
        st1 = Ok st2
    ∧ AdapterView_at ex_view 0 = Ok (span_read (workspace_ st2) s).
Proof.
  destruct (AdapterView_index 8 ex_view 0 0 ex_scratch) as [[s st1]|e] eqn:Hrun;
    [|vm_compute in Hrun; discriminate].
  destruct (AdapterView_rows_stay_live 8 1 ex_view ltac:(simpl; lia) ltac:(lia)
              ltac:(simpl; lia) ex_view_fits 0 0 ex_scratch s st1
              [(0, 1); (0, 1); (0, 0); (0, 1); (0, 1); (0, 0); (0, 1)]
              ex_scratch_ok)
    as (st2 & inst & Hrun2 & Hat & _ & Hread);
    [ split; simpl; [lia | vm_compute; split; congruence]
    | exact Hrun
    | repeat (apply Forall_cons_2;
              [split; simpl; [lia | vm_compute; split; congruence]|]);
      apply Forall_nil_2
    | vm_compute; reflexivity |].
  exists s, st1, st2. split; [reflexivity|]. split; [exact Hrun2|].
  by rewrite Hread.
Defined.


Lemma AdapterView_index_bounds_witness :
  AdapterView_index 8 ex_wide_view 0 0 ex_last_slot = Err OutOfBounds.
Proof.
  destruct (AdapterView_index_bounds 8 1 ex_wide_view 0 0 ex_last_slot
              [{| column_idx := 0; value := f32 1 0 |};
               {| column_idx := 1; value := f32 2 0 |};
               {| column_idx := 1; value := f32 3 0 |}] 7)
    as [_ Hover];
    [ simpl; lia | lia | simpl; lia
    | split; [reflexivity|]; split; [|reflexivity];
      repeat (apply Forall_cons_2; [lia|]); apply Forall_nil_2
    | lia | lia | reflexivity | reflexivity |].
  apply Hover. vm_compute. reflexivity.
Defined.

(** ** More on the entry points *)

Section EntryPointsMore.
Context {RegTree : Type} `{TreeOps RegTree}.

Lemma InitOutPredictions_closed info out (model : GBTreeModel RegTree) :
  num_output_group (learner_model_param model) ≠ 0 →
  InitOutPredictions info out model = Ok (initial_predictions model info).
Proof.
  intros HG. unfold InitOutPredictions, initial_predictions.
  rewrite (bool_decide_eq_true_2 _ HG). simpl CHECK. rewrite bind_Ok.
  set (n := wrap64 _). pose proof (wrap64_range
    (num_output_group (learner_model_param model) * num_row_ info)) as Hn.
  fold n in Hn.
  case_decide as Hbm.
  - rewrite bool_decide_eq_true_2
      by (unfold vsize; rewrite length_resize; lia).
    simpl CHECK. rewrite bind_Ok.
    rewrite drop_ge, app_nil_r; [done|].
    rewrite length_resize. unfold vsize in Hbm. lia.
  - by rewrite length_resize.
Qed.

(** Without output groups the initialisation fails on its check, whatever
    the buffer holds. *)
Lemma InitOutPredictions_no_groups info out (model : GBTreeModel RegTree) :
  num_output_group (learner_model_param model) = 0 →
  InitOutPredictions info out model
  = Err (CheckFailed "model.learner_model_param->num_output_group != 0").
Proof.
  intros HG. unfold InitOutPredictions.
  by rewrite (bool_decide_eq_false_2
                (num_output_group (learner_model_param model) ≠ 0))
    by (intros Hne; by apply Hne).
Qed.

(** X8. Output initialisation fails only for a model without output
    groups.  Otherwise it returns a buffer of [numGroups * numRows] cells
    that is either the base margin or the base score in every cell, with at
    most one warning; what the buffer held before, and how long it was,
    makes no difference. *)
Theorem InitOutPredictions_total info out (model : GBTreeModel RegTree) :
  let lp := learner_model_param model in
  let n := wrap64 (num_output_group lp * num_row_ info) in
  (num_output_group lp = 0 →
   InitOutPredictions info out model
   = Err (CheckFailed "model.learner_model_param->num_output_group != 0"))
  ∧ (num_output_group lp ≠ 0 →
     ∃ preds log,
       InitOutPredictions info out model = Ok (preds, log)
       ∧ vsize preds = n
       ∧ (preds = base_margin_ info
          ∨ preds = replicate (Z.to_nat n) (base_score lp))
       ∧ (length log ≤ 1)%nat
       ∧ ∀ out2, InitOutPredictions info out2 model = Ok (preds, log)).
Proof.
  intros lp n. split.
  - apply InitOutPredictions_no_groups.
  - intros HG.
    exists (initial_predictions model info).1, (initial_predictions model info).2.
    rewrite <-surjective_pairing.
    split; [by apply InitOutPredictions_closed|].
    pose proof (wrap64_range (num_output_group lp * num_row_ info)) as Hn.
    fold n in Hn.
    unfold initial_predictions. fold lp n.
    case_decide as Hbm; simpl.
    + split; [done|]. split; [by left|]. split; [lia|].
      intros out2. rewrite InitOutPredictions_closed by done.
      unfold initial_predictions. fold lp n. by rewrite decide_True.
    + split; [unfold vsize; rewrite length_replicate; lia|].
      split; [by right|]. split; [case_decide; simpl; lia|].
      intros out2. rewrite InitOutPredictions_closed by done.
      unfold initial_predictions. fold lp n. by rewrite decide_False.
Qed.

(** X9. The pool of feature vectors only grows: [InitThreadTemp] keeps
    every vector the pool holds, appends unused (empty) vectors up to
    [nthread] and leaves a pool that already has [nthread] vectors as it
    is; the feature count plays no part. *)
Theorem InitThreadTemp_grows nthread num_feature (out : list FVec.t) :
  vsize out < 2 ^ 31 → nthread < 2 ^ 31 →
  let pool := InitThreadTemp nthread num_feature out in
  vsize pool = Z.max (vsize out) nthread
  ∧ (∀ k fv, out !! k = Some fv → pool !! k = Some fv)
  ∧ (∀ k : nat, (length out ≤ k < length pool)%nat → pool !! k = Some [])
  ∧ ∀ num_feature', InitThreadTemp nthread num_feature' out = pool.
Proof.
  intros Hout Hn pool. subst pool. unfold InitThreadTemp.
  pose proof (vsize_nonneg out) as Hnn.
  rewrite to_int32_small by lia.
  case_decide as Hlt.
  - rewrite wrap64_small by lia. unfold vsize in *.
    split; [rewrite length_resize; lia|]. split; [|split; [|done]].
    + intros k fv Hk. pose proof (lookup_lt_Some _ _ _ Hk).
      rewrite lookup_resize by lia. done.
    + intros k Hk. rewrite length_resize in Hk.
      apply lookup_resize_new; lia.
  - split; [lia|]. split; [done|]. split; [|done].
    intros k Hk. lia.
Qed.

(** The proxy matrix after in-place prediction has set its row count. *)
Lemma DispatchedInplacePredict_unfold threads sched m
    (model : GBTreeModel RegTree) missing tb te st :
  NumColumns m = num_feature (learner_model_param model) →
  DispatchedInplacePredict threads sched m model missing tb te st
  = let info := inplace_info m (p_m st) in
    let proxy := if p_m st is Some _ then Some info else None in
    match InitOutPredictions info (predictions st) model with
    | Err e => ({| predictions := predictions st; p_m := proxy;
                   warnings := warnings st |}, Err e)
    | Ok (preds, log) =>
      match PredictBatchByBlockOfRowsKernel kBlockOfRowsSize sched
              (inplace_view threads m missing) preds model
              (to_int32 tb) (to_int32 te)
              (InitThreadTemp (to_int32 (threads * kBlockOfRowsSize))
                 (to_int32 (num_feature (learner_model_param model))) []) with
      | Err e => ({| predictions := preds; p_m := proxy;
                     warnings := warnings st ++ log |}, Err e)
      | Ok (preds', _) => ({| predictions := preds'; p_m := proxy;
                              warnings := warnings st ++ log |}, Ok tt)
      end
    end.
Proof.
  intros Hcol. unfold DispatchedInplacePredict, inplace_info, inplace_view.
  rewrite decide_True by done. by destruct (p_m st).
Qed.

(** The fresh workspace is in order. *)
Lemma inplace_view_ok threads m missing :
  0 < threads → 0 ≤ NumColumns m → NumColumns m * 8 * threads < 2 ^ 64 →
  scratch_ok kUnrollLen (NumColumns m) threads
    (inplace_view threads m missing).2.
Proof.
  intros Ht Hc Hbig. unfold inplace_view, AdapterView_new, scratch_ok, vsize.
  cbn [snd workspace_ current_unroll_].
  rewrite decide_True by lia. rewrite !length_replicate.
  assert (0 ≤ NumColumns m * 8 * threads)
    by (apply Z.mul_nonneg_nonneg; lia).
  rewrite wrap64_small by lia.
  split; [lia|]. split; [|unfold kUnrollLen; lia].
  apply Forall_replicate. unfold kUnrollLen. lia.
Qed.

(** A view whose rows fit its columns delivers, to every thread and
    whatever it has delivered before, the entries it keeps of a row. *)
Lemma AdapterView_delivers threads (v : AdapterView) (st : AdapterScratch) :
  let columns := NumColumns (adapter_ v) in
  0 ≤ columns < 2 ^ 32 → columns * kUnrollLen * threads < 2 ^ 64 →
  rows_fit v → NumRows (adapter_ v) ≤ vsize (GetLine (adapter_ v)) →
  scratch_ok kUnrollLen columns threads st →
  delivers threads (v, st)
    (λ i, adapter_row v (default [] (GetLine (adapter_ v) !! Z.to_nat i))).
Proof.
  intros columns Hcol Hbig Hfit Hrows Hok.
  exists (λ w, w.1 = v ∧ scratch_ok kUnrollLen columns threads w.2).
  split; [done|].
  intros [v0 s0] t i [Hv Hs0] Ht Hi. cbn [fst snd] in *. subst v0.
  change (view_Size (v, st)) with (NumRows (adapter_ v)) in Hi.
  destruct (fetch_step kUnrollLen threads v Hcol ltac:(unfold kUnrollLen; lia)
              Hbig Hfit t i s0 Hs0)
    as (cu & row & ws' & _ & _ & Hrow & _ & Hrun & Hok' & Hread & _);
    [split; simpl; lia|].
  eexists (v, _). split; [|split; [split; [reflexivity | exact Hok'] | reflexivity]].
  cbn [view_at AdapterView_DataView fst snd]. rewrite Hrun, bind_Ok.
  cbn [fst snd workspace_]. by rewrite Hread, Hrow.
Qed.

Lemma initial_predictions_length (model : GBTreeModel RegTree) info :
  vsize (initial_predictions model info).1
  = wrap64 (num_output_group (learner_model_param model) * num_row_ info).
Proof.
  unfold initial_predictions.
  pose proof (wrap64_range
    (num_output_group (learner_model_param model) * num_row_ info)).
  case_decide; simpl; [done|].
  unfold vsize. rewrite length_replicate. lia.
Qed.

(** X10. In-place prediction from an adapter whose columns match the
    model and none of whose rows keeps more entries than it has columns:
    every row goes through the workspace of the view, the call completes,
    sets the row count of the proxy matrix when there is one, logs the
    warning of the output initialisation and leaves [numRows * numGroups]
    predictions; the prediction of row [i] and group [g] is the initial
    one, base margin or base score, to which the leaf values of the trees
    of [tree_begin, tree_end) assigned to [g] have been added in tree
    order, for the entries the view keeps of the row.  A [tree_end] of
    zero is taken as it is: no tree is added. *)
Theorem DispatchedInplacePredict_cells threads sched m
    (model : GBTreeModel RegTree) missing tree_begin tree_end st :
  let G := num_output_group (learner_model_param model) in
  let info := inplace_info m (p_m st) in
  let init := initial_predictions model info in
  let v := {| adapter_ := m; missing_ := missing |} in
  inplace_ready threads sched m missing model tree_begin tree_end →
  ∃ preds,
    DispatchedInplacePredict threads sched m model missing
      tree_begin tree_end st
    = ({| predictions := preds;
          p_m := if p_m st is Some _ then Some info else None;
          warnings := warnings st ++ init.2 |}, Ok tt)
    ∧ vsize preds = NumRows m * G
    ∧ (∀ i g row x, 0 ≤ i < NumRows m → 0 ≤ g < G →
         GetLine m !! Z.to_nat i = Some row →
         init.1 !! Z.to_nat (i * G + g) = Some x →
         preds !! Z.to_nat (i * G + g)
         = Some (margin_sum model g tree_begin tree_end (adapter_row v row) x))
    ∧ (tree_end = tree_begin → preds = init.1).
Proof.
  intros G info init v [Hcol Hrowsfit Hthreads Hsched Hslv HG Hfeat
                          [Hrows Hlines] Hrange Htrees Hinfo].
  fold G in HG, Hinfo.
  rewrite DispatchedInplacePredict_unfold by done. fold info. cbv zeta.
  rewrite InitOutPredictions_closed by lia. fold init.
  pose proof (initial_predictions_length model info) as Hlen0.
  fold init G in Hlen0. simpl in Hlen0.
  rewrite (wrap64_small (G * NumRows m)) in Hlen0 by nia.
  destruct init as [preds0 log] eqn:Hinit. simpl in *.
  rewrite (to_int32_small tree_begin), (to_int32_small tree_end) by lia.
  rewrite (to_int32_small (threads * kBlockOfRowsSize))
    by (unfold kBlockOfRowsSize; lia).
  destruct (InitThreadTemp_fresh (threads * kBlockOfRowsSize)
              (to_int32 (num_feature (learner_model_param model)))
              (num_feature (learner_model_param model))) as [Hplen Hpok];
    [unfold kBlockOfRowsSize; lia|].
  set (rows := λ i, adapter_row v (default [] (GetLine m !! Z.to_nat i))).
  set (view := inplace_view threads m missing).
  assert (Hcolumns : 0 ≤ NumColumns m < 2 ^ 32) by lia.
  assert (Hws : NumColumns m * kUnrollLen * threads < 2 ^ 64).
  { unfold kUnrollLen.
    assert (NumColumns m * (8 * threads) ≤ 2 ^ 31 * (8 * threads))
      by (apply Z.mul_le_mono_nonneg_r; lia). lia. }
  destruct (AdapterView_delivers threads v view.2)
    as (inv & Hinv & Hfetch);
    [ done | done | done | simpl; lia
    | apply inplace_view_ok; [lia | lia | unfold kUnrollLen in Hws; lia] |].
  change (v, view.2) with view in Hinv, Hfetch.
  assert (Hsize : 0 ≤ view_Size view < 2 ^ 32) by (simpl; lia).
  destruct (kernel_spec view model rows threads inv Hfeat Hsize Hfetch HG sched
              preds0
              (InitThreadTemp (threads * kBlockOfRowsSize)
                 (to_int32 (num_feature (learner_model_param model))) [])
              tree_begin tree_end)
    as (preds & pool' & Hk & Hlen & _ & _ & Hcells & Hframe);
    [ done | done | simpl; lia | lia | lia | tauto | tauto | done | done
    | unfold vsize, kBlockOfRowsSize in *; lia
    | unfold vsize, kBlockOfRowsSize in *; lia
    | done
    | simpl; fold G; lia
    | nia |].
  simpl in Hcells, Hframe. fold G in Hcells, Hframe.
  rewrite Hk.
  exists preds. split; [done|]. split; [unfold vsize in *; lia|]. split.
  - intros i g row x Hi Hg Hrow Hx.
    specialize (Hcells i g x Hi Hg). rewrite Z.add_0_l in Hcells.
    rewrite (Hcells Hx). unfold margin_sum, rows. by rewrite Hrow.
  - intros ->.
    apply (kernel_result_unique G 0 (NumRows m) (λ _ _ x, x) preds0 preds preds0);
      try done; try lia.
    intros i g x Hi Hg Hx. rewrite (Hcells i g x Hi Hg Hx).
    by rewrite group_values_empty.
Qed.

(** X11. A failure of in-place prediction after the column check is not
    atomic.  The row count of the proxy matrix is set first; a model
    without output groups then fails the check of the output
    initialisation, with the predictions as they were; a model with a
    leaf vector fails the check of the kernel after the predictions have
    been set to their initial values and the warning has been logged. *)
Theorem DispatchedInplacePredict_partial_failure threads sched m
    (model : GBTreeModel RegTree) missing tree_begin tree_end st :
  let info := inplace_info m (p_m st) in
  let proxy := if p_m st is Some _ then Some info else None in
  let init := initial_predictions model info in
  NumColumns m = num_feature (learner_model_param model) →
  (num_output_group (learner_model_param model) = 0 →
   DispatchedInplacePredict threads sched m model missing
     tree_begin tree_end st
   = ({| predictions := predictions st; p_m := proxy;
         warnings := warnings st |},
      Err (CheckFailed "model.learner_model_param->num_output_group != 0")))
  ∧ (num_output_group (learner_model_param model) ≠ 0 →
     size_leaf_vector model ≠ 0 →
     DispatchedInplacePredict threads sched m model missing
       tree_begin tree_end st
     = ({| predictions := init.1; p_m := proxy;
           warnings := warnings st ++ init.2 |},
        Err (CheckFailed "size_leaf_vector is enforced to 0 so far"))).
Proof.
  intros info proxy init Hcol.
  rewrite DispatchedInplacePredict_unfold by done. fold info. cbv zeta.
  fold proxy. split.
  - intros HG. by rewrite InitOutPredictions_no_groups.
  - intros HG Hslv. rewrite InitOutPredictions_closed by done. fold init.
    destruct init as [preds0 log]. simpl.
    unfold PredictBatchByBlockOfRowsKernel.
    by rewrite bool_decide_eq_false_2.
Qed.

(** X12. The kernel leaves the predictions as they are when the tree
    range is empty or the row source has no rows; it fails its check, and
    computes nothing, for a model with a leaf vector. *)
Theorem PredictBatchByBlockOfRowsKernel_no_work {V : Type} `{DataView V}
    (batch : V) (model : GBTreeModel RegTree) rows sched threads
    tree_begin tree_end out pool :
  (kernel_ready batch model rows sched threads tree_begin tree_end out pool →
   tree_end = tree_begin ∨ view_Size batch = 0 →
   ∃ pool',
     PredictBatchByBlockOfRowsKernel kBlockOfRowsSize sched batch out model
       tree_begin tree_end pool = Ok (out, pool'))
  ∧ (size_leaf_vector model ≠ 0 →
     PredictBatchByBlockOfRowsKernel kBlockOfRowsSize sched batch out model
       tree_begin tree_end pool
     = Err (CheckFailed "size_leaf_vector is enforced to 0 so far")).
Proof.
  split.
  - intros [Hslv HG Hfeat Hsize Hbase (inv & Hinv & Hfetch) Hrange Htrees
              Hinfo Hsched Hpool Hout] Hnone.
    destruct (kernel_spec batch model rows threads inv Hfeat Hsize Hfetch HG
                sched out pool tree_begin tree_end)
      as (out' & pool' & Hrun & Hlen & _ & _ & Hcells & Hframe);
      try done; try tauto.
    exists pool'. rewrite Hrun. do 2 f_equal.
    apply (kernel_result_unique
             (num_output_group (learner_model_param model))
             (view_base_rowid batch) (view_Size batch) (λ _ _ x, x)
             out out' out); try done; try tauto; try lia.
    intros i g x Hi Hg Hx. destruct Hnone as [->|Hzero]; [|lia].
    rewrite (Hcells i g x Hi Hg Hx). by rewrite group_values_empty.
  - intros Hslv. unfold PredictBatchByBlockOfRowsKernel.
    by rewrite bool_decide_eq_false_2.
Qed.

End EntryPointsMore.

Lemma InitOutPredictions_total_witness :
  ∃ preds log,
    InitOutPredictions ex_info [f32 7 0] ex_model = Ok (preds, log)
    ∧ vsize preds = 3
    ∧ InitOutPredictions ex_info [] ex_model = Ok (preds, log).
Proof.
  destruct (InitOutPredictions_total ex_info [f32 7 0] ex_model) as [_ Hok].
  destruct Hok as (preds & log & Hrun & Hlen & _ & _ & Hany); [simpl; lia|].
  exists preds, log. split; [exact Hrun|]. split; [exact Hlen|]. apply Hany.
Defined.

Lemma InitThreadTemp_grows_witness :
  vsize (InitThreadTemp 64 2 [FVec.Init 2]) = 64
  ∧ InitThreadTemp 64 2 [FVec.Init 2] !! 0%nat = Some (FVec.Init 2).
Proof.
  destruct (InitThreadTemp_grows 64 2 [FVec.Init 2])
    as (Hlen & Hold & _); [vm_compute; done | lia |].
  split; [exact Hlen|]. by apply Hold.
Defined.

Ltac ex_inplace_ready :=
  split;
  [ reflexivity | apply ex_view_fits | ex_arith | by apply in_order_ok
  | reflexivity | ex_arith
  | ex_arith | ex_arith | ex_arith | ex_arith
  | intros t gi Ht;
    assert (t = 0 ∨ t = 1 ∨ t = 2) as [->|[->| ->]] by lia;
    intros [= <-]; ex_arith ].

Lemma DispatchedInplacePredict_cells_witness :
  ∃ preds,
    (DispatchedInplacePredict 1 in_order (ex_adapter 2) ex_model S754_nan
       0 3 ex_state).2 = Ok tt
    ∧ predictions (DispatchedInplacePredict 1 in_order (ex_adapter 2) ex_model
                     S754_nan 0 3 ex_state).1 = preds
    ∧ preds !! 0%nat = Some (f32 7 (-1)).
Proof.
  destruct (DispatchedInplacePredict_cells 1 in_order (ex_adapter 2) ex_model
              S754_nan 0 3 ex_state)
    as (preds & Hrun & _ & Hcells & _); [ex_inplace_ready|].
  exists preds. rewrite Hrun. split; [reflexivity|]. split; [reflexivity|].
  etrans;
    [apply (Hcells 0 0 [{| column_idx := 0; value := f32 1 0 |};
                        {| column_idx := 1; value := S754_nan |}] (f32 1 (-1)));
     [ex_arith | ex_arith | reflexivity | reflexivity]|].
  vm_compute. reflexivity.
Defined.

Lemma DispatchedInplacePredict_partial_failure_witness :
  DispatchedInplacePredict 1 in_order (ex_adapter 2) ex_leaf_vector_model
    S754_nan 0 3 ex_state
  = ({| predictions := replicate 2 (f32 1 (-1)); p_m := None; warnings := [] |},
     Err (CheckFailed "size_leaf_vector is enforced to 0 so far")).
Proof.
  destruct (DispatchedInplacePredict_partial_failure 1 in_order (ex_adapter 2)
              ex_leaf_vector_model S754_nan 0 3 ex_state) as [_ Hleaf];
    [reflexivity|].
  rewrite Hleaf; [reflexivity | simpl; lia | simpl; lia].
Defined.

Lemma PredictBatchByBlockOfRowsKernel_no_work_witness :
  ∃ pool',
    PredictBatchByBlockOfRowsKernel kBlockOfRowsSize in_order ex_page ex_out
      ex_model 3 3 ex_pool = Ok (ex_out, pool').
Proof.
  destruct (PredictBatchByBlockOfRowsKernel_no_work ex_page ex_model ex_rows
              in_order 1 3 3 ex_out ex_pool) as [Hnone _].
  apply Hnone; [ex_kernel_ready | by left].
Defined.

(** ** Loops over the rows of a data set *)

(** The cells of row [i] of a batch, for rows of [W] cells. *)
Lemma row_cell_bounds (W base n i c : Z) :
  0 ≤ base → 0 ≤ i < n → 0 ≤ c < W →
  base * W ≤ (base + i) * W + c < (base + n) * W
  ∧ (base + i) * W ≤ (base + i) * W + c < (base + i) * W + W.
Proof. intros. split; nia. Qed.

Section RowLoops.
Variables (W total features : Z) (plen : nat).

(** What the loops keep: the size of the buffer, and a pool of vectors
    that are unused or clean. *)
Let keeps (st : list bst_float * list FVec.t) : Prop :=
  vsize st.1 = total ∧ length st.2 = plen ∧ pool_ok features st.2.

(** A parallel loop over the rows [0, n) of a batch that starts at row
    [base], when every iteration rewrites the cells of its row only. *)
Lemma rows_for_spec (threads : Z) (sched : schedule) (n base : Z)
    (fn : Z → Z → list bst_float * list FVec.t
          → result (list bst_float * list FVec.t))
    (upd : Z → Z → bst_float → bst_float) (st0 : list bst_float * list FVec.t) :
  0 ≤ W → 0 ≤ base → schedule_ok threads sched →
  (∀ i tid st, 0 ≤ i < n → 0 ≤ tid < threads → keeps st →
     ∃ st', fn i tid st = Ok st' ∧ keeps st'
       ∧ (∀ c x, 0 ≤ c < W →
            st.1 !! Z.to_nat ((base + i) * W + c) = Some x →
            st'.1 !! Z.to_nat ((base + i) * W + c) = Some (upd i c x))
       ∧ (∀ k : nat,
            ¬ ((base + i) * W ≤ Z.of_nat k < (base + i) * W + W) →
            st'.1 !! k = st.1 !! k)) →
  keeps st0 →
  ∃ st', ParallelFor n sched fn st0 = Ok st' ∧ keeps st'
    ∧ (∀ i c x, 0 ≤ i < n → 0 ≤ c < W →
         st0.1 !! Z.to_nat ((base + i) * W + c) = Some x →
         st'.1 !! Z.to_nat ((base + i) * W + c) = Some (upd i c x))
    ∧ (∀ k : nat, ¬ (base * W ≤ Z.of_nat k < (base + n) * W) →
         st'.1 !! k = st0.1 !! k).
Proof.
  intros HW Hbase Hsched Hfn Hkeeps. unfold ParallelFor.
  destruct (Hsched n) as [Hperm _].
  assert (Hnodup : NoDup (sched n).*1) by (rewrite Hperm; apply NoDup_seqZ).
  set (cell := λ i c : Z, Z.to_nat ((base + i) * W + c)).
  match goal with
  | |- context [foldM ?body ?l ?s] =>
    destruct (foldM_prefix_inv
      (λ (done : list (Z * Z)) (st : list bst_float * list FVec.t),
        keeps st
        ∧ (∀ i c x, i ∈ done.*1 → 0 ≤ i < n → 0 ≤ c < W →
             st0.1 !! cell i c = Some x → st.1 !! cell i c = Some (upd i c x))
        ∧ (∀ i c, 0 ≤ i < n → i ∉ done.*1 → 0 ≤ c < W →
             st.1 !! cell i c = st0.1 !! cell i c)
        ∧ (∀ k : nat, ¬ (base * W ≤ Z.of_nat k < (base + n) * W) →
             st.1 !! k = st0.1 !! k))
      body l s) as (st' & Hrun & Hst')
  end.
  - split; [done|]. split; [|done].
    intros i c x Hin. by apply elem_of_nil in Hin.
  - intros done [i tid] rest st Hsplit (Hk & Hcells & Hrest & Hframe).
    simpl.
    assert (Htask : (i, tid) ∈ sched n).
    { rewrite Hsplit. apply elem_of_app. right. left. }
    destruct (schedule_task _ _ _ _ _ Hsched Htask) as [Hi Htid].
    assert (Hfresh : i ∉ done.*1).
    { rewrite Hsplit, fmap_app, fmap_cons in Hnodup. simpl in Hnodup.
      apply NoDup_app in Hnodup as (_ & Hdisj & _).
      intros Hin. apply (Hdisj i Hin). left. }
    destruct (Hfn i tid st Hi Htid Hk) as (st1 & -> & Hk1 & Hrow & Hout).
    eexists; split; [done|]. split; [done|].
    assert (Hother : ∀ i' c, 0 ≤ i' < n → 0 ≤ c < W → i' ≠ i →
              st1.1 !! cell i' c = st.1 !! cell i' c).
    { intros i' c Hi' Hc Hne. apply Hout. unfold cell.
      destruct (row_cell_bounds W base n i' c) as [_ Hb]; [done..|].
      destruct (Z.lt_trichotomy i' i) as [?|[?|?]]; [nia | done | nia]. }
    split; [|split].
    + intros i' c x Hin Hi' Hc Hx. rewrite fmap_app in Hin.
      apply elem_of_app in Hin as [Hin|Hin].
      * rewrite Hother; [by apply Hcells | done | done |].
        intros ->. done.
      * apply list_elem_of_singleton in Hin. simpl in Hin. subst i'.
        apply Hrow; [done|]. unfold cell in *. rewrite Hrest; done.
    + intros i' c Hi' Hnot Hc. rewrite fmap_app in Hnot.
      apply not_elem_of_app in Hnot as [Hnot Hni].
      rewrite Hother; [by apply Hrest | done | done |].
      intros ->. apply Hni. simpl. left.
    + intros k Hk'. rewrite Hout; [by apply Hframe|].
      intros Hin. apply Hk'. nia.
  - exists st'. destruct Hst' as (Hk & Hcells & _ & Hframe).
    split; [done|]. split; [done|]. split; [|done].
    intros i c x Hi Hc Hx. apply Hcells; try done.
    rewrite Hperm. apply elem_of_seqZ. lia.
Qed.

(** A loop over batches of disjoint rows, when the work on a batch
    rewrites the cells of its rows only. *)
Lemma batches_fold_spec (num_row : Z) (batches : list SparsePage)
    (F : SparsePage → list bst_float * list FVec.t
         → result (list bst_float * list FVec.t))
    (upd : SparsePage → Z → Z → bst_float → bst_float)
    (st0 : list bst_float * list FVec.t) :
  0 ≤ W → Forall (batch_in_range num_row) batches →
  batches_disjoint batches →
  (∀ p st, p ∈ batches → keeps st →
     ∃ st', F p st = Ok st' ∧ keeps st'
       ∧ (∀ i c x, 0 ≤ i < vsize (page_rows p) → 0 ≤ c < W →
            st.1 !! Z.to_nat ((base_rowid p + i) * W + c) = Some x →
            st'.1 !! Z.to_nat ((base_rowid p + i) * W + c)
            = Some (upd p i c x))
       ∧ (∀ k : nat, ¬ batch_cells W p (Z.of_nat k) → st'.1 !! k = st.1 !! k)) →
  keeps st0 →
  ∃ st', foldM F batches st0 = Ok st' ∧ keeps st'
    ∧ (∀ p i c x, p ∈ batches → 0 ≤ i < vsize (page_rows p) → 0 ≤ c < W →
         st0.1 !! Z.to_nat ((base_rowid p + i) * W + c) = Some x →
         st'.1 !! Z.to_nat ((base_rowid p + i) * W + c) = Some (upd p i c x))
    ∧ (∀ k : nat, (∀ p, p ∈ batches → ¬ batch_cells W p (Z.of_nat k)) →
         st'.1 !! k = st0.1 !! k).
Proof.
  intros HW Hbatches Hdisj HF Hkeeps.
  rewrite Forall_forall in Hbatches.
  assert (Hcell : ∀ (p q : SparsePage) i c,
            p ∈ batches → q ∈ batches →
            0 ≤ i < vsize (page_rows q) → 0 ≤ c < W →
            base_rowid p + vsize (page_rows p) ≤ base_rowid q
            ∨ base_rowid q + vsize (page_rows q) ≤ base_rowid p →
            ¬ batch_cells W p
                (Z.of_nat (Z.to_nat ((base_rowid q + i) * W + c)))).
  { intros p q i c Hp Hq Hi Hc Hd.
    destruct (Hbatches p Hp) as (? & _). destruct (Hbatches q Hq) as (? & _).
    pose proof (vsize_nonneg (page_rows p)).
    rewrite Z2Nat.id by nia. unfold batch_cells. destruct Hd; nia. }
  destruct (foldM_prefix_inv
    (λ (done : list SparsePage) (st : list bst_float * list FVec.t),
      keeps st
      ∧ (∀ p i c x, p ∈ done → 0 ≤ i < vsize (page_rows p) → 0 ≤ c < W →
           st0.1 !! Z.to_nat ((base_rowid p + i) * W + c) = Some x →
           st.1 !! Z.to_nat ((base_rowid p + i) * W + c) = Some (upd p i c x))
      ∧ (∀ k : nat, (∀ p, p ∈ done → ¬ batch_cells W p (Z.of_nat k)) →
           st.1 !! k = st0.1 !! k))
    F batches st0) as (st' & Hrun & Hst').
  - split; [done|]. split; [|done].
    intros p i c x Hin. by apply elem_of_nil in Hin.
  - intros done p rest st Hsplit (Hk & Hcells & Hframe).
    assert (Hp : p ∈ batches).
    { rewrite Hsplit. apply elem_of_app. right. left. }
    assert (Hdone : ∀ q, q ∈ done → q ∈ batches).
    { intros q Hq. rewrite Hsplit. apply elem_of_app. by left. }
    assert (Hold : ∀ q, q ∈ done →
              base_rowid q + vsize (page_rows q) ≤ base_rowid p
              ∨ base_rowid p + vsize (page_rows p) ≤ base_rowid q).
    { intros q Hq. apply list_elem_of_lookup in Hq as [a Ha].
      apply (Hdisj a (length done) q p).
      - rewrite Hsplit. rewrite lookup_app_l; [done|].
        by apply lookup_lt_Some in Ha.
      - rewrite Hsplit. by rewrite list_lookup_middle.
      - apply lookup_lt_Some in Ha. lia. }
    destruct (HF p st Hp Hk) as (st1 & -> & Hk1 & Hrows & Hout).
    eexists; split; [done|]. split; [done|]. split.
    + intros q i c x Hq Hi Hc Hx.
      apply elem_of_app in Hq as [Hq|Hq].
      * rewrite Hout; [by apply Hcells|].
        apply Hcell; [done | by apply Hdone | done | done |].
        destruct (Hold q Hq); [by right | by left].
      * apply list_elem_of_singleton in Hq as ->.
        apply Hrows; [done | done |].
        rewrite Hframe; [done|].
        intros q Hq. apply Hcell; [by apply Hdone | done | done | done |].
        by apply Hold.
    + intros k Hk'. rewrite Hout.
      * apply Hframe. intros q Hq. apply Hk'. apply elem_of_app. by left.
      * apply Hk'. apply elem_of_app. right. left.
  - exists st'. destruct Hst' as (Hk & Hcells & Hframe). done.
Qed.

End RowLoops.

(** ** The cells of leaf-index prediction *)

Section LeafCells.
Context {RegTree : Type} `{TreeOps RegTree}.

(** X13. Leaf-index prediction returns a buffer of
    [numRows * effectiveLimit] cells in which, for every row of every batch
    and every tree [j] below the effective limit, the cell
    [rowIndex * effectiveLimit + j] holds the index of the leaf the row
    reaches in tree [j], as a float; the cells of rows that no batch holds
    keep what the buffer, resized, came with. *)
Theorem PredictLeaf_cells threads sched p_fmat out
    (model : GBTreeModel RegTree) n :
  let L := valid_trees model n in
  let num_row := num_row_ (Info p_fmat) in
  predict_ready threads sched p_fmat model →
  batches_disjoint (GetBatches p_fmat) →
  vsize (trees model) < 2 ^ 32 → 0 ≤ n < 2 ^ 32 → num_row * L < 2 ^ 64 →
  ∃ out',
    PredictLeaf threads sched p_fmat out model n = Ok out'
    ∧ vsize out' = num_row * L
    ∧ (∀ p i j, p ∈ GetBatches p_fmat →
         0 ≤ i < vsize (page_rows p) → 0 ≤ j < L →
         out' !! Z.to_nat ((base_rowid p + i) * L + j)
         = Some (leaf_cell model (page_row p i) j))
    ∧ (∀ k : nat,
         (∀ p, p ∈ GetBatches p_fmat → ¬ batch_cells L p (Z.of_nat k)) →
         out' !! k = resize (Z.to_nat (num_row * L)) fzero out !! k).
Proof.
  intros L num_row [Hthreads Hsched Hfeat Hnrow Hbatches] Hdisj HT Hn Hbig.
  unfold PredictLeaf. fold L num_row.
  set (features := num_feature (learner_model_param model)) in *.
  assert (HL : 0 ≤ L ≤ vsize (trees model)).
  { pose proof (vsize_nonneg (trees model)). subst L. unfold valid_trees.
    case_decide; [rewrite wrap32_small|]; lia. }
  destruct (InitThreadTemp_fresh threads (to_int32 features) features Hthreads)
    as [Hplen Hpok].
  rewrite (wrap64_small (num_row * L)) by nia.
  set (out0 := resize _ fzero out).
  assert (Hout0 : vsize out0 = num_row * L).
  { unfold out0, vsize. rewrite length_resize. nia. }
  match goal with
  | |- context [foldM ?F ?l ?s] =>
    destruct (batches_fold_spec L (num_row * L) features (Z.to_nat threads)
                num_row l F (λ p i c _, leaf_cell model (page_row p i) c) s)
      as (st' & Hrun & Hk & Hcells & Hframe)
  end; [lia | done | done | | done |].
  - intros p [buf pool] Hp Hk. cbv beta zeta.
    rewrite Forall_forall in Hbatches.
    destruct (Hbatches p Hp) as (Hbase & Hfit & Hsmall).
    pose proof (vsize_nonneg (page_rows p)) as Hnn.
    rewrite (wrap32_small (vsize (page_rows p))) by lia.
    match goal with
    | |- context [ParallelFor ?n ?s ?fn ?st] =>
      destruct (rows_for_spec L (num_row * L) features (Z.to_nat threads)
                  threads sched n (base_rowid p) fn
                  (λ i c _, leaf_cell model (page_row p i) c) st)
        as (st' & Hrun & Hk' & Hcells & Hframe)
    end; [lia | done | done | | done |].
    + intros i tid [b pl] Hi Htid (Hlen & Hpl & Hok). simpl in *.
      destruct (vec_get_in_range pl tid) as (fv & -> & Hfv);
        [unfold vsize; lia|].
      rewrite bind_Ok.
      rewrite (pool_ok_pick features pl _ fv)
        by (done || rewrite to_int32_small, wrap64_small; unfold features; lia).
      destruct (vec_get_in_range (page_rows p) i) as (row & -> & Hrow); [lia|].
      rewrite bind_Ok.
      rewrite (wrap64_small (base_rowid p + i)) by lia.
      assert (Hprow : page_row p i = row) by (unfold page_row; by rewrite Hrow).
      set (r := base_rowid p + i).
      assert (Hcell : ∀ j, 0 ≤ j < L → 0 ≤ r * L + j < num_row * L).
      { intros j Hj. unfold r. nia. }
      loop_inv (λ j (q : list bst_float),
        vsize q = num_row * L
        ∧ (∀ j', 0 ≤ j' < j →
             q !! Z.to_nat (r * L + j') = Some (leaf_cell model row j'))
        ∧ (∀ k : nat, ¬ (r * L ≤ Z.of_nat k < r * L + j) → q !! k = b !! k))
        preds' Hrun' Hpreds'.
      * lia.
      * split; [done|]. split; [intros; lia | done].
      * intros j q Hj (Hq & Hdone & Hrest).
        destruct (vec_get_in_range (trees model) j) as (tree & -> & Htree);
          [lia|].
        rewrite bind_Ok. pose proof (Hcell j Hj).
        rewrite wrap64_small by lia.
        rewrite vec_set_Ok by lia.
        eexists; split; [done|]. split; [by rewrite vsize_insert|]. split.
        -- intros j' Hj'. destruct (decide (j' = j)) as [->|Hne].
           ++ rewrite list_lookup_insert_eq by (unfold vsize in *; lia).
              unfold leaf_cell. by rewrite Htree.
           ++ pose proof (Hcell j' ltac:(lia)).
              rewrite list_lookup_insert_ne by lia. apply Hdone. lia.
        -- intros k Hk''. rewrite list_lookup_insert_ne by lia.
           apply Hrest. lia.
      * rewrite Hrun', bind_Ok.
        rewrite vec_set_Ok by (unfold vsize; lia). rewrite bind_Ok.
        destruct Hpreds' as (Hq & Hdone & Hrest).
        eexists; split; [done|]. simpl. split; [|split].
        -- split; [done|]. rewrite length_insert. split; [done|].
           rewrite FVec_Drop_Fill by apply FVec_Init_clean.
           apply Forall_insert; [done | by right].
        -- intros c x Hc _. rewrite Hprow. by apply Hdone.
        -- intros k Hk''. apply Hrest. fold r in Hk''. lia.
    + exists st'. split; [done|]. split; [done|]. split; [done|].
      intros k Hk''. apply Hframe. unfold batch_cells in Hk''. done.
  - rewrite Hrun, bind_Ok. exists st'.1. destruct Hk as (Hlen & _).
    split; [done|]. split; [done|]. split.
    + intros p i j Hp Hi Hj.
      destruct (lookup_lt_is_Some_2 out0 (Z.to_nat ((base_rowid p + i) * L + j)))
        as [x Hx].
      { rewrite Forall_forall in Hbatches.
        destruct (Hbatches p Hp) as (Hbase & Hfit & _).
        unfold vsize in *. nia. }
      by apply (Hcells p i j x).
    + intros k Hk'. by apply Hframe.
Qed.

End LeafCells.

Lemma PredictLeaf_cells_witness :
  ∃ out',
    PredictLeaf 1 in_order ex_split [] ex_model 2 = Ok out'
    ∧ vsize out' = 6
    ∧ out' !! 5%nat
      = Some (leaf_cell ex_model [{| index := 1; fvalue := f32 1 0 |}] 1).
Proof.
  destruct (PredictLeaf_cells 1 in_order ex_split [] ex_model 2)
    as (out' & Hrun & Hlen & Hcells & _);
    [ split; [ ex_arith | by apply in_order_ok | ex_arith | ex_arith
             | repeat (apply Forall_cons_2; [repeat split; ex_arith|]);
               apply Forall_nil_2 ]
    | intros [|[|a]] [|[|b]] pa pb Ha Hb Hne; simplify_eq/=; ex_arith
    | ex_arith | ex_arith | ex_arith |].
  exists out'. split; [exact Hrun|]. split; [exact Hlen|].
  apply (Hcells {| base_rowid := 2;
                   page_rows := [[{| index := 1; fvalue := f32 1 0 |}]] |}
           0 1); [right; left | ex_arith | ex_arith].
Defined.

(** ** The cells of contribution prediction *)

Section ContributionCells.
Context {RegTree : Type} `{TreeOps RegTree}.
Variables (model : GBTreeModel RegTree) (tree_weights : option (list bst_float))
  (approximate : bool) (group_indices : option (list Z))
  (num_feat_group condition condition_feature : Z).

Let contrib (feats : FVec.t) (tree : RegTree) (ci : Z) : bst_float :=
  tree_contribution approximate group_indices num_feat_group condition
    condition_feature feats tree ci.

Lemma contribution_sum_snoc (f : RegTree → bst_float) weight g j x :
  0 ≤ j →
  contribution_sum model f weight g (j + 1) x
  = contribution_step model f weight g (contribution_sum model f weight g j x) j.
Proof.
  intros Hj. unfold contribution_sum. rewrite seqZ_app by lia.
  by rewrite foldl_app.
Qed.

Lemma tree_weight_get j :
  0 ≤ j → (∀ tw, tree_weights = Some tw → j < vsize tw) →
  (if tree_weights is Some tw then vec_get tw j else Ok fone)
  = Ok (tree_weight tree_weights j).
Proof.
  intros Hj Hw. unfold tree_weight. destruct tree_weights as [tw|]; [|done].
  destruct (vec_get_in_range tw j) as (w & -> & Hw'); [by specialize (Hw tw eq_refl); lia|].
  by rewrite Hw'.
Qed.

(** The columns of one tree. *)
Lemma tree_columns_spec (c : list bst_float) (pc N : Z) (val : Z → bst_float)
    (weight : result bst_float) (w : bst_float) :
  weight = Ok w → 0 ≤ pc → 0 ≤ N → pc + N ≤ vsize c →
  ∃ c',
    for_range 0 N (λ ci contribs,
      w ← weight;
      vec_upd contribs (pc + ci) (λ x, fadd x (fmul (val ci) w))) c = Ok c'
    ∧ length c' = length c
    ∧ (∀ k x, 0 ≤ k < N → c !! Z.to_nat (pc + k) = Some x →
         c' !! Z.to_nat (pc + k) = Some (fadd x (fmul (val k) w)))
    ∧ (∀ idx : nat, ¬ (pc ≤ Z.of_nat idx < pc + N) → c' !! idx = c !! idx).
Proof.
  intros -> Hpc HN Hfit.
  loop_inv (λ ci (q : list bst_float),
    length q = length c
    ∧ (∀ k x, 0 ≤ k < ci → c !! Z.to_nat (pc + k) = Some x →
         q !! Z.to_nat (pc + k) = Some (fadd x (fmul (val k) w)))
    ∧ (∀ idx : nat, ¬ (pc ≤ Z.of_nat idx < pc + ci) → q !! idx = c !! idx))
    c' Hrun Hc'.
  - done.
  - split; [done|]. split; [intros; lia | done].
  - intros ci q Hci (Hlen & Hdone & Hrest). rewrite bind_Ok.
    destruct (vec_upd_in_range q (pc + ci) (λ x, fadd x (fmul (val ci) w)))
      as (x & Hx & ->); [unfold vsize in *; lia|].
    eexists; split; [done|]. split; [by rewrite length_insert|]. split.
    + intros k y Hk Hy. destruct (decide (k = ci)) as [->|Hne].
      * rewrite list_lookup_insert_eq by (unfold vsize in *; lia).
        rewrite Hrest in Hx by lia. congruence.
      * rewrite list_lookup_insert_ne by lia. apply Hdone; [lia | done].
    + intros idx Hidx. rewrite list_lookup_insert_ne by lia. apply Hrest. lia.
  - eauto.
Qed.

(** The trees of one group, for one row. *)
Lemma group_trees_spec (c : list bst_float) (pc N L gid : Z) (feats : FVec.t) :
  0 ≤ L ≤ vsize (trees model) → L ≤ vsize (tree_info model) →
  (∀ tw, tree_weights = Some tw → L ≤ vsize tw) →
  0 ≤ pc → 0 ≤ N → pc + N ≤ vsize c →
  ∃ c',
    for_range 0 L (λ j contribs,
      gi ← vec_get (tree_info model) j;
      if decide (gi ≠ gid) then Ok contribs else
      tree ← vec_get (trees model) j;
      for_range 0 N (λ ci contribs,
        w ← (if tree_weights is Some tw then vec_get tw j else Ok fone);
        vec_upd contribs (pc + ci)
          (λ x, fadd x
                  (fmul
                     ((if approximate
                       then CalculateContributionsApprox tree feats
                       else CalculateContributions tree feats group_indices
                              num_feat_group condition condition_feature) ci)
                     w))) contribs) c = Ok c'
    ∧ length c' = length c
    ∧ (∀ k x, 0 ≤ k < N → c !! Z.to_nat (pc + k) = Some x →
         c' !! Z.to_nat (pc + k)
         = Some (contribution_sum model (λ tree, contrib feats tree k)
                   (tree_weight tree_weights) gid L x))
    ∧ (∀ idx : nat, ¬ (pc ≤ Z.of_nat idx < pc + N) → c' !! idx = c !! idx).
Proof.
  intros HL HL' Hw Hpc HN Hfit.
  loop_inv (λ j (q : list bst_float),
    length q = length c
    ∧ (∀ k x, 0 ≤ k < N → c !! Z.to_nat (pc + k) = Some x →
         q !! Z.to_nat (pc + k)
         = Some (contribution_sum model (λ tree, contrib feats tree k)
                   (tree_weight tree_weights) gid j x))
    ∧ (∀ idx : nat, ¬ (pc ≤ Z.of_nat idx < pc + N) → q !! idx = c !! idx))
    c' Hrun Hc'.
  - lia.
  - split; [done|]. split; [|done]. intros k x Hk Hx. done.
  - intros j q Hj (Hlen & Hdone & Hrest).
    destruct (vec_get_in_range (tree_info model) j) as (gi & -> & Hgi); [lia|].
    destruct (vec_get_in_range (trees model) j) as (tree & Htree & Htree');
      [lia|].
    rewrite bind_Ok.
    assert (Hstep : ∀ k x,
      contribution_sum model (λ tree, contrib feats tree k)
        (tree_weight tree_weights) gid (j + 1) x
      = let acc := contribution_sum model (λ tree, contrib feats tree k)
                     (tree_weight tree_weights) gid j x in
        if decide (gi = gid)
        then fadd acc (fmul (contrib feats tree k) (tree_weight tree_weights j))
        else acc).
    { intros k x. rewrite contribution_sum_snoc by lia.
      unfold contribution_step. by rewrite Hgi, Htree'. }
    destruct (decide (gi = gid)) as [->|Hg].
    2: { rewrite (decide_True (P := gi ≠ gid)) by done.
         eexists; split; [done|]. split; [done|]. split; [|done].
         intros k x Hk Hx. rewrite Hstep. simpl. by apply Hdone. }
    + rewrite (decide_False (P := gid ≠ gid)) by (intros Hne; by apply Hne).
      rewrite Htree, bind_Ok. cbv zeta.
      destruct (tree_columns_spec q pc N
                  (if approximate then CalculateContributionsApprox tree feats
                   else CalculateContributions tree feats group_indices
                          num_feat_group condition condition_feature)
                  (if tree_weights is Some tw then vec_get tw j else Ok fone)
                  (tree_weight tree_weights j))
        as (q' & -> & Hlen' & Hcols & Hframe);
        [ apply tree_weight_get; [lia|]; intros tw Htw;
          specialize (Hw tw Htw); lia
        | done | done | unfold vsize in *; lia |].
      eexists; split; [done|]. split; [congruence|]. split.
      * intros k x Hk Hx. rewrite Hstep. simpl.
        rewrite (Hcols k _ Hk (Hdone k x Hk Hx)).
        do 3 f_equal. unfold contrib, tree_contribution. by destruct approximate.
      * intros idx Hidx. rewrite Hframe by done. by apply Hrest.
  - eauto.
Qed.

End ContributionCells.

Lemma cell_split (N c : Z) :
  0 < N → 0 ≤ c → c = (c / N) * N + c mod N ∧ 0 ≤ c mod N < N ∧ 0 ≤ c / N.
Proof.
  intros HN Hc. pose proof (Z.div_mod c N ltac:(lia)).
  pose proof (Z.mod_pos_bound c N ltac:(lia)).
  assert (0 ≤ c / N) by (apply Z.div_pos; lia). lia.
Qed.

Lemma cell_join (N g k : Z) :
  0 ≤ k < N → (g * N + k) / N = g ∧ (g * N + k) mod N = k.
Proof.
  intros Hk. split.
  - symmetry. apply (Z.div_unique _ _ _ k); lia.
  - symmetry. apply (Z.mod_unique _ _ g); lia.
Qed.

Section ContributionRows.
Context {RegTree : Type} `{TreeOps RegTree}.

(** X14. Contribution prediction returns a buffer of
    [numRows * (columns + 1) * numGroups] cells, zero outside the rows of
    the batches; for every row, group [g] and slot [k], the cell
    [(rowIndex * numGroups + g) * (columns + 1) + k] holds the weighted
    attributions that the trees below the limit assigned to [g] give the
    slot, added from zero in tree order, exact or approximate as asked;
    to the last slot, the bias, the entry [rowIndex * numGroups + g] of the
    base margin is added whenever the margin is not empty, and the base
    score otherwise.  What the buffer held before plays no part. *)
Theorem PredictContribution_cells threads sched p_fmat out
    (model : GBTreeModel RegTree) ntree_limit tree_weights approximate
    group_indices num_feat_group condition condition_feature :
  let G := num_output_group (learner_model_param model) in
  let N := selected_features model group_indices num_feat_group + 1 in
  let R := num_row_ (Info p_fmat) in
  contribution_ready threads sched p_fmat model ntree_limit tree_weights
    group_indices num_feat_group →
  batches_disjoint (GetBatches p_fmat) →
  ∃ contribs,
    PredictContribution threads sched p_fmat out model ntree_limit
      tree_weights approximate group_indices num_feat_group
      condition condition_feature = Ok contribs
    ∧ vsize contribs = R * N * G
    ∧ (∀ p i g k, p ∈ GetBatches p_fmat →
         0 ≤ i < vsize (page_rows p) → 0 ≤ g < G → 0 ≤ k < N →
         contribs !! Z.to_nat (((base_rowid p + i) * G + g) * N + k)
         = Some (contribution_cell model (Info p_fmat) ntree_limit
                   tree_weights approximate group_indices num_feat_group
                   condition condition_feature (page_row p i)
                   (base_rowid p + i) g k fzero))
    ∧ (∀ idx : nat, Z.of_nat idx < R * N * G →
         (∀ p, p ∈ GetBatches p_fmat → ¬ batch_cells (G * N) p (Z.of_nat idx)) →
         contribs !! idx = Some fzero).
Proof.
  intros G N R [[Hthreads Hsched Hfeat Hnrow Hbatches] Hlimit HG Hcols
                  [HT Hinfo] Hweights Hmargin Hbig] Hdisj.
  unfold PredictContribution.
  set (lp := learner_model_param model) in *.
  fold G R in HG, Hbig, Hmargin, Hnrow, Hbatches |- *.
  set (L := valid_trees model ntree_limit) in *.
  fold N in Hbig.
  assert (HNpos : 0 < N < 2 ^ 31) by (unfold N; lia).
  assert (HL : 0 ≤ L ≤ vsize (trees model)).
  { pose proof (vsize_nonneg (trees model)). subst L. unfold valid_trees.
    case_decide; [rewrite wrap32_small|]; lia. }
  rewrite (to_int32_small G) by lia.
  rewrite (to_int32_small (num_feature lp)) by lia.
  rewrite (bool_decide_eq_true_2 (G ≠ 0)) by lia. simpl CHECK. rewrite bind_Ok.
  assert (HN : wrap64 (to_int32 ((if group_indices is None then num_feature lp
                                  else num_feat_group) + 1)) = N).
  { unfold N, selected_features in *. fold lp in Hcols |- *.
    destruct group_indices; rewrite to_int32_small, wrap64_small; lia. }
  rewrite HN. rewrite (bool_decide_eq_true_2 (N ≠ 0)) by lia.
  simpl CHECK. rewrite bind_Ok.
  rewrite (wrap64_small (R * N * G)) by nia.
  rewrite length_resize.
  destruct (InitThreadTemp_fresh threads (num_feature lp) (num_feature lp)
              Hthreads) as [Hplen Hpok].
  set (total := R * N * G) in *.
  set (buf0 := replicate (Z.to_nat total) fzero).
  assert (Htotal : 0 ≤ total) by (unfold total; nia).
  assert (Hbuf0 : vsize buf0 = total).
  { unfold buf0, vsize. rewrite length_replicate. lia. }
  set (CC := λ (row : Inst) (r g k : Z) (x : bst_float),
    contribution_cell model (Info p_fmat) ntree_limit tree_weights approximate
      group_indices num_feat_group condition condition_feature row r g k x).
  match goal with
  | |- context [foldM ?F ?l ?s] =>
    destruct (batches_fold_spec (G * N) total (num_feature lp)
                (Z.to_nat threads) R l F
                (λ p i c x, CC (page_row p i) (base_rowid p + i)
                              (c / N) (c mod N) x) s)
      as (st' & Hrun & Hk & Hcells & Hframe)
  end; [nia | done | done | | done |].
  - intros p [buf pool] Hp Hk. cbv beta zeta.
    rewrite Forall_forall in Hbatches.
    destruct (Hbatches p Hp) as (Hbase & Hfit & Hsmall).
    pose proof (vsize_nonneg (page_rows p)) as Hnn.
    rewrite (wrap32_small (vsize (page_rows p))) by lia.
    match goal with
    | |- context [ParallelFor ?n ?s ?fn ?st] =>
      destruct (rows_for_spec (G * N) total (num_feature lp)
                  (Z.to_nat threads) threads sched n (base_rowid p) fn
                  (λ i c x, CC (page_row p i) (base_rowid p + i)
                              (c / N) (c mod N) x) st)
        as (st' & Hrun & Hk' & Hcells & Hframe)
    end; [nia | done | done | | done |].
    + intros i tid [b pl] Hi Htid (Hlen & Hpl & Hok). simpl in *.
      destruct (vec_get_in_range pl tid) as (fv & -> & Hfv);
        [unfold vsize; lia|].
      rewrite bind_Ok.
      rewrite (pool_ok_pick (num_feature lp) pl _ fv)
        by (done || apply wrap64_small; lia).
      destruct (vec_get_in_range (page_rows p) i) as (row & -> & Hrow); [lia|].
      rewrite bind_Ok.
      rewrite (wrap64_small (base_rowid p + i)) by lia.
      assert (Hprow : page_row p i = row) by (unfold page_row; by rewrite Hrow).
      rewrite Hprow.
      set (r := base_rowid p + i).
      set (feats := FVec.Fill row (FVec.Init (num_feature lp))).
      loop_inv (λ gid (s : list bst_float * FVec.t),
        s.2 = FVec.Init (num_feature lp)
        ∧ vsize s.1 = total
        ∧ (∀ g k x, 0 ≤ g < gid → 0 ≤ k < N →
             b !! Z.to_nat ((r * G + g) * N + k) = Some x →
             s.1 !! Z.to_nat ((r * G + g) * N + k) = Some (CC row r g k x))
        ∧ (∀ idx : nat,
             ¬ (r * G * N ≤ Z.of_nat idx < (r * G + gid) * N) →
             s.1 !! idx = b !! idx))
        s' Hrun'' Hs'.
      * lia.
      * simpl. split; [done|]. split; [done|]. split; [intros; lia | done].
      * intros gid [c fv'] Hgid (-> & Hc & Hgroups & Hrest). simpl in *.
        destruct (slot_bound r gid R G N)
          as (Hs0 & Hs1 & Hp0 & Hp1); [unfold r; lia | lia | lia |].
        fold total in Hp1.
        rewrite (wrap64_small ((r * G + gid) * N)) by lia.
        set (pc := (r * G + gid) * N) in *.
        destruct (vec_get_in_range c pc) as (x0 & -> & _); [lia|].
        rewrite bind_Ok. fold feats.
        destruct (group_trees_spec model tree_weights approximate group_indices
                    num_feat_group condition condition_feature c pc N L gid
                    feats)
          as (c1 & -> & Hlen1 & Htrees & Hframe1);
          [lia | lia | intros tw Htw; by apply Hweights | lia | lia | lia |].
        rewrite bind_Ok.
        assert (Hc1 : vsize c1 = total) by (unfold vsize in *; lia).
        set (bias := bias_term model (Info p_fmat) r gid).
        assert (Hbias : ∃ c2,
          (if decide (vsize (base_margin_ (Info p_fmat)) ≠ 0) then
             b ← vec_get (base_margin_ (Info p_fmat)) (wrap64 (r * G + gid));
             vec_upd c1 (pc + (N - 1)) (λ x, fadd x b)
           else vec_upd c1 (pc + (N - 1)) (λ x, fadd x (base_score lp)))
          = Ok c2
          ∧ length c2 = length c1
          ∧ (∀ x, c1 !! Z.to_nat (pc + (N - 1)) = Some x →
               c2 !! Z.to_nat (pc + (N - 1)) = Some (fadd x bias))
          ∧ (∀ idx : nat, idx ≠ Z.to_nat (pc + (N - 1)) →
               c2 !! idx = c1 !! idx)).
        { unfold bias, bias_term. fold lp G. case_decide as Hbm.
          - destruct Hmargin as [Hnil|Hcover];
              [rewrite Hnil in Hbm; done|].
            rewrite wrap64_small by nia.
            destruct (vec_get_in_range (base_margin_ (Info p_fmat))
                        (r * G + gid)) as (bv & -> & Hbv); [lia|].
            rewrite bind_Ok, Hbv. simpl.
            destruct (vec_upd_in_range c1 (pc + (N - 1)) (λ x, fadd x bv))
              as (x & Hx & ->); [lia|].
            eexists; split; [done|]. split; [by rewrite length_insert|]. split.
            + intros y Hy. rewrite list_lookup_insert_eq
                by (unfold vsize in *; lia). congruence.
            + intros idx Hidx. by rewrite list_lookup_insert_ne.
          - destruct (vec_upd_in_range c1 (pc + (N - 1))
                        (λ x, fadd x (base_score lp)))
              as (x & Hx & ->); [lia|].
            eexists; split; [done|]. split; [by rewrite length_insert|]. split.
            + intros y Hy. rewrite list_lookup_insert_eq
                by (unfold vsize in *; lia). congruence.
            + intros idx Hidx. by rewrite list_lookup_insert_ne. }
        destruct Hbias as (c2 & -> & Hlen2 & Hlast & Hframe2).
        rewrite bind_Ok.
        eexists; split; [done|]. simpl.
        split; [apply FVec_Drop_Fill, FVec_Init_clean|].
        split; [unfold vsize in *; lia|]. split.
        -- intros g k x Hg Hk' Hx.
           destruct (decide (g = gid)) as [->|Hne].
           ++ fold pc in Hx |- *.
              assert (Hcx : c !! Z.to_nat (pc + k) = Some x).
              { rewrite Hrest; [done|]. unfold pc. lia. }
              pose proof (Htrees k x Hk' Hcx) as Hsum.
              unfold CC, contribution_cell. fold lp L feats.
              destruct (decide (k = N - 1)) as [->|Hnk].
              ** rewrite decide_True by (unfold N; lia).
                 rewrite (Hlast _ Hsum). done.
              ** rewrite decide_False by (unfold N in *; lia).
                 rewrite Hframe2 by lia. done.
           ++ assert (Hcell : (r * G + g) * N + k < pc).
              { unfold pc.
                assert ((r * G + g + 1) * N ≤ (r * G + gid) * N)
                  by (apply Z.mul_le_mono_nonneg_r; lia). lia. }
              assert (0 ≤ (r * G + g) * N + k).
              { apply cell_nonneg; [|lia..]. apply cell_nonneg; unfold r; lia. }
              rewrite Hframe2 by lia. rewrite Hframe1 by lia.
              apply Hgroups; [lia | done | done].
        -- intros idx Hidx.
           destruct (decide (idx = Z.to_nat (pc + (N - 1)))) as [->|Hne];
             [unfold pc in *; lia|].
           rewrite Hframe2 by done. rewrite Hframe1 by (unfold pc in *; lia).
           apply Hrest. unfold pc in *. lia.
      * rewrite Hrun'', bind_Ok.
        destruct s' as [c' fv'], Hs' as (-> & Hc' & Hgroups & Hrest).
        simpl in *. rewrite vec_set_Ok by (unfold vsize; lia). rewrite bind_Ok.
        eexists; split; [done|]. simpl. split; [|split].
        -- split; [done|]. rewrite length_insert. split; [done|].
           apply Forall_insert; [done | by right].
        -- intros c x Hc Hx.
           destruct (cell_split N c) as (Heq & Hmod & Hdiv); [lia | lia |].
           assert (c / N < G) by (apply Z.div_lt_upper_bound; lia).
           assert (Hidx : r * (G * N) + c = (r * G + c / N) * N + c mod N).
           { transitivity (r * (G * N) + (c / N * N + c mod N));
               [by f_equal | ring]. }
           change (base_rowid p + i) with r in Hx |- *.
           rewrite Hidx in Hx |- *.
           apply Hgroups; [lia | done | done].
        -- intros idx Hidx. apply Hrest. fold r in Hidx. lia.
    + exists st'. split; [done|]. split; [done|]. split; [done|].
      intros idx Hidx. apply Hframe. unfold batch_cells in Hidx. done.
  - rewrite Hrun, bind_Ok. exists st'.1. destruct Hk as (Hlen & _).
    split; [done|]. split; [done|]. split.
    + intros p i g k Hp Hi Hg Hk.
      rewrite Forall_forall in Hbatches.
      destruct (Hbatches p Hp) as (Hbase & Hfit & _).
      destruct (slot_bound (base_rowid p + i) g R G N)
        as (_ & _ & Hp0 & Hp1); [lia | lia | lia |].
      destruct (cell_join N g k Hk) as [Hdiv Hmod].
      assert (Hslot : 0 ≤ g * N + k < G * N).
      { split; [apply cell_nonneg; lia|].
        assert ((g + 1) * N ≤ G * N) by (apply Z.mul_le_mono_nonneg_r; lia).
        lia. }
      specialize (Hcells p i (g * N + k) fzero Hp Hi Hslot).
      rewrite Hdiv, Hmod in Hcells.
      replace ((base_rowid p + i) * (G * N) + (g * N + k))
        with (((base_rowid p + i) * G + g) * N + k) in Hcells by ring.
      apply Hcells. simpl. unfold buf0. apply lookup_replicate_2.
      fold total in Hp1. lia.
    + intros idx Hidx Hout. rewrite Hframe by done. simpl.
      unfold buf0. apply lookup_replicate_2. lia.
Qed.

End ContributionRows.

(** ** More on contributions and interactions *)

Ltac ex_split_ready :=
  split;
  [ ex_arith | by apply in_order_ok | ex_arith | ex_arith
  | repeat (apply Forall_cons_2; [repeat split; ex_arith|]); apply Forall_nil_2 ].

Ltac ex_split_disjoint :=
  intros [|[|a]] [|[|b]] pa pb Ha Hb Hne; simplify_eq/=; ex_arith.

Lemma PredictContribution_cells_witness :
  ∃ contribs,
    PredictContribution 1 in_order ex_split [] ex_integer_model 0 None false
      None 0 0 0 = Ok contribs
    ∧ vsize contribs = 9
    ∧ contribs !! 8%nat
      = Some (contribution_cell ex_integer_model (Info ex_split) 0 None false
                None 0 0 0 [{| index := 1; fvalue := f32 1 0 |}] 2 0 2 fzero).
Proof.
  destruct (PredictContribution_cells 1 in_order ex_split [] ex_integer_model
              0 None false None 0 0 0)
    as (contribs & Hrun & Hlen & Hcells & _);
    [ split; [ ex_split_ready | ex_arith | ex_arith | split; ex_arith
             | split; ex_arith | intros ? [=] | left; reflexivity | ex_arith ]
    | ex_split_disjoint |].
  exists contribs. split; [exact Hrun|]. split; [exact Hlen|].
  apply (Hcells {| base_rowid := 2;
                   page_rows := [[{| index := 1; fvalue := f32 1 0 |}]] |}
           0 0 2); [right; left | ex_arith | ex_arith | ex_arith].
Defined.

Lemma fsub_self (x : bst_float) : is_finite x = true → fsub x x = fzero.
Proof.
  destruct x as [s| | |s m e]; try discriminate; intros _.
  - by destruct s.
  - unfold fsub, SFsub. by rewrite Z.sub_diag.
Qed.

Lemma fhalf_zero : fhalf fzero = fzero.
Proof. reflexivity. Qed.

(** A cell of the interaction matrix is the cell of one row, group,
    conditioning feature and feature. *)
Lemma matrix_cell_decompose (R G N : Z) (idx : Z) :
  0 < G → 0 < N → 0 ≤ idx < R * G * N * N →
  ∃ j l i k, 0 ≤ j < R ∧ 0 ≤ l < G ∧ 0 ≤ i < N ∧ 0 ≤ k < N
    ∧ idx = matrix_cell G N j l i k.
Proof.
  intros HG HN Hidx.
  destruct (cell_split N idx) as (H1 & Hk & Hq1); [done | lia |].
  destruct (cell_split N (idx / N)) as (H2 & Hi & Hq2); [done | done |].
  destruct (cell_split G (idx / N / N)) as (H3 & Hl & Hq3); [done | done |].
  exists (idx / N / N / G), (idx / N / N mod G), (idx / N mod N), (idx mod N).
  assert (idx / N < R * G * N) by (apply Z.div_lt_upper_bound; lia).
  assert (idx / N / N < R * G) by (apply Z.div_lt_upper_bound; lia).
  assert (idx / N / N / G < R) by (apply Z.div_lt_upper_bound; lia).
  repeat split; try lia.
  unfold matrix_cell. rewrite <-H3, <-H2. done.
Qed.

Section InteractionMore.
Context {RegTree : Type} `{TreeOps RegTree}.

(** X15. In approximate mode the conditioning is ignored: the passes with
    a feature on and off are the unconditioned pass.  So the interaction
    matrix is diagonal: every cell off the diagonal is half the
    difference of an attribution with itself, zero whenever that
    attribution is finite. *)
Theorem PredictInteractionContributions_approximate threads sched p_fmat
    out (model : GBTreeModel RegTree) ntree_limit tree_weights
    group_indices num_feat_group :
  let G := num_output_group (learner_model_param model) in
  let N := selected_features model group_indices num_feat_group + 1 in
  let R := num_row_ (Info p_fmat) in
  let pass := contribution_pass threads sched p_fmat model ntree_limit
                tree_weights true group_indices num_feat_group in
  interaction_ready threads sched p_fmat model ntree_limit tree_weights
    group_indices num_feat_group →
  (∀ buffer condition condition_feature,
     PredictContribution threads sched p_fmat buffer model ntree_limit
       tree_weights true group_indices num_feat_group
       condition condition_feature
     = PredictContribution threads sched p_fmat buffer model ntree_limit
         tree_weights true group_indices num_feat_group 0 0)
  ∧ ∃ out',
      PredictInteractionContributions threads sched p_fmat out model
        ntree_limit tree_weights true group_indices num_feat_group = Ok out'
      ∧ ∀ j l i k, 0 ≤ j < R → 0 ≤ l < G → 0 ≤ i < N → 0 ≤ k < N → k ≠ i →
          let x := vec_at (pass 0 0) ((j * G + l) * N + k) in
          out' !! Z.to_nat (matrix_cell G N j l i k) = Some (fhalf (fsub x x))
          ∧ (is_finite x = true →
             out' !! Z.to_nat (matrix_cell G N j l i k) = Some fzero).
Proof.
  intros G N R pass Hready. split; [done|].
  destruct (PredictInteractionContributions_spec threads sched p_fmat
              model ntree_limit tree_weights true group_indices
              num_feat_group Hready out) as (out' & Hrun & Hlen & Hcells).
  exists out'. split; [done|].
  intros j l i k Hj Hl Hi Hk Hne x.
  assert (Hcell : out' !! Z.to_nat (matrix_cell G N j l i k)
                  = Some (fhalf (fsub x x))).
  { etrans; [by apply Hcells|]. by rewrite decide_False. }
  split; [done|]. intros Hfin. by rewrite Hcell, fsub_self.
Qed.

(** X16. Interaction prediction writes every cell of the matrix: what the
    buffer held before, and how long it was, makes no difference to the
    result. *)
Theorem PredictInteractionContributions_buffer threads sched p_fmat
    out1 out2 (model : GBTreeModel RegTree) ntree_limit tree_weights
    approximate group_indices num_feat_group :
  interaction_ready threads sched p_fmat model ntree_limit tree_weights
    group_indices num_feat_group →
  PredictInteractionContributions threads sched p_fmat out1 model
    ntree_limit tree_weights approximate group_indices num_feat_group
  = PredictInteractionContributions threads sched p_fmat out2 model
      ntree_limit tree_weights approximate group_indices num_feat_group.
Proof.
  intros Hready.
  destruct (PredictInteractionContributions_spec threads sched p_fmat
              model ntree_limit tree_weights approximate group_indices
              num_feat_group Hready out1) as (o1 & -> & Hlen1 & Hcells1).
  destruct (PredictInteractionContributions_spec threads sched p_fmat
              model ntree_limit tree_weights approximate group_indices
              num_feat_group Hready out2) as (o2 & -> & Hlen2 & Hcells2).
  f_equal. apply list_eq. intros idx.
  pose proof Hready as [[_ _ HG Hcols _ _ _ _] _].
  set (G := num_output_group (learner_model_param model)) in *.
  set (N := selected_features model group_indices num_feat_group + 1) in *.
  set (R := num_row_ (Info p_fmat)) in *.
  destruct (decide (Z.of_nat idx < R * G * N * N)) as [Hin|Hout].
  - destruct (matrix_cell_decompose R G N (Z.of_nat idx))
      as (j & l & i & k & Hj & Hl & Hi & Hk & Heq); [lia | lia | lia |].
    rewrite <-(Nat2Z.id idx), Heq.
    by rewrite Hcells1, Hcells2.
  - rewrite !lookup_ge_None_2; [done | |]; unfold vsize in *; lia.
Qed.

End InteractionMore.

Lemma PredictInteractionContributions_approximate_witness :
  ∃ out',
    PredictInteractionContributions 1 in_order ex_dmat [] ex_integer_model 0
      None true None 0 = Ok out'
    ∧ out' !! 1%nat = Some fzero.
Proof.
  destruct (PredictInteractionContributions_approximate 1 in_order ex_dmat []
              ex_integer_model 0 None None 0)
    as (_ & out' & Hrun & Hcells); [ex_interaction_ready|].
  exists out'. split; [exact Hrun|].
  destruct (Hcells 0 0 0 1) as [_ Hzero]; [ex_arith..|].
  apply Hzero. vm_compute. reflexivity.
Defined.

Lemma PredictInteractionContributions_buffer_witness :
  PredictInteractionContributions 1 in_order ex_dmat [f32 7 0] ex_integer_model
    0 None false None 0
  = PredictInteractionContributions 1 in_order ex_dmat [] ex_integer_model
      0 None false None 0.
Proof.
  apply (PredictInteractionContributions_buffer 1 in_order ex_dmat [f32 7 0] []
           ex_integer_model 0 None false None 0).
  ex_interaction_ready.
Defined.

Section InteractionOffsets.
Context {RegTree : Type} `{TreeOps RegTree}.

(** X17. The offsets into the interaction matrix are computed in 32 bits:
    whatever the size of the matrix, no cell at index [2^32 + N] or above is
    written.  On a matrix of more cells than that, interaction prediction
    completes and those cells hold what the buffer, resized, came
    with. *)
Theorem PredictInteractionContributions_offsets_wrap threads sched p_fmat
    out (model : GBTreeModel RegTree) ntree_limit tree_weights approximate
    group_indices num_feat_group :
  let G := num_output_group (learner_model_param model) in
  let N := selected_features model group_indices num_feat_group + 1 in
  let R := num_row_ (Info p_fmat) in
  contribution_ready threads sched p_fmat model ntree_limit tree_weights
    group_indices num_feat_group →
  R * G * N < 2 ^ 32 → 2 ^ 32 + N ≤ R * G * N * N → R * G * N * N < 2 ^ 64 →
  ∃ out',
    PredictInteractionContributions threads sched p_fmat out model
      ntree_limit tree_weights approximate group_indices num_feat_group
    = Ok out'
    ∧ vsize out' = R * G * N * N
    ∧ ∀ idx : nat, 2 ^ 32 + N ≤ Z.of_nat idx →
        out' !! idx = resize (Z.to_nat (R * G * N * N)) fzero out !! idx.
Proof.
  intros G N R Hcr Hpass Hfar Hbig.
  pose proof Hcr as [[Hthreads Hsched Hfeat Hnrow Hbatches] Hlimit HG Hcols
                       [HT Hinfo] Hweights Hmargin Hsize].
  fold G N R in HG, Hcols, Hsize, Hnrow.
  assert (HN : 0 < N < 2 ^ 31) by (unfold N; lia).
  assert (Hruns : ∀ buffer condition condition_feature,
    ∃ v, PredictContribution threads sched p_fmat buffer model ntree_limit
           tree_weights approximate group_indices num_feat_group
           condition condition_feature = Ok v
         ∧ vsize v = R * N * G).
  { intros. by apply PredictContribution_runs. }
  unfold PredictInteractionContributions.
  rewrite (to_int32_small (num_output_group (learner_model_param model)))
    by (fold G; lia).
  fold G R.
  assert (Hnc : wrap64 (if group_indices is None
                        then num_feature (learner_model_param model)
                        else wrap32 num_feat_group) = N - 1).
  { unfold N, selected_features in *.
    destruct group_indices; rewrite ?wrap32_small, wrap64_small; lia. }
  rewrite Hnc. replace (N - 1 + 1) with N by lia.
  set (total := R * G * N * N) in *.
  rewrite (wrap64_small total), (wrap64_small N) by lia.
  set (c0 := resize (Z.to_nat total) fzero out).
  assert (Hc0 : vsize c0 = total).
  { unfold c0, vsize. rewrite length_resize. lia. }
  destruct (Hruns (replicate (Z.to_nat (wrap64 (R * G * N))) fzero) 0 0)
    as (diag & -> & Hdiag).
  rewrite bind_Ok.
  set (far := λ cs : list bst_float,
    vsize cs = total
    ∧ ∀ idx : nat, 2 ^ 32 + N ≤ Z.of_nat idx → cs !! idx = c0 !! idx).
  loop_inv (λ (_ : Z) (st : list bst_float * list bst_float * list bst_float),
    far st.1.1) st Hrun Hst.
  - lia.
  - split; [done | done].
  - intros i [[cs off0] on0] Hi Hcs. simpl in *.
    destruct (Hruns off0 (-1) (wrap32 i)) as (off & -> & Hoffl).
    rewrite bind_Ok.
    destruct (Hruns on0 1 (wrap32 i)) as (on & -> & Honl).
    rewrite bind_Ok.
    loop_inv (λ (_ : Z) (cs' : list bst_float), far cs') c1 Hrun1 Hc1.
    + lia.
    + done.
    + intros j cs1 Hj Hcs1.
      loop_inv (λ (_ : Z) (cs' : list bst_float), far cs') c2 Hrun2 Hc2.
      * lia.
      * done.
      * intros l cs2 Hl [Hlen2 Hfar2].
        destruct (slot_bound j l R G N) as (Hs0 & Hs1 & Hp0 & Hp1);
          [done | done | lia |].
        assert (Hcoff : wrap32 (j * wrap32 (G * N) + l * N) = (j * G + l) * N).
        { assert (0 ≤ G * N) by (apply Z.mul_nonneg_nonneg; lia).
          assert (0 ≤ (R - 1) * (G * N))
            by (apply Z.mul_nonneg_nonneg; lia).
          rewrite (wrap32_small (G * N)) by lia.
          rewrite <-(wrap32_small ((j * G + l) * N)) by lia.
          f_equal. ring. }
        rewrite Hcoff.
        match goal with
        | |- context [interaction_row _ _ (wrap32 ?X) _ _ _ _ _] =>
          pose proof (wrap32_range X) as Ho; set (o := wrap32 X) in *
        end.
        destruct (interaction_row_spec (N - 1) i o ((j * G + l) * N)
                    diag on off cs2)
          as (cs3 & -> & Hlen3 & _ & _ & Hframe);
          [lia | lia | lia | lia | lia | lia | lia | lia | lia | lia |].
        eexists; split; [done|]. split; [unfold vsize in *; lia|].
        intros idx Hidx. rewrite Hframe by lia. by apply Hfar2.
      * eauto.
    + rewrite Hrun1, bind_Ok. eexists; split; [done|]. done.
  - rewrite Hrun, bind_Ok. destruct Hst as [Hlen Hfarcells].
    exists st.1.1. done.
Qed.

End InteractionOffsets.

Lemma PredictInteractionContributions_offsets_wrap_witness :
  ∃ out',
    PredictInteractionContributions 1 in_order ex_two_rows ex_stale
      ex_wide_model 0 None false None 0 = Ok out'
    ∧ vsize out' = 2 ^ 33
    ∧ out' !! Z.to_nat (matrix_cell 1 65536 1 0 1 0) = Some (f32 7 0).
Proof.
  destruct (PredictInteractionContributions_offsets_wrap 1 in_order
              ex_two_rows ex_stale ex_wide_model 0 None false None 0)
    as (out' & Hrun & Hlen & Hfar);
    [ split; [ ex_predict_ready | ex_arith | ex_arith | split; ex_arith
             | split; ex_arith | intros ? [=] | left; reflexivity | ex_arith ]
    | ex_arith | ex_arith | ex_arith |].
  exists out'. split; [exact Hrun|]. split; [exact Hlen|].
  rewrite Hfar by (unfold matrix_cell; simpl; lia).
  unfold ex_stale. simpl num_row_. simpl num_output_group.
  rewrite lookup_resize
    by (rewrite ?length_replicate; unfold matrix_cell; simpl; lia).
  apply lookup_replicate_2. unfold matrix_cell. lia.
Defined.

Section InstanceMore.
Context {RegTree : Type} `{TreeOps RegTree}.

(** X18. Single-row prediction on a model with a leaf vector: the output
    is resized to [numGroups * (leafVectorSize + 1)] cells, of which only
    the first [numGroups] are written, one for each output group; the
    others hold what the buffer, resized, came with. *)
Theorem PredictInstance_leaf_vector_slots inst out
    (model : GBTreeModel RegTree) n :
  let lp := learner_model_param model in
  let G := num_output_group lp in
  let L := instance_tree_end n G (vsize (trees model)) in
  let cells := G * (size_leaf_vector model + 1) in
  0 ≤ n < 2 ^ 32 → 0 ≤ G → n * G < 2 ^ 32 →
  vsize (trees model) < 2 ^ 32 → vsize (trees model) ≤ vsize (tree_info model) →
  0 ≤ size_leaf_vector model → cells < 2 ^ 32 →
  ∃ out',
    PredictInstance inst out model n = Ok out'
    ∧ vsize out' = cells
    ∧ (∀ gid, 0 ≤ gid < G →
         out' !! Z.to_nat gid
         = Some (fadd
                   (foldl fadd fzero
                      (group_values
                         (leaf_value_of
                            (FVec.Fill inst (FVec.Init (num_feature lp))))
                         model (to_int32 gid) 0 L))
                   (base_score lp)))
    ∧ (∀ idx : nat, G ≤ Z.of_nat idx →
         out' !! idx = resize (Z.to_nat cells) fzero out !! idx).
Proof.
  intros lp G L cells Hn HG Hmul HT Hinfo Hslv Hcells.
  unfold PredictInstance. fold lp G.
  assert (HGc : G ≤ cells) by (unfold cells; nia).
  fold cells. rewrite (wrap32_small cells) by lia.
  rewrite (wrap32_small (n * G)) by nia.
  rewrite (wrap32_small (vsize (trees model)))
    by (pose proof (vsize_nonneg (trees model)); lia).
  set (limit := if decide (_ ∨ _) then _ else _).
  set (fv0 := FVec.Init (num_feature lp)).
  set (out0 := resize _ fzero out).
  assert (Hout0 : vsize out0 = cells).
  { unfold out0, vsize. rewrite length_resize. lia. }
  assert (Hfv : FVec.Drop inst (FVec.Fill inst fv0) = fv0)
    by apply FVec_Drop_Fill, FVec_Init_clean.
  assert (Hlim : 0 ≤ limit ≤ vsize (trees model)).
  { pose proof (vsize_nonneg (trees model)). subst limit. case_decide; nia. }
  assert (HL : 0 < G → limit = L).
  { intros Hpos. subst limit L. unfold instance_tree_end.
    repeat case_decide; nia. }
  set (val := λ gid, fadd (foldl fadd fzero
      (group_values (leaf_value_of (FVec.Fill inst fv0)) model (to_int32 gid) 0 limit))
      (base_score lp)).
  loop_inv (λ i (st : list bst_float * FVec.t),
       st.2 = fv0 ∧ vsize st.1 = cells
       ∧ (∀ gid, 0 ≤ gid < i → st.1 !! Z.to_nat gid = Some (val gid))
       ∧ (∀ idx : nat, i ≤ Z.of_nat idx → st.1 !! idx = out0 !! idx))
    st Hrun Hst.
  - lia.
  - simpl. split; [done|]. split; [done|]. split; [intros; lia | done].
  - intros gid [o fv] Hgid (Hfvi & Hleni & Hvali & Hresti). simpl in *. subst fv.
    rewrite PredValue_spec by lia. rewrite bind_Ok. simpl.
    rewrite vec_set_Ok by lia. rewrite bind_Ok.
    eexists; split; [done|]. simpl. split; [done|]. split; [|split].
    + by rewrite vsize_insert.
    + intros g' Hg'. destruct (decide (g' = gid)) as [->|Hne].
      * rewrite list_lookup_insert_eq; [done | unfold vsize in Hleni; lia].
      * rewrite list_lookup_insert_ne by lia. apply Hvali. lia.
    + intros idx Hidx. rewrite list_lookup_insert_ne by lia.
      apply Hresti. lia.
  - rewrite Hrun, bind_Ok. destruct st as [out' fv'].
    destruct Hst as (Hfv' & Hlen & Hval & Hrest).
    simpl in *. exists out'. split; [done|]. split; [done|]. split; [|done].
    intros gid Hgid. rewrite Hval by done. unfold val.
    by rewrite HL by lia.
Qed.

End InstanceMore.

Lemma PredictInstance_leaf_vector_slots_witness :
  ∃ out',
    PredictInstance ex_row [f32 7 0; f32 7 0] ex_leaf_vector_model 0 = Ok out'
    ∧ vsize out' = 2
    ∧ out' !! 1%nat = Some (f32 7 0).
Proof.
  destruct (PredictInstance_leaf_vector_slots ex_row [f32 7 0; f32 7 0]
              ex_leaf_vector_model 0)
    as (out' & Hrun & Hlen & _ & Hrest);
    [ ex_arith | ex_arith | ex_arith | ex_arith | ex_arith | ex_arith
    | ex_arith |].
  exists out'. split; [exact Hrun|]. split; [exact Hlen|].
  rewrite Hrest by (simpl; lia). reflexivity.
Defined.
